(** * monzter: an HTML link crawler

    A shallow embedding of the crawler of [sauerbraten/monzter] and the
    properties its specification states about it.

    The repository holds two generations of the crawler side by side:

    - the concurrent crawler of [crawler.go], with the [LinkSet] of
      [url_set.go] (a [sync.Map]), the fan-in [funnel] and the string-keyed
      [LinkTree] of [link_tree.go]; it lives in [Module Concurrent];
    - the depth-first crawler with the [SchemelessURLSet] and the
      pointer-keyed [URLTree] of [url_tree.go]; it lives in
      [Module Sequential].

    Both are embedded, each from its own source. *)

From Stdlib Require Import ZArith String Ascii List Lia Bool Permutation Sorted.
From stdpp Require Import base decidable option list sorting gmap strings.

Set Warnings "-register-all,-clear-no-such-hyp".
Local Open Scope string_scope.
Local Open Scope list_scope.

(** ** Go values shared by both crawlers *)

(** [net/url.URL], restricted to the fields the crawler reads, writes or
    prints.  [Path] and [Fragment] are kept in their escaped spelling. *)
Record URL : Type := mkURL {
  Scheme : string;
  Opaque : string;
  Host : string;
  Path : string;
  OmitHost : bool;
  ForceQuery : bool;
  RawQuery : string;
  Fragment : string
}.

Definition setScheme (s : string) (u : URL) : URL :=
  mkURL s (Opaque u) (Host u) (Path u) (OmitHost u) (ForceQuery u) (RawQuery u) (Fragment u).

Definition setPath (p : string) (u : URL) : URL :=
  mkURL (Scheme u) (Opaque u) (Host u) p (OmitHost u) (ForceQuery u) (RawQuery u) (Fragment u).

(** The part of package [net/url] the crawler calls.  The crawler is
    verified against this interface; [GoURL] below gives one implementation
    of it, used to run the crawler on concrete pages. *)
Class NetURL : Type := {
  (** [url.Parse]; [None] is a returned error *)
  Parse : string -> option URL;
  (** the method [URL.String] *)
  URL_String : URL -> string;
  (** [base.ResolveReference(ref)] *)
  ResolveReference : URL -> URL -> URL;
  (** the method [URL.Hostname] *)
  Hostname : URL -> string
}.

(** Go's [error] values.  Errors of the collaborators (rate limiter, HTTP
    client, HTML parser) are opaque codes; [Wrapf] is [errors.Wrapf]. *)
Inductive error : Type :=
| ErrURL (input : string)
| ErrExternal (code : nat)
| ErrNew (msg : string)
| Wrapf (cause : error) (msg : string).

(** Go's [int] on a 64-bit platform. *)
Definition int_min : Z := - 2 ^ 63.
Definition int_max : Z := 2 ^ 63 - 1.
Definition is_int (z : Z) : Prop := (int_min <= z <= int_max)%Z.
Definition int_wrap (z : Z) : Z := ((z - int_min) mod 2 ^ 64 + int_min)%Z.
Definition int_succ (z : Z) : Z := int_wrap (z + 1).

(** ** golang.org/x/net/html nodes *)

Inductive NodeType : Type :=
| ErrorNode | TextNode | DocumentNode | ElementNode | CommentNode | DoctypeNode.

Record Attribute : Type := mkAttr { Key : string; Val : string }.

(** A node with its children in sibling order ([FirstChild], then each
    [NextSibling]). *)
Inductive Node : Type :=
| mkNode (Type_ : NodeType) (Data : string) (Attr : list Attribute) (children : list Node).

Definition is_anchor (ty : NodeType) (data : string) : bool :=
  match ty with
  | ElementNode => String.eqb data "a"
  | _ => false
  end.

(** [walkLinks]: calls [visitLink] on every [<a>] element in document order
    and does not descend into one.  The visitor updates the variables it
    closes over, here the state [S]; [None] is a run-time panic inside the
    visitor. *)
Fixpoint walkLinks {S : Type} (n : Node) (visitLink : Node -> S -> option S) (s : S)
  : option S :=
  match n with
  | mkNode ty data _ cs =>
      if is_anchor ty data then visitLink n s
      else
        (fix siblings (cs : list Node) (s : S) : option S :=
           match cs with
           | [] => Some s
           | c :: cs' =>
               match walkLinks c visitLink s with
               | Some s' => siblings cs' s'
               | None => None
               end
           end) cs s
  end.

Definition Attr_of (n : Node) : list Attribute :=
  match n with mkNode _ _ attr _ => attr end.

(** the [<a>] elements [walkLinks] visits in [n], in the order of the
    visits *)
Fixpoint anchors (n : Node) : list Node :=
  match n with
  | mkNode ty data _ cs =>
      if is_anchor ty data then [n] else flat_map anchors cs
  end.

(** the visits one after the other *)
Fixpoint visit_each {S : Type} (visitLink : Node -> S -> option S) (ns : list Node) (s : S)
  : option S :=
  match ns with
  | [] => Some s
  | n :: ns' =>
      match visitLink n s with
      | Some s' => visit_each visitLink ns' s'
      | None => None
      end
  end.

(** the value of the first attribute of a list whose key is ["href"] *)
Fixpoint first_href (attrs : list Attribute) : option string :=
  match attrs with
  | [] => None
  | attr :: rest =>
      if String.eqb (Key attr) "href" then Some (Val attr) else first_href rest
  end.

(** ** A model of package net/url *)

Module GoURL.

Definition byte_in (lo hi : nat) (c : ascii) : bool :=
  (lo <=? nat_of_ascii c)%nat && (nat_of_ascii c <=? hi)%nat.

Definition is_alpha (c : ascii) : bool := byte_in 97 122 c || byte_in 65 90 c.
Definition is_digit (c : ascii) : bool := byte_in 48 57 c.
Definition is_hex (c : ascii) : bool :=
  is_digit c || byte_in 97 102 c || byte_in 65 70 c.
Definition is_ctl (c : ascii) : bool :=
  (nat_of_ascii c <? 32)%nat || (nat_of_ascii c =? 127)%nat.

Definition toLower (c : ascii) : ascii :=
  if byte_in 65 90 c then ascii_of_nat (nat_of_ascii c + 32) else c.

Fixpoint map_string (f : ascii -> ascii) (s : string) : string :=
  match s with
  | EmptyString => EmptyString
  | String c s' => String (f c) (map_string f s')
  end.

Fixpoint exists_byte (p : ascii -> bool) (s : string) : bool :=
  match s with
  | EmptyString => false
  | String c s' => p c || exists_byte p s'
  end.

Definition contains_byte (c : ascii) (s : string) : bool :=
  exists_byte (Ascii.eqb c) s.

(** [strings.Cut] for a one-byte separator: the text before the first
    separator, and the text after it when there is one. *)
Fixpoint cut (sep : ascii) (s : string) : string * option string :=
  match s with
  | EmptyString => (EmptyString, None)
  | String c s' =>
      if Ascii.eqb c sep then (EmptyString, Some s')
      else let '(before, after) := cut sep s' in (String c before, after)
  end.

Definition after_or_empty (o : option string) : string :=
  match o with Some s => s | None => EmptyString end.

(** the text up to and including the last separator ([base[:i+1]] for
    [i = strings.LastIndex(base, sep)], empty when there is none) *)
Fixpoint through_last (sep : ascii) (s : string) : string :=
  match s with
  | EmptyString => EmptyString
  | String c s' =>
      if contains_byte sep s' then String c (through_last sep s')
      else if Ascii.eqb c sep then String c EmptyString
      else EmptyString
  end.

(** the text before the last separator ([str[:index]]), [None] when
    there is no separator *)
Fixpoint before_last (sep : ascii) (s : string) : option string :=
  match s with
  | EmptyString => None
  | String c s' =>
      match before_last sep s' with
      | Some r => Some (String c r)
      | None => if Ascii.eqb c sep then Some EmptyString else None
      end
  end.

Definition hasPrefix (p s : string) : bool := String.prefix p s.

Definition drop (n : nat) (s : string) : string :=
  String.substring n (String.length s - n) s.

(** the segments between the slashes of [s], as the repeated
    [strings.Cut(remaining, "/")] of [resolvePath] yields them *)
Fixpoint split_segments (s : string) : list string :=
  match s with
  | EmptyString => [EmptyString]
  | String c s' =>
      if Ascii.eqb c "/" then EmptyString :: split_segments s'
      else
        match split_segments s' with
        | elem :: rest => String c elem :: rest
        | [] => [String c EmptyString]
        end
  end.

(** [getScheme]; [None] is the error "missing protocol scheme" *)
Fixpoint getScheme_from (rawURL : string) (i : nat) (s : string)
  : option (string * string) :=
  match s with
  | EmptyString => Some (EmptyString, rawURL)
  | String c s' =>
      if is_alpha c then getScheme_from rawURL (S i) s'
      else if is_digit c || Ascii.eqb c "+" || Ascii.eqb c "-" || Ascii.eqb c "."
      then (if (i =? 0)%nat then Some (EmptyString, rawURL)
            else getScheme_from rawURL (S i) s')
      else if Ascii.eqb c ":"
      then (if (i =? 0)%nat then None
            else Some (String.substring 0 i rawURL, s'))
      else Some (EmptyString, rawURL)
  end.

Definition getScheme (rawURL : string) : option (string * string) :=
  getScheme_from rawURL 0 rawURL.

(** every ["%"] is followed by two hexadecimal digits *)
Fixpoint valid_escapes (s : string) : bool :=
  match s with
  | EmptyString => true
  | String c s' =>
      if Ascii.eqb c "%" then
        match s' with
        | String h1 (String h2 s'') => is_hex h1 && is_hex h2 && valid_escapes s''
        | _ => false
        end
      else valid_escapes s'
  end.

(** [parse(rawURL, viaRequest = false)].  The authority is kept whole as
    [Host]: user information and the checks on host and port are outside
    this model. *)
Definition parse (rawURL : string) : option URL :=
  if exists_byte is_ctl rawURL then None
  else if String.eqb rawURL "*"
  then Some (mkURL "" "" "" "*" false false "" "")
  else
    match getScheme rawURL with
    | None => None
    | Some (scheme0, rest0) =>
        let scheme := map_string toLower scheme0 in
        let '(rest, force, query) :=
          match cut "?" rest0 with
          | (before, Some after) =>
              if String.eqb after "" then (before, true, "")
              else (before, false, after)
          | (before, None) => (before, false, "")
          end in
        if negb (hasPrefix "/" rest) && negb (String.eqb scheme "")
        then Some (mkURL scheme rest "" "" false force query "")
        else if negb (hasPrefix "/" rest)
                && contains_byte ":" (fst (cut "/" rest))
        then None
        else
          let '(host, rest', omit) :=
            if (negb (String.eqb scheme "") || negb (hasPrefix "///" rest))
               && hasPrefix "//" rest
            then
              let authority := drop 2 rest in
              match cut "/" authority with
              | (h, Some p) => (h, String "/" p, false)
              | (h, None) => (h, "", false)
              end
            else (EmptyString, rest,
                  negb (String.eqb scheme "") && hasPrefix "/" rest) in
          if valid_escapes rest'
          then Some (mkURL scheme "" host rest' omit force query "")
          else None
    end.

Definition Parse (rawURL : string) : option URL :=
  let '(u, frag) := cut "#" rawURL in
  match parse u with
  | None => None
  | Some url =>
      match frag with
      | None => Some url
      | Some f =>
          if String.eqb f "" then Some url
          else if valid_escapes f
          then Some (mkURL (Scheme url) (Opaque url) (Host url) (Path url)
                           (OmitHost url) (ForceQuery url) (RawQuery url) f)
          else None
      end
  end.

Definition String_ (u : URL) : string :=
  let buf0 :=
    if String.eqb (Scheme u) "" then "" else Scheme u +:+ ":" in
  let buf1 :=
    if negb (String.eqb (Opaque u) "") then buf0 +:+ Opaque u
    else
      let buf :=
        if negb (String.eqb (Scheme u) "") || negb (String.eqb (Host u) "")
        then
          if OmitHost u && String.eqb (Host u) "" then buf0
          else
            (if negb (String.eqb (Host u) "") || negb (String.eqb (Path u) "")
             then buf0 +:+ "//" else buf0) +:+ Host u
        else buf0 in
      let path := Path u in
      let buf :=
        if negb (String.eqb path "") && negb (hasPrefix "/" path)
           && negb (String.eqb (Host u) "")
        then buf +:+ "/" else buf in
      let buf :=
        if String.eqb buf "" && contains_byte ":" (fst (cut "/" path))
        then buf +:+ "./" else buf in
      buf +:+ path in
  let buf2 :=
    if ForceQuery u || negb (String.eqb (RawQuery u) "")
    then buf1 +:+ "?" +:+ RawQuery u else buf1 in
  if negb (String.eqb (Fragment u) "") then buf2 +:+ "#" +:+ Fragment u else buf2.

(** the loop of [resolvePath] over the segments of [full]; [dst] is the
    text written after the leading ["/"] *)
Fixpoint resolve_segments (elems : list string) (dst : string) (first : bool)
  : string * string :=
  match elems with
  | [] => (dst, "")
  | elem :: rest =>
      let '(dst', first') :=
        if String.eqb elem "." then (dst, false)
        else if String.eqb elem ".." then
          match before_last "/" dst with
          | None => ("", true)
          | Some d => (d, first)
          end
        else ((if first then dst else dst +:+ "/") +:+ elem, false) in
      match rest with
      | [] => (dst', elem)
      | _ => resolve_segments rest dst' first'
      end
  end.

Definition resolvePath (base ref : string) : string :=
  let full :=
    if String.eqb ref "" then base
    else if negb (hasPrefix "/" ref) then through_last "/" base +:+ ref
    else ref in
  if String.eqb full "" then ""
  else
    let '(dst, last) := resolve_segments (split_segments full) "" true in
    let r := "/" +:+ dst ++
             (if String.eqb last "." || String.eqb last ".." then "/" else "") in
    if hasPrefix "//" r then drop 1 r else r.

Definition ResolveReference (u ref : URL) : URL :=
  let scheme := if String.eqb (Scheme ref) "" then Scheme u else Scheme ref in
  if negb (String.eqb (Scheme ref) "") || negb (String.eqb (Host ref) "")
  then mkURL scheme (Opaque ref) (Host ref) (resolvePath (Path ref) "")
             (OmitHost ref) (ForceQuery ref) (RawQuery ref) (Fragment ref)
  else if negb (String.eqb (Opaque ref) "")
  then mkURL scheme (Opaque ref) "" "" (OmitHost ref) (ForceQuery ref)
             (RawQuery ref) (Fragment ref)
  else
    let inherit :=
      String.eqb (Path ref) "" && negb (ForceQuery ref)
      && String.eqb (RawQuery ref) "" in
    let query := if inherit then RawQuery u else RawQuery ref in
    let frag :=
      if inherit && String.eqb (Fragment ref) "" then Fragment u
      else Fragment ref in
    if String.eqb (Path ref) "" && negb (String.eqb (Opaque u) "")
    then mkURL scheme (Opaque u) "" "" (OmitHost ref) (ForceQuery ref) query frag
    else mkURL scheme (Opaque ref) (Host u) (resolvePath (Path u) (Path ref))
               (OmitHost ref) (ForceQuery ref) query frag.

(** [stripPort] *)
Definition Hostname (u : URL) : string :=
  let hostport := Host u in
  match cut ":" hostport with
  | (_, None) => hostport
  | (before_colon, Some _) =>
      match cut "]" hostport with
      | (before_bracket, Some _) =>
          if hasPrefix "[" before_bracket then drop 1 before_bracket
          else before_bracket
      | (_, None) => before_colon
      end
  end.

End GoURL.

#[export] Instance go_url : NetURL := {|
  Parse := GoURL.Parse;
  URL_String := GoURL.String_;
  ResolveReference := GoURL.ResolveReference;
  Hostname := GoURL.Hostname
|}.

(** ** The collaborators of a crawl

    The rate limiter, the HTTP client and the HTML parser are outside the
    repository.  A [World] fixes what they answer during one run: the
    limiter by the number of earlier calls of [Wait], the client by the
    text of the requested URL. *)
Record World : Type := mkWorld {
  Body : Type;
  limiter_Wait : nat -> option error;
  client_Get : string -> error + Body;
  html_Parse : Body -> error + Node
}.

(** The fields of [Crawler] that are fixed by [NewCrawler]. *)
Record Crawler : Type := mkCrawler {
  root : URL;
  maxDepth : Z
}.

Definition newline : string := String (ascii_of_nat 10) EmptyString.

(** [bytes.Repeat([]byte(s), n)] *)
Fixpoint Repeat (s : string) (n : nat) : string :=
  match n with
  | O => EmptyString
  | S n' => s +:+ Repeat s n'
  end.

Fixpoint concat_strings (l : list string) : string :=
  match l with
  | [] => EmptyString
  | s :: l' => s +:+ concat_strings l'
  end.

(** Go's [<] on strings, and its negation turned round: the order a
    finished [sort.Sort] leaves between an earlier and a later element. *)
Definition string_lt (a b : string) : Prop := String.ltb a b = true.
Definition string_le (a b : string) : Prop := String.ltb b a = false.

#[export] Instance string_le_dec a b : Decision (string_le a b).
Proof. unfold string_le. apply _. Defined.


(** * The depth-first crawler *)

Module Sequential.
Section Definitions.
Context `{NetURL}.

(** [withoutScheme]; [None] is the nil dereference of [clone.Scheme = ""]
    after a failed [url.Parse]. *)
Definition withoutScheme (u : URL) : option string :=
  match Parse (URL_String u) with
  | Some clone => Some (URL_String (setScheme "" clone))
  | None => None
  end.

(** [SchemelessURLSet.EnsureContains] on a [map[string]struct{}] *)
Definition EnsureContains (u : URL) (s : gset string) : option (bool * gset string) :=
  match withoutScheme u with
  | None => None
  | Some key =>
      if decide (key ∈ s) then Some (true, s)
      else Some (false, {[ key ]} ∪ s)
  end.

(** [u] and [v] are the same place for the set: once [u] is admitted
    into an empty set, the set reports [v] as contained already. *)
Definition same_identity (u v : URL) : Prop :=
  exists s1 s2, EnsureContains u ∅ = Some (false, s1)
                /\ EnsureContains v s1 = Some (true, s2).

(** the identity key of the URL an href parses to *)
Definition identityKey (href : string) : option string :=
  match Parse href with
  | Some u => withoutScheme u
  | None => None
  end.

(** a run of calls of [EnsureContains], one after the other, with what
    each returned *)
Fixpoint call_all (us : list URL) (s : gset string)
  : option (list (URL * bool) * gset string) :=
  match us with
  | [] => Some ([], s)
  | u :: rest =>
      match EnsureContains u s with
      | None => None
      | Some (existed, s') =>
          match call_all rest s' with
          | None => None
          | Some (answers, s'') => Some ((u, existed) :: answers, s'')
          end
      end
  end.

(** the calls on key [k] that returned "did not exist" *)
Definition admissions (k : string) (answers : list (URL * bool)) : list (URL * bool) :=
  filter (fun a => withoutScheme (fst a) = Some k /\ snd a = false) answers.

(** [URLTree], a [map[*url.URL]URLTree].  The keys are pointers, so each
    entry has a key of its own whatever URL it points to.  The entries are
    listed in the order in which [range] yields them, which Go leaves
    open; [crawl] builds the list in the order of insertion.  [UNil] is
    the nil map. *)
Inductive URLTree : Type :=
| UNil
| UMap (entries : list (URL * URLTree)).

Definition len (t : URLTree) : nat :=
  match t with
  | UNil => 0
  | UMap es => length es
  end.

(** One entry of a tree being printed: the link, its sorting key, the
    length of its sub tree and the text of that sub tree. *)
Record row : Type := mkRow {
  row_link : URL;
  row_key : string;
  row_len : nat;
  row_text : string
}.

(** the order [sort.Sort] leaves between an earlier and a later row: the
    later one is not [IgnoringScheme.Less] than the earlier one *)
Definition row_le (a b : row) : Prop := string_le (row_key a) (row_key b).

#[export] Instance row_le_dec a b : Decision (row_le a b).
Proof. unfold row_le. apply _. Defined.

(** [sort.Sort(links)] *)
Definition sort_rows (rows : list row) : list row := merge_sort row_le rows.

Definition print_row (indent : nat) (r : row) : string :=
  Repeat "  " indent +:+ URL_String (row_link r) +:+ newline
  +:+ (if (row_len r =? 0)%nat then "" else row_text r).

(** the key of a link when [Less] is going to be called on it: with
    fewer than two links [sort.Sort] compares nothing *)
Definition sort_key (n : nat) (link : URL) : option string :=
  if (n <? 2)%nat then Some EmptyString else withoutScheme link.

Section Rows.
Variable text_of : URLTree -> option string.
Variable n : nat.

(** the rows of the entries of a tree with [n] entries *)
Fixpoint rows_of (es : list (URL * URLTree)) : option (list row) :=
  match es with
  | [] => Some []
  | (link, sub) :: es' =>
      match sort_key n link, text_of sub, rows_of es' with
      | Some key, Some text, Some rows => Some (mkRow link key (len sub) text :: rows)
      | _, _, _ => None
      end
  end.

End Rows.

(** [URLTree.string].  The text of each sub tree does not depend on the
    position of its link, so it is computed along with the link's key and
    the rows are sorted afterwards.  [None] is a panic of [withoutScheme]
    inside [Less]. *)
Fixpoint string_ (t : URLTree) (indent : nat) : option string :=
  match t with
  | UNil => Some EmptyString
  | UMap es =>
      match rows_of (fun sub => string_ sub (S indent)) (length es) es with
      | Some rows => Some (concat_strings (map (print_row indent) (sort_rows rows)))
      | None => None
      end
  end.

(** [URLTree.String] *)
Definition URLTree_String (t : URLTree) : option string := string_ t 0.

(** [parseToAbsURL] *)
Definition parseToAbsURL (href : string) (base : URL) : error + URL :=
  match Parse href with
  | None => inl (ErrURL href)
  | Some parsed =>
      let parsed := if String.eqb (Path parsed) "" then setPath "/" parsed else parsed in
      inr (ResolveReference base parsed)
  end.

(** the closure passed to [walkLinks] in [uniqueLinksInPage], as a loop
    over the attributes of [n]; the state is [links] and [seenOnPage] *)
Fixpoint visit_attrs (pageURL : URL) (attrs : list Attribute)
         (st : list URL * gset string) : option (list URL * gset string) :=
  match attrs with
  | [] => Some st
  | attr :: rest =>
      if String.eqb (Key attr) "href" then
        match parseToAbsURL (Val attr) pageURL with
        | inl _ => Some st
        | inr href =>
            match EnsureContains href (snd st) with
            | None => None
            | Some (true, seen) => Some (fst st, seen)
            | Some (false, seen) => Some (fst st ++ [href], seen)
            end
        end
      else visit_attrs pageURL rest st
  end.

Definition visitLink (pageURL : URL) (n : Node) (st : list URL * gset string)
  : option (list URL * gset string) :=
  visit_attrs pageURL (Attr_of n) st.

Definition links_of (doc : Node) (pageURL : URL) : option (list URL) :=
  match walkLinks doc (visitLink pageURL) ([], ∅) with
  | Some (links, _) => Some links
  | None => None
  end.

(** [Crawler.uniqueLinksInPage]; the outer [None] is a panic *)
Definition uniqueLinksInPage (w : World) (page : Body w) (pageURL : URL)
  : option (error + list URL) :=
  match html_Parse w page with
  | inl err => Some (inl (Wrapf err "error parsing page"))
  | inr doc =>
      match links_of doc pageURL with
      | Some links => Some (inr links)
      | None => None
      end
  end.

(** The state a crawl works on: the [visited] set of the crawler, the
    number of [limiter.Wait] calls made so far, and the requests sent so
    far, each with the depth of the [crawl] call that sent it (kept for
    the statements; the program does not read it). *)
Record State : Type := mkState {
  visited : gset string;
  waits : nat;
  fetched : list (URL * Z)
}.

(** How a call ends: it returns, it panics, or the model runs out of
    [fuel]. *)
Inductive outcome (A : Type) : Type :=
| Return (a : A) (st : State)
| Panic (st : State)
| OutOfFuel.
Arguments Return {A} a st.
Arguments Panic {A} st.
Arguments OutOfFuel {A}.

(** the state a call leaves *)
Definition state_of {A : Type} (o : outcome A) : option State :=
  match o with
  | Return _ st => Some st
  | Panic st => Some st
  | OutOfFuel => None
  end.

(** [NewCrawler], without the client and the limiter it builds *)
Definition NewCrawler (link : string) (maxDepth : Z) : error + Crawler :=
  match Parse link with
  | None => inl (Wrapf (ErrURL link) ("failed to parse " +:+ link))
  | Some root =>
      if String.eqb (Scheme root) ""
      then inl (ErrNew "you must specify an absolute URL")
      else
        let root := if String.eqb (Path root) "" then setPath "/" root else root in
        inr (mkCrawler root maxDepth)
  end.

Definition initial : State := mkState ∅ 0 [].

Section Crawl.
Variable c : Crawler.
Variable w : World.

(** the test that keeps a link from being crawled:
    [depth+1 >= c.maxDepth || href.Hostname() != c.root.Hostname()] *)
Definition out_of_bounds (href : URL) (depth : Z) : bool :=
  (maxDepth c <=? int_succ depth)%Z
  || negb (String.eqb (Hostname href) (Hostname (root c))).

(** the state after [limiter.Wait] has returned *)
Definition waited (st : State) : State :=
  mkState (visited st) (S (waits st)) (fetched st).

(** the state after the request for the page has been sent *)
Definition sent (st : State) (pageURL : URL) (depth : Z) : State :=
  mkState (visited st) (S (waits st)) (fetched st ++ [(pageURL, depth)]).

(** the state after [EnsureContains] has left the set [v] *)
Definition marked (st : State) (v : gset string) : State :=
  mkState v (waits st) (fetched st).

Definition wait_message (pageURL : URL) : string :=
  "error while waiting to be allowed to crawl " +:+ URL_String pageURL.
Definition fetch_message (pageURL : URL) : string :=
  "error fetching " +:+ URL_String pageURL.
Definition links_message (pageURL : URL) : string :=
  "error finding links on " +:+ URL_String pageURL.

Section Each.
(** the nested call [c.crawl(href, depth+1)] *)
Variable recur : URL -> Z -> State -> outcome (URLTree * option error).
Variable depth : Z.

(** the loop of [crawl] over the links of the page.  An entry is written
    once, with the sub tree the iteration leaves for it: the source stores
    nil under the pointer [href] first and overwrites it after a nested
    crawl. *)
Fixpoint each (hrefs : list URL) (tree : list (URL * URLTree)) (st : State)
  : outcome (URLTree * option error) :=
  match hrefs with
  | [] => Return (UMap tree, None) st
  | href :: rest =>
      match EnsureContains href (visited st) with
      | None => Panic st
      | Some (existed, v) =>
          if existed then each rest (tree ++ [(href, UNil)]) (marked st v)
          else if out_of_bounds href depth
          then each rest (tree ++ [(href, UNil)]) (marked st v)
          else
            match recur href (int_succ depth) (marked st v) with
            | Return (subTree, None) st' => each rest (tree ++ [(href, subTree)]) st'
            | Return (_, Some err) st' => Return (UNil, Some err) st'
            | Panic st' => Panic st'
            | OutOfFuel => OutOfFuel
            end
      end
  end.

End Each.

(** [Crawler.crawl].  [fuel] bounds the nesting of calls.  A result is
    the pair Go returns: the tree and the error ([None] for nil). *)
Fixpoint crawl (fuel : nat) (pageURL : URL) (depth : Z) (st : State)
  : outcome (URLTree * option error) :=
  match fuel with
  | O => OutOfFuel
  | S fuel' =>
      match limiter_Wait w (waits st) with
      | Some err => Return (UNil, Some (Wrapf err (wait_message pageURL))) (waited st)
      | None =>
          match client_Get w (URL_String pageURL) with
          | inl err =>
              Return (UNil, Some (Wrapf err (fetch_message pageURL)))
                     (sent st pageURL depth)
          | inr page =>
              match uniqueLinksInPage w page pageURL with
              | None => Panic (sent st pageURL depth)
              | Some (inl err) =>
                  Return (UNil, Some (Wrapf err (links_message pageURL)))
                         (sent st pageURL depth)
              | Some (inr hrefs) =>
                  each (crawl fuel') depth hrefs [] (sent st pageURL depth)
              end
          end
      end
  end.

(** [Crawler.Run] *)
Definition Run (fuel : nat) (st : State) : outcome (URLTree * option error) :=
  match EnsureContains (root c) (visited st) with
  | None => Panic st
  | Some (_, v) => crawl fuel (root c) 0 (marked st v)
  end.

(** The calls of [crawl] that end and the runs of its loop, as relations:
    the graphs of [crawl] and [each] without the fuel. *)
Inductive crawl_to : URL -> Z -> State -> outcome (URLTree * option error) -> Prop :=
| crawl_wait_error pageURL depth st err :
    limiter_Wait w (waits st) = Some err ->
    crawl_to pageURL depth st
             (Return (UNil, Some (Wrapf err (wait_message pageURL))) (waited st))
| crawl_get_error pageURL depth st err :
    limiter_Wait w (waits st) = None ->
    client_Get w (URL_String pageURL) = inl err ->
    crawl_to pageURL depth st
             (Return (UNil, Some (Wrapf err (fetch_message pageURL)))
                     (sent st pageURL depth))
| crawl_links_panic pageURL depth st page :
    limiter_Wait w (waits st) = None ->
    client_Get w (URL_String pageURL) = inr page ->
    uniqueLinksInPage w page pageURL = None ->
    crawl_to pageURL depth st (Panic (sent st pageURL depth))
| crawl_links_error pageURL depth st page err :
    limiter_Wait w (waits st) = None ->
    client_Get w (URL_String pageURL) = inr page ->
    uniqueLinksInPage w page pageURL = Some (inl err) ->
    crawl_to pageURL depth st
             (Return (UNil, Some (Wrapf err (links_message pageURL)))
                     (sent st pageURL depth))
| crawl_links pageURL depth st page hrefs o :
    limiter_Wait w (waits st) = None ->
    client_Get w (URL_String pageURL) = inr page ->
    uniqueLinksInPage w page pageURL = Some (inr hrefs) ->
    each_to depth hrefs [] (sent st pageURL depth) o ->
    crawl_to pageURL depth st o
with each_to : Z -> list URL -> list (URL * URLTree) -> State
               -> outcome (URLTree * option error) -> Prop :=
| each_done depth tree st :
    each_to depth [] tree st (Return (UMap tree, None) st)
| each_panic depth href rest tree st :
    EnsureContains href (visited st) = None ->
    each_to depth (href :: rest) tree st (Panic st)
| each_visited depth href rest tree st v o :
    EnsureContains href (visited st) = Some (true, v) ->
    each_to depth rest (tree ++ [(href, UNil)]) (marked st v) o ->
    each_to depth (href :: rest) tree st o
| each_bounds depth href rest tree st v o :
    EnsureContains href (visited st) = Some (false, v) ->
    out_of_bounds href depth = true ->
    each_to depth rest (tree ++ [(href, UNil)]) (marked st v) o ->
    each_to depth (href :: rest) tree st o
| each_crawled depth href rest tree st v subTree st' o :
    EnsureContains href (visited st) = Some (false, v) ->
    out_of_bounds href depth = false ->
    crawl_to href (int_succ depth) (marked st v) (Return (subTree, None) st') ->
    each_to depth rest (tree ++ [(href, subTree)]) st' o ->
    each_to depth (href :: rest) tree st o
| each_failed depth href rest tree st v partial err st' :
    EnsureContains href (visited st) = Some (false, v) ->
    out_of_bounds href depth = false ->
    crawl_to href (int_succ depth) (marked st v) (Return (partial, Some err) st') ->
    each_to depth (href :: rest) tree st (Return (UNil, Some err) st')
| each_panicked depth href rest tree st v st' :
    EnsureContains href (visited st) = Some (false, v) ->
    out_of_bounds href depth = false ->
    crawl_to href (int_succ depth) (marked st v) (Panic st') ->
    each_to depth (href :: rest) tree st (Panic st').

(** *** Notions of the specification *)

(** the links of the page at [u], when it is fetched and parsed *)
Definition page_links (u : URL) (hrefs : list URL) : Prop :=
  exists page, client_Get w (URL_String u) = inr page
               /\ uniqueLinksInPage w page u = Some (inr hrefs).

(** [hops n u]: [u] is reached from the entrypoint by following [n]
    links *)
Inductive hops : nat -> URL -> Prop :=
| hops_root : hops 0 (root c)
| hops_link n u hrefs v :
    hops n u -> page_links u hrefs -> v ∈ hrefs -> hops (S n) v.

(** [u] is more than [maxDepth] hops from the entrypoint *)
Definition far (u : URL) : Prop :=
  forall n, hops n u -> (maxDepth c < Z.of_nat n)%Z.

(** every request went through and every page was parsed *)
Definition all_well (st : State) : Prop :=
  (forall n, (n < waits st)%nat -> limiter_Wait w n = None)
  /\ (forall u d, (u, d) ∈ fetched st ->
                  exists page doc, client_Get w (URL_String u) = inr page
                                   /\ html_Parse w page = inr doc).

End Crawl.

(** [occurs_at n u sub t]: the tree [t] has, [n] levels down, an entry for
    [u] with the sub tree [sub] *)
Inductive occurs_at : nat -> URL -> URLTree -> URLTree -> Prop :=
| occurs_here es u sub :
    (u, sub) ∈ es -> occurs_at 1 u sub (UMap es)
| occurs_below es v t n u sub :
    (v, t) ∈ es -> occurs_at n u sub t -> occurs_at (S n) u sub (UMap es).

(** the keys of the links of every node of [t] exist and differ from one
    another: the invariant of a link tree *)
Inductive keys_distinct : URLTree -> Prop :=
| keys_distinct_nil : keys_distinct UNil
| keys_distinct_map es keys :
    Forall2 (fun e k => withoutScheme (fst e) = Some k) es keys ->
    NoDup keys ->
    Forall (fun e => keys_distinct (snd e)) es ->
    keys_distinct (UMap es).

(** [reordered t t']: [t'] has the entries of [t], inserted in another
    order at any node *)
Inductive reordered : URLTree -> URLTree -> Prop :=
| reordered_nil : reordered UNil UNil
| reordered_map es es' es'' :
    Forall2 (fun e e' => fst e = fst e' /\ reordered (snd e) (snd e')) es es' ->
    es' ≡ₚ es'' ->
    reordered (UMap es) (UMap es'').

(** the hrefs of the anchors of a page that parse, resolved against the
    page, in document order *)
Fixpoint resolved_hrefs (pageURL : URL) (ns : list Node) : list URL :=
  match ns with
  | [] => []
  | n :: ns' =>
      match first_href (Attr_of n) with
      | Some val =>
          match parseToAbsURL val pageURL with
          | inr href => href :: resolved_hrefs pageURL ns'
          | inl _ => resolved_hrefs pageURL ns'
          end
      | None => resolved_hrefs pageURL ns'
      end
  end.

(** the first URL of a list with the key [k] *)
Fixpoint first_with_key (k : string) (us : list URL) : option URL :=
  match us with
  | [] => None
  | u :: us' =>
      if decide (withoutScheme u = Some k) then Some u else first_with_key k us'
  end.

End Definitions.

Scheme crawl_to_each := Minimality for crawl_to Sort Prop
  with each_to_crawl := Minimality for each_to Sort Prop.
Combined Scheme crawl_each_ind from crawl_to_each, each_to_crawl.

Arguments Return {A} a st.
Arguments Panic {A} st.
Arguments OutOfFuel {A}.

End Sequential.

(** * The concurrent crawler *)

Module Concurrent.
Section Definitions.
Context `{NetURL}.

(** [urlWithoutScheme]; [None] is the nil dereference of
    [clone.Scheme = ""] after a failed [url.Parse]. *)
Definition urlWithoutScheme (u : URL) : option string :=
  match Parse (URL_String u) with
  | Some clone => Some (URL_String (setScheme "" clone))
  | None => None
  end.

(** [LinkSet.EnsureContains]: one [sync.Map.LoadOrStore], which is atomic *)
Definition EnsureContains (url : string) (m : gset string) : bool * gset string :=
  if decide (url ∈ m) then (true, m) else (false, {[ url ]} ∪ m).

(** [u] and [v] are the same place for the set, on the keys the crawler
    passes to it *)
Definition same_identity (u v : URL) : Prop :=
  exists k1 k2, urlWithoutScheme u = Some k1 /\ urlWithoutScheme v = Some k2
                /\ fst (EnsureContains k2 (snd (EnsureContains k1 ∅))) = true.

(** Goroutines that share one [LinkSet] and call [EnsureContains] once
    each: the set, the callers that have not called yet (a name and the
    key each will pass), and the answers given so far. *)
Record Callers : Type := mkCallers {
  shared_set : gset string;
  waiting : list (nat * string);
  answered : list (nat * string * bool)
}.

(** any waiting caller may be the next whose [LoadOrStore] takes effect *)
Inductive call_step : Callers -> Callers -> Prop :=
| call_next m before id url after answers :
    call_step (mkCallers m (before ++ (id, url) :: after) answers)
              (mkCallers (snd (EnsureContains url m)) (before ++ after)
                         (answers ++ [(id, url, fst (EnsureContains url m))])).

(** the calls on key [url] that returned "did not exist" *)
Definition admissions (url : string) (answers : list (nat * string * bool))
  : list (nat * string * bool) :=
  filter (fun a => snd (fst a) = url /\ snd a = false) answers.

(** [LinkTree], a [map[string]LinkTree]: at most one entry for a key.
    [LNil] is the nil map. *)
Inductive LinkTree : Type :=
| LNil
| LMap (entries : list (string * LinkTree)).

Definition len (t : LinkTree) : nat :=
  match t with
  | LNil => 0
  | LMap es => length es
  end.

(** [tree[link] = sub] *)
Fixpoint assign (link : string) (sub : LinkTree) (es : list (string * LinkTree))
  : list (string * LinkTree) :=
  match es with
  | [] => [(link, sub)]
  | (k, v) :: es' =>
      if String.eqb link k then (link, sub) :: es'
      else (k, v) :: assign link sub es'
  end.

(** One entry of a tree being printed: the page, the length of its sub
    tree and the text of that sub tree. *)
Record row : Type := mkRow {
  row_page : string;
  row_len : nat;
  row_text : string
}.

Definition row_le (a b : row) : Prop := string_le (row_page a) (row_page b).

#[export] Instance row_le_dec a b : Decision (row_le a b).
Proof. unfold row_le. apply _. Defined.

(** [sort.Strings(pages)] *)
Definition sort_rows (rows : list row) : list row := merge_sort row_le rows.

Definition print_row (indent : nat) (r : row) : string :=
  Repeat "  " indent +:+ "- " +:+ row_page r
  +:+ (if (row_len r =? 0)%nat then newline
       else ":" +:+ newline +:+ row_text r).

Section Rows.
Variable text_of : LinkTree -> string.

Fixpoint rows_of (es : list (string * LinkTree)) : list row :=
  match es with
  | [] => []
  | (page, sub) :: es' => mkRow page (len sub) (text_of sub) :: rows_of es'
  end.

End Rows.

(** [LinkTree.string]; the text of each sub tree is computed before the
    rows are sorted. *)
Fixpoint string_ (t : LinkTree) (indent : nat) : string :=
  match t with
  | LNil => EmptyString
  | LMap es =>
      concat_strings
        (map (print_row indent)
             (sort_rows (rows_of (fun sub => string_ sub (S indent)) es)))
  end.

(** [LinkTree.String] *)
Definition LinkTree_String (t : LinkTree) : string := string_ t 0.

(** [NewCrawler], without the client and the limiter it builds *)
Definition NewCrawler (link : string) (maxDepth : Z) : error + Crawler :=
  match Parse link with
  | None => inl (Wrapf (ErrURL link) ("failed to parse " +:+ link))
  | Some root =>
      if String.eqb (Scheme root) ""
      then inl (ErrNew "you must specify an absolute URL")
      else inr (mkCrawler root maxDepth)
  end.

(** [Crawler.parseToAbsURL]: the base is [c.root] *)
Definition parseToAbsURL (c : Crawler) (link : string) : error + URL :=
  match Parse link with
  | None => inl (ErrURL link)
  | Some parsed =>
      let parsed := if String.eqb (Path parsed) "" then setPath "/" parsed else parsed in
      inr (ResolveReference (root c) parsed)
  end.

(** the closure passed to [walkLinks] in [findLinksInPage], as a loop
    over the attributes of [n]; the state is [links] and [seenOnPage] *)
Fixpoint visit_attrs (attrs : list Attribute) (st : list string * gset string)
  : option (list string * gset string) :=
  match attrs with
  | [] => Some st
  | attr :: rest =>
      if String.eqb (Key attr) "href" then
        match Parse (Val attr) with
        | None => Some st
        | Some href =>
            match urlWithoutScheme href with
            | None => None
            | Some key =>
                match EnsureContains key (snd st) with
                | (false, seen) => Some (fst st ++ [Val attr], seen)
                | (true, seen) => visit_attrs rest (fst st, seen)
                end
            end
        end
      else visit_attrs rest st
  end.

Definition visitLink (n : Node) (st : list string * gset string)
  : option (list string * gset string) :=
  visit_attrs (Attr_of n) st.

Definition links_of (doc : Node) : option (list string) :=
  match walkLinks doc visitLink ([], ∅) with
  | Some (links, _) => Some links
  | None => None
  end.

(** [Crawler.findLinksInPage]; the outer [None] is a panic *)
Definition findLinksInPage (w : World) (page : Body w) : option (error + list string) :=
  match html_Parse w page with
  | inl err => Some (inl (Wrapf err "error parsing page"))
  | inr doc =>
      match links_of doc with
      | Some links => Some (inr links)
      | None => None
      end
  end.

(** [result], as sent on a channel *)
Record result : Type := mkResult {
  link : string;
  tree : LinkTree;
  err : option error
}.

(** [Crawler.collectResults] on the results in the order in which the
    funnel delivers them, from the tree built so far *)
Fixpoint collect (tree0 : list (string * LinkTree)) (arrivals : list result)
  : LinkTree * option error :=
  match arrivals with
  | [] => (LMap tree0, None)
  | res :: later =>
      match err res with
      | Some e => (LNil, Some e)
      | None => collect (assign (link res) (tree res) tree0) later
      end
  end.

Definition collectResults (arrivals : list result) : LinkTree * option error :=
  collect [] arrivals.

(** What the goroutines share: the [visited] set, the limiter (the
    number of [Wait] calls made), the requests sent so far with the depth
    of the sending [crawl] call (kept for the statements), and whether a
    goroutine has panicked, which ends the process. *)
Record Shared : Type := mkShared {
  visited : gset string;
  waits : nat;
  fetched : list (URL * Z);
  crashed : bool
}.

Definition initial : Shared := mkShared ∅ 0 [] false.

(** A call of [crawl] in its goroutine.

    - [Pending u depth]: the goroutine is started, [crawl] has not yet
      reached its first statement;
    - [Collecting tree children]: [crawl] is in the loop of
      [collectResults]; [children] are the sub-crawls whose result it has
      not yet received, each with the [link] of its result;
    - [Done tree]: it returned [(tree, nil)];
    - [Failed err background]: it returned [(nil, err)]; [background]
      are the goroutines it started and no longer listens to. *)
Inductive task : Type :=
| Pending (u : URL) (depth : Z)
| Collecting (tree : list (string * LinkTree)) (children : list (string * task))
| Done (tree : LinkTree)
| Failed (err : error) (background : list task).

Section Crawl.
Variable c : Crawler.
Variable w : World.

(** the test that ends a crawl:
    [depth == c.maxDepth || u.Hostname() != c.root.Hostname()] *)
Definition out_of_bounds (u : URL) (depth : Z) : bool :=
  (depth =? maxDepth c)%Z
  || negb (String.eqb (Hostname u) (Hostname (root c))).

(** the loop of [crawl] that starts one goroutine per link; it stops at
    the first link that [parseToAbsURL] rejects and leaves the goroutines
    already started *)
Fixpoint spawn (links : list string) (depth : Z) (started : list (string * task))
  : ((error * list (string * task)) + (list (string * task)))%type :=
  match links with
  | [] => inr started
  | l :: rest =>
      match parseToAbsURL c l with
      | inl e => inl (Wrapf e ("error normalizing link " +:+ l), started)
      | inr url =>
          spawn rest depth (started ++ [(URL_String url, Pending url (int_succ depth))])
      end
  end.

(** [Crawler.crawl] from its first statement up to the call of
    [collectResults].  The visited set is read and written by the first
    statement only, and the limiter answers the calls of [Wait] in the
    order in which they arrive, so the whole stretch is taken as one
    step.  [None] is a panic. *)
Definition crawl_begin (u : URL) (depth : Z) (sh : Shared) : option (task * Shared) :=
  match urlWithoutScheme u with
  | None => None
  | Some key =>
      let '(existed, v) := EnsureContains key (visited sh) in
      let marked := mkShared v (waits sh) (fetched sh) (crashed sh) in
      if existed then Some (Done LNil, marked)
      else if out_of_bounds u depth then Some (Done LNil, marked)
      else
        match limiter_Wait w (waits sh) with
        | Some e =>
            Some (Failed (Wrapf e ("error while waiting to be allowed to crawl "
                                   +:+ URL_String u)) [],
                  mkShared v (S (waits sh)) (fetched sh) (crashed sh))
        | None =>
            let sent := mkShared v (S (waits sh)) (fetched sh ++ [(u, depth)])
                                 (crashed sh) in
            match client_Get w (URL_String u) with
            | inl e => Some (Failed (Wrapf e ("error fetching " +:+ URL_String u)) [], sent)
            | inr page =>
                match findLinksInPage w page with
                | None => None
                | Some (inl e) =>
                    Some (Failed (Wrapf e ("error finding links on " +:+ URL_String u)) [],
                          sent)
                | Some (inr links) =>
                    match spawn links depth [] with
                    | inl (e, started) => Some (Failed e (map snd started), sent)
                    | inr children => Some (Collecting [] children, sent)
                    end
                end
            end
        end
  end.

Definition crash (sh : Shared) : Shared :=
  mkShared (visited sh) (waits sh) (fetched sh) true.

(** One step of one goroutine of the crawl rooted at a task: a crawl
    begins; the loop of [collectResults] receives the result of a child
    that has returned, whichever the funnel delivers; the funnel closes its
    channel when no child is left; or a goroutine further down steps. *)
Inductive step : Shared * task -> Shared * task -> Prop :=
| step_begin u depth sh t sh' :
    crawl_begin u depth sh = Some (t, sh') ->
    step (sh, Pending u depth) (sh', t)
| step_panic u depth sh :
    crawl_begin u depth sh = None ->
    step (sh, Pending u depth) (crash sh, Pending u depth)
| step_receive sh tree before l sub after :
    step (sh, Collecting tree (before ++ (l, Done sub) :: after))
         (sh, Collecting (assign l sub tree) (before ++ after))
| step_receive_error sh tree before l e bg after :
    step (sh, Collecting tree (before ++ (l, Failed e bg) :: after))
         (sh, Failed e (map snd (before ++ after) ++ bg))
| step_closed sh tree :
    step (sh, Collecting tree []) (sh, Done (LMap tree))
| step_child sh tree before l t after sh' t' :
    step (sh, t) (sh', t') ->
    step (sh, Collecting tree (before ++ (l, t) :: after))
         (sh', Collecting tree (before ++ (l, t') :: after))
| step_background sh e before t after sh' t' :
    step (sh, t) (sh', t') ->
    step (sh, Failed e (before ++ t :: after))
         (sh', Failed e (before ++ t' :: after)).

(** a step of the process: no goroutine runs after a panic *)
Definition process_step (a b : Shared * task) : Prop :=
  crashed (fst a) = false /\ step a b.

Definition steps : Shared * task -> Shared * task -> Prop := rtc process_step.

(** the URL [Run] passes to [crawl], or the error it returns at once *)
Definition Run_start : error + URL :=
  match parseToAbsURL c (URL_String (root c)) with
  | inl e => inl (Wrapf e ("error normalizing link " +:+ URL_String (root c)))
  | inr url => inr url
  end.

(** what a call of [crawl] has returned, once it has *)
Definition returned (t : task) : option (LinkTree * option error) :=
  match t with
  | Done tree => Some (tree, None)
  | Failed e _ => Some (LNil, Some e)
  | _ => None
  end.

(** [Runs r]: [Crawler.Run] can return [r] *)
Definition Runs (r : LinkTree * option error) : Prop :=
  match Run_start with
  | inl e => r = (LNil, Some e)
  | inr url =>
      exists sh t, steps (initial, Pending url 0) (sh, t) /\ returned t = Some r
  end.

(** *** Notions of the specification *)

(** the links of the page at [u], when it is fetched and parsed *)
Definition page_links (u : URL) (links : list string) : Prop :=
  exists page, client_Get w (URL_String u) = inr page
               /\ findLinksInPage w page = Some (inr links).

(** [hops url n u]: [u] is reached from [url], the URL [Run] starts at, by
    following [n] links *)
Inductive hops (url : URL) : nat -> URL -> Prop :=
| hops_root : hops url 0 url
| hops_link n u links l v :
    hops url n u -> page_links u links -> l ∈ links -> parseToAbsURL c l = inr v ->
    hops url (S n) v.

(** the page printed as [key] is more than [maxDepth] hops away *)
Definition far (url : URL) (key : string) : Prop :=
  forall n u, hops url n u -> URL_String u = key -> (maxDepth c < Z.of_nat n)%Z.

(** every request went through and every page was parsed *)
Definition all_well (sh : Shared) : Prop :=
  (forall n, (n < waits sh)%nat -> limiter_Wait w n = None)
  /\ (forall u d, (u, d) ∈ fetched sh ->
                  exists page doc, client_Get w (URL_String u) = inr page
                                   /\ html_Parse w page = inr doc).

End Crawl.

(** [occurs_at n key sub t]: the tree [t] has, [n] levels down, an entry
    [key] with the sub tree [sub] *)
Inductive occurs_at : nat -> string -> LinkTree -> LinkTree -> Prop :=
| occurs_here es key sub :
    (key, sub) ∈ es -> occurs_at 1 key sub (LMap es)
| occurs_below es k t n key sub :
    (k, t) ∈ es -> occurs_at n key sub t -> occurs_at (S n) key sub (LMap es).

(** the links of every node of [t] differ from one another, as the keys
    of a Go map do *)
Inductive pages_distinct : LinkTree -> Prop :=
| pages_distinct_nil : pages_distinct LNil
| pages_distinct_map es :
    NoDup (map fst es) ->
    Forall (fun e => pages_distinct (snd e)) es ->
    pages_distinct (LMap es).

(** [reordered t t']: [t'] has the entries of [t], inserted in another
    order at any node *)
Inductive reordered : LinkTree -> LinkTree -> Prop :=
| reordered_nil : reordered LNil LNil
| reordered_map es es' es'' :
    Forall2 (fun e e' => fst e = fst e' /\ reordered (snd e) (snd e')) es es' ->
    es' ≡ₚ es'' ->
    reordered (LMap es) (LMap es'').

(** [lost t]: the call [t] has failed, or waits for a call that is lost *)
Inductive lost : task -> Prop :=
| lost_failed e bg : lost (Failed e bg)
| lost_child tree children l t :
    (l, t) ∈ children -> lost t -> lost (Collecting tree children).

(** [pending P t]: every crawl in [t] that has not begun satisfies [P] *)
Inductive pending (P : URL -> Z -> Prop) : task -> Prop :=
| pending_one u depth : P u depth -> pending P (Pending u depth)
| pending_collecting tree children :
    Forall (fun child => pending P (snd child)) children ->
    pending P (Collecting tree children)
| pending_done tree : pending P (Done tree)
| pending_failed e bg : Forall (pending P) bg -> pending P (Failed e bg).

End Definitions.
End Concurrent.

(** * Invariants and schedules *)

Section ConcurrentInvariants.
Context `{NetURL}.
Variable c : Crawler.
Variable w : World.

(** the goroutines [crawl] starts for the links of a page *)
Definition children_of (depth : Z) (urls : list URL) : list (string * Concurrent.task) :=
  map (fun url => (URL_String url, Concurrent.Pending url (int_succ depth))) urls.

(** The ways [crawl] reaches [collectResults] or returns before it. *)
Inductive begun (u : URL) (depth : Z) (sh : Concurrent.Shared)
  : Concurrent.task -> Concurrent.Shared -> Prop :=
| begun_visited k :
    Concurrent.urlWithoutScheme u = Some k -> k ∈ Concurrent.visited sh ->
    begun u depth sh (Concurrent.Done Concurrent.LNil)
          (Concurrent.mkShared (Concurrent.visited sh) (Concurrent.waits sh)
                               (Concurrent.fetched sh) (Concurrent.crashed sh))
| begun_bounds k :
    Concurrent.urlWithoutScheme u = Some k -> k ∉ Concurrent.visited sh ->
    Concurrent.out_of_bounds c u depth = true ->
    begun u depth sh (Concurrent.Done Concurrent.LNil)
          (Concurrent.mkShared ({[ k ]} ∪ Concurrent.visited sh) (Concurrent.waits sh)
                               (Concurrent.fetched sh) (Concurrent.crashed sh))
| begun_wait_error k e msg :
    Concurrent.urlWithoutScheme u = Some k -> k ∉ Concurrent.visited sh ->
    Concurrent.out_of_bounds c u depth = false ->
    limiter_Wait w (Concurrent.waits sh) = Some e ->
    begun u depth sh (Concurrent.Failed (Wrapf e msg) [])
          (Concurrent.mkShared ({[ k ]} ∪ Concurrent.visited sh) (S (Concurrent.waits sh))
                               (Concurrent.fetched sh) (Concurrent.crashed sh))
| begun_get_error k e msg :
    Concurrent.urlWithoutScheme u = Some k -> k ∉ Concurrent.visited sh ->
    Concurrent.out_of_bounds c u depth = false ->
    limiter_Wait w (Concurrent.waits sh) = None ->
    client_Get w (URL_String u) = inl e ->
    begun u depth sh (Concurrent.Failed (Wrapf e msg) [])
          (Concurrent.mkShared ({[ k ]} ∪ Concurrent.visited sh) (S (Concurrent.waits sh))
                               (Concurrent.fetched sh ++ [(u, depth)])
                               (Concurrent.crashed sh))
| begun_links_error k page e msg :
    Concurrent.urlWithoutScheme u = Some k -> k ∉ Concurrent.visited sh ->
    Concurrent.out_of_bounds c u depth = false ->
    limiter_Wait w (Concurrent.waits sh) = None ->
    client_Get w (URL_String u) = inr page ->
    Concurrent.findLinksInPage w page = Some (inl e) ->
    begun u depth sh (Concurrent.Failed (Wrapf e msg) [])
          (Concurrent.mkShared ({[ k ]} ∪ Concurrent.visited sh) (S (Concurrent.waits sh))
                               (Concurrent.fetched sh ++ [(u, depth)])
                               (Concurrent.crashed sh))
| begun_collecting k page links urls :
    Concurrent.urlWithoutScheme u = Some k -> k ∉ Concurrent.visited sh ->
    Concurrent.out_of_bounds c u depth = false ->
    limiter_Wait w (Concurrent.waits sh) = None ->
    client_Get w (URL_String u) = inr page ->
    Concurrent.findLinksInPage w page = Some (inr links) ->
    Forall2 (fun l url => Concurrent.parseToAbsURL c l = inr url) links urls ->
    begun u depth sh (Concurrent.Collecting [] (children_of depth urls))
          (Concurrent.mkShared ({[ k ]} ∪ Concurrent.visited sh) (S (Concurrent.waits sh))
                               (Concurrent.fetched sh ++ [(u, depth)])
                               (Concurrent.crashed sh)).

(** the page printed as [key] has been requested *)
Definition requested (sh : Concurrent.Shared) (key : string) : Prop :=
  exists u d, (u, d) ∈ Concurrent.fetched sh /\ URL_String u = key.

(** every entry of the tree that has a sub tree has been requested *)
Definition tree_requested (sh : Concurrent.Shared) (t : Concurrent.LinkTree) : Prop :=
  forall n key sub, Concurrent.occurs_at n key sub t -> sub <> Concurrent.LNil ->
                    requested sh key.

(** the link under which the result of a call will be stored is the URL
    the call is for *)
Definition label_ok (sh : Concurrent.Shared) (l : string) (t : Concurrent.task) : Prop :=
  match t with
  | Concurrent.Pending u _ => l = URL_String u
  | Concurrent.Collecting _ _ => requested sh l
  | Concurrent.Done tree => tree <> Concurrent.LNil -> requested sh l
  | Concurrent.Failed _ _ => True
  end.

(** the trees built so far hold sub trees of requested pages only *)
Inductive sound (sh : Concurrent.Shared) : Concurrent.task -> Prop :=
| sound_pending u depth : sound sh (Concurrent.Pending u depth)
| sound_collecting tree children :
    tree_requested sh (Concurrent.LMap tree) ->
    Forall (fun child => sound sh (snd child) /\ label_ok sh (fst child) (snd child))
           children ->
    sound sh (Concurrent.Collecting tree children)
| sound_done tree : tree_requested sh tree -> sound sh (Concurrent.Done tree)
| sound_failed e bg : Forall (sound sh) bg -> sound sh (Concurrent.Failed e bg).

(** what the call [Run] makes is doing, for the links of the root page *)
Definition root_state (url : URL) (st : Concurrent.Shared * Concurrent.task) : Prop :=
  (snd st = Concurrent.Pending url 0 /\ Concurrent.visited (fst st) = ∅)
  \/ (exists tree children links,
         snd st = Concurrent.Collecting tree children
         /\ Concurrent.page_links w url links
         /\ (links = [] <-> tree = [] /\ children = []))
  \/ (exists es links,
         snd st = Concurrent.Done (Concurrent.LMap es)
         /\ Concurrent.page_links w url links
         /\ (links = [] <-> es = []))
  \/ (exists e bg, snd st = Concurrent.Failed e bg).

(** *** Schedules *)

(** which goroutine moves: the call itself begins, receives from its
    [i]-th child or finds the channel closed, or its [i]-th child or
    background goroutine moves *)
Inductive move : Type :=
| Begin
| Receive (i : nat)
| Close
| Into (i : nat) (m : move).

Fixpoint step_at (m : move) (sh : Concurrent.Shared) (t : Concurrent.task)
  : option (Concurrent.Shared * Concurrent.task) :=
  match m, t with
  | Begin, Concurrent.Pending u depth =>
      match Concurrent.crawl_begin c w u depth sh with
      | Some (t', sh') => Some (sh', t')
      | None => Some (Concurrent.crash sh, t)
      end
  | Receive i, Concurrent.Collecting tree children =>
      match children !! i with
      | Some (l, Concurrent.Done sub) =>
          Some (sh, Concurrent.Collecting (Concurrent.assign l sub tree)
                                          (take i children ++ drop (S i) children))
      | Some (l, Concurrent.Failed e bg) =>
          Some (sh, Concurrent.Failed e
                      (map snd (take i children ++ drop (S i) children) ++ bg))
      | _ => None
      end
  | Close, Concurrent.Collecting tree [] => Some (sh, Concurrent.Done (Concurrent.LMap tree))
  | Into i m', Concurrent.Collecting tree children =>
      match children !! i with
      | Some (l, t0) =>
          match step_at m' sh t0 with
          | Some (sh', t') =>
              Some (sh', Concurrent.Collecting tree
                           (take i children ++ (l, t') :: drop (S i) children))
          | None => None
          end
      | None => None
      end
  | Into i m', Concurrent.Failed e bg =>
      match bg !! i with
      | Some t0 =>
          match step_at m' sh t0 with
          | Some (sh', t') =>
              Some (sh', Concurrent.Failed e (take i bg ++ t' :: drop (S i) bg))
          | None => None
          end
      | None => None
      end
  | _, _ => None
  end.

(** the moves of a schedule one after the other, as long as the process
    has not crashed *)
Fixpoint run_moves (ms : list move) (st : Concurrent.Shared * Concurrent.task)
  : option (Concurrent.Shared * Concurrent.task) :=
  match ms with
  | [] => Some st
  | m :: ms' =>
      if Concurrent.crashed (fst st) then None
      else
        match step_at m (fst st) (snd st) with
        | Some st' => run_moves ms' st'
        | None => None
        end
  end.

End ConcurrentInvariants.

Section DepthInvariants.
Context `{NetURL}.
Variable c : Crawler.
Variable w : World.
Variable url : URL.

(** a crawl that has not begun is within the bound, for a page as many
    hops away as its depth *)
Definition depth_ok (u : URL) (d : Z) : Prop :=
  (0 <= d <= maxDepth c)%Z /\ Concurrent.hops c w url (Z.to_nat d) u.

(** every request was sent within the bound, to a page as many hops away
    as the depth of the request *)
Definition requests_ok (sh : Concurrent.Shared) : Prop :=
  forall u d, (u, d) ∈ Concurrent.fetched sh ->
              (0 <= d < maxDepth c)%Z /\ Concurrent.hops c w url (Z.to_nat d) u.

End DepthInvariants.

(** induction on a call with the hypothesis for each call below it *)
Definition task_children_ind (P : Concurrent.task -> Prop)
  (Hpending : forall u depth, P (Concurrent.Pending u depth))
  (Hcollecting : forall tree children,
      Forall (fun child => P (snd child)) children ->
      P (Concurrent.Collecting tree children))
  (Hdone : forall tree, P (Concurrent.Done tree))
  (Hfailed : forall e bg, Forall P bg -> P (Concurrent.Failed e bg))
  : forall t, P t :=
  fix go (t : Concurrent.task) : P t :=
    match t with
    | Concurrent.Pending u depth => Hpending u depth
    | Concurrent.Collecting tree children =>
        Hcollecting tree children
          ((fix all (cs : list (string * Concurrent.task))
              : Forall (fun child => P (snd child)) cs :=
              match cs with
              | [] => @List.Forall_nil _ _
              | ch :: cs' => @List.Forall_cons _ _ ch cs' (go (snd ch)) (all cs')
              end) children)
    | Concurrent.Done tree => Hdone tree
    | Concurrent.Failed e bg =>
        Hfailed e bg
          ((fix all (ts : list Concurrent.task) : Forall P ts :=
              match ts with
              | [] => @List.Forall_nil _ _
              | t0 :: ts' => @List.Forall_cons _ _ t0 ts' (go t0) (all ts')
              end) bg)
    end.

(** ** Induction on the nested trees *)

(** induction on a node with the hypothesis for each of its children *)
Definition Node_children_ind (P : Node -> Prop)
  (step : forall ty data attr cs, Forall P cs -> P (mkNode ty data attr cs))
  : forall n, P n :=
  fix go (n : Node) : P n :=
    match n with
    | mkNode ty data attr cs =>
        step ty data attr cs
             ((fix all (cs : list Node) : Forall P cs :=
                 match cs with
                 | [] => @List.Forall_nil _ P
                 | c :: cs' => @List.Forall_cons _ P c cs' (go c) (all cs')
                 end) cs)
    end.

(** induction on a tree with the hypothesis for each sub tree *)
Definition URLTree_entries_ind (P : Sequential.URLTree -> Prop)
  (Hnil : P Sequential.UNil)
  (Hmap : forall es, Forall (fun e => P (snd e)) es -> P (Sequential.UMap es))
  : forall t, P t :=
  fix go (t : Sequential.URLTree) : P t :=
    match t with
    | Sequential.UNil => Hnil
    | Sequential.UMap es =>
        Hmap es
             ((fix all (es : list (URL * Sequential.URLTree))
                 : Forall (fun e => P (snd e)) es :=
                 match es with
                 | [] => @List.Forall_nil _ _
                 | e :: es' => @List.Forall_cons _ _ e es' (go (snd e)) (all es')
                 end) es)
    end.

Definition LinkTree_entries_ind (P : Concurrent.LinkTree -> Prop)
  (Hnil : P Concurrent.LNil)
  (Hmap : forall es, Forall (fun e => P (snd e)) es -> P (Concurrent.LMap es))
  : forall t, P t :=
  fix go (t : Concurrent.LinkTree) : P t :=
    match t with
    | Concurrent.LNil => Hnil
    | Concurrent.LMap es =>
        Hmap es
             ((fix all (es : list (string * Concurrent.LinkTree))
                 : Forall (fun e => P (snd e)) es :=
                 match es with
                 | [] => @List.Forall_nil _ _
                 | e :: es' => @List.Forall_cons _ _ e es' (go (snd e)) (all es')
                 end) es)
    end.

(** ** Invariants of the sets and of the logs *)

(** what holds of the callers of a [LinkSet] at any moment: the keys in
    the set are the keys that were passed, and each was admitted once *)
Definition callers_inv (callers : list (nat * string)) (cs : Concurrent.Callers) : Prop :=
  map fst (Concurrent.answered cs) ++ Concurrent.waiting cs ≡ₚ callers
  /\ forall url,
      (url ∈ Concurrent.shared_set cs ->
       exists id, Concurrent.admissions url (Concurrent.answered cs) = [(id, url, false)])
      /\ (url ∉ Concurrent.shared_set cs ->
          url ∉ map snd (map fst (Concurrent.answered cs))).

Section StateInvariants.
Context `{NetURL}.

(** what holds of [links] and [seenOnPage] after the anchors with the
    resolved hrefs [P] have been visited *)
Definition seq_page_inv (P : list URL) (st : list URL * gset string) : Prop :=
  (exists keys, Forall2 (fun x k => Sequential.withoutScheme x = Some k) (fst st) keys
                /\ NoDup keys /\ forall k, k ∈ snd st <-> k ∈ keys)
  /\ forall k, Sequential.first_with_key k (fst st) = Sequential.first_with_key k P.

(** what holds of [links] and [seenOnPage] in [findLinksInPage]: the
    links parse, and their keys differ from one another *)
Definition conc_page_inv (st : list string * gset string) : Prop :=
  exists keys,
    Forall2 (fun l k => exists u, Parse l = Some u
                                  /\ Concurrent.urlWithoutScheme u = Some k) (fst st) keys
    /\ NoDup keys /\ forall k, k ∈ snd st <-> k ∈ keys.

(** the state only grows: [new] are the requests sent in between *)
Definition grows (st st' : Sequential.State) (new : list (URL * Z)) : Prop :=
  Sequential.visited st ⊆ Sequential.visited st'
  /\ (Sequential.waits st <= Sequential.waits st')%nat
  /\ Sequential.fetched st' = Sequential.fetched st ++ new.

(** a step leaves the log as it is, or adds one request, for a URL whose
    key was not in the visited set and now is *)
Definition step_grows (sh sh' : Concurrent.Shared) : Prop :=
  Concurrent.visited sh ⊆ Concurrent.visited sh'
  /\ (Concurrent.waits sh <= Concurrent.waits sh')%nat
  /\ (Concurrent.fetched sh' = Concurrent.fetched sh
      \/ exists u d k,
          Concurrent.fetched sh' = Concurrent.fetched sh ++ [(u, d)]
          /\ Concurrent.urlWithoutScheme u = Some k
          /\ (k ∉ Concurrent.visited sh) /\ (k ∈ Concurrent.visited sh')).

End StateInvariants.

(** * Pages to run the crawlers on *)

Module Examples.

(** an [<a>] element with one href *)
Definition anchor (href : string) : Node :=
  mkNode ElementNode "a" [mkAttr "href" href] [mkNode TextNode href [] []].

(** a document whose body holds the given nodes *)
Definition document (body : list Node) : Node :=
  mkNode DocumentNode "" []
         [mkNode ElementNode "html" []
                 [mkNode ElementNode "head" [] []; mkNode ElementNode "body" [] body]].

Definition page_of (hrefs : list string) : Node := document (map anchor hrefs).

(** the hrefs of the page a site serves at a URL; a URL without a route
    gets a page without links *)
Fixpoint route (routes : list (string * list string)) (u : string) : list string :=
  match routes with
  | [] => []
  | (at_url, hrefs) :: rest => if String.eqb at_url u then hrefs else route rest u
  end.

(** a site that answers every request and never makes the limiter fail;
    the body of a page is its document *)
Definition site (routes : list (string * list string)) : World :=
  mkWorld Node (fun _ => None) (fun u => inr (page_of (route routes u)))
          (fun page => inr page).

(** a site whose server fails for one URL *)
Definition site_failing_at (bad : string) (routes : list (string * list string)) : World :=
  mkWorld Node (fun _ => None)
          (fun u => if String.eqb u bad then inl (ErrExternal 0)
                    else inr (page_of (route routes u)))
          (fun page => inr page).

Definition url_of (s : string) : URL :=
  match GoURL.Parse s with
  | Some u => u
  | None => mkURL "" "" "" "" false false "" ""
  end.

(** [/] links to [/a], which links to [/b], which links to [/c] *)
Definition chain : World :=
  site [("http://h/", ["/a"]); ("http://h/a", ["/b"]); ("http://h/b", ["/c"])].

(** [/] links to [http://x/p] and to [/b]; [/b] links to [https://x/p] *)
Definition two_schemes : World :=
  site [("http://h/", ["http://x/p"; "/b"]); ("http://h/b", ["https://x/p"])].

(** [/foo/bar] links to [baz] *)
Definition relative : World :=
  site [("http://h/", ["/foo/bar"]); ("http://h/foo/bar", ["baz"])].


(** an anchor with two href attributes, after an anchor with the first of
    them *)
Definition two_hrefs : Node :=
  document [anchor "/a";
            mkNode ElementNode "a" [mkAttr "href" "/a"; mkAttr "href" "/b"] []].

Definition crawler (maxDepth : Z) : Crawler := mkCrawler (url_of "http://h/") maxDepth.

End Examples.

(** * Further notions: request logs, trees and texts *)

Section Expanded.
Variable expand : Sequential.URLTree -> list (URL * Z).
Variable depth : Z.

(** the entries of a node that have a sub tree, each followed by the
    expanded entries of its sub tree *)
Fixpoint expanded_entries (es : list (URL * Sequential.URLTree)) : list (URL * Z) :=
  match es with
  | [] => []
  | (u, sub) :: es' =>
      match sub with
      | Sequential.UNil => expanded_entries es'
      | Sequential.UMap _ => (u, depth) :: expand sub ++ expanded_entries es'
      end
  end.

End Expanded.

(** [expanded t depth]: the entries of [t] that have a sub tree, as a
    depth-first walk of [t] meets them, each with its level, where the
    entries of [t] itself are at level [depth] *)
Fixpoint expanded (t : Sequential.URLTree) (depth : Z) : list (URL * Z) :=
  match t with
  | Sequential.UNil => []
  | Sequential.UMap es =>
      expanded_entries (fun sub => expanded sub (int_succ depth)) depth es
  end.

Section LogNotions.
Context `{NetURL}.

(** the identity keys of the requests of a log, one for one *)
Definition seq_log_keys (log : list (URL * Z)) (keys : list string) : Prop :=
  Forall2 (fun r k => Sequential.withoutScheme (fst r) = Some k) log keys.

(** the requests sent so far are for different keys, all of them in the
    visited set *)
Definition seq_log_inv (st : Sequential.State) : Prop :=
  exists keys, seq_log_keys (Sequential.fetched st) keys
               /\ NoDup keys /\ forall k, k ∈ keys -> k ∈ Sequential.visited st.

Definition conc_log_keys (log : list (URL * Z)) (keys : list string) : Prop :=
  Forall2 (fun r k => Concurrent.urlWithoutScheme (fst r) = Some k) log keys.

Definition conc_log_inv (sh : Concurrent.Shared) : Prop :=
  exists keys, conc_log_keys (Concurrent.fetched sh) keys
               /\ NoDup keys /\ forall k, k ∈ keys -> k ∈ Concurrent.visited sh.

(** every request of a log went to the host of the root *)
Definition on_host (c : Crawler) (log : list (URL * Z)) : Prop :=
  forall u d, (u, d) ∈ log -> Hostname u = Hostname (root c).

End LogNotions.

Section Failures.
Context `{NetURL}.
Variable w : World.

(** [seq_failure e st]: [e] is what went wrong last in a depth-first run
    that is now in the state [st], wrapped with the URL of the page
    concerned: the last call of [Wait] failed, or the last request failed,
    or the page of the last request did not parse *)
Definition seq_failure (e : error) (st : Sequential.State) : Prop :=
  (exists u cause,
      (0 < Sequential.waits st)%nat
      /\ limiter_Wait w (pred (Sequential.waits st)) = Some cause
      /\ e = Wrapf cause (Sequential.wait_message u))
  \/ (exists log u d cause,
         Sequential.fetched st = log ++ [(u, d)]
         /\ client_Get w (URL_String u) = inl cause
         /\ e = Wrapf cause (Sequential.fetch_message u))
  \/ (exists log u d page cause,
         Sequential.fetched st = log ++ [(u, d)]
         /\ client_Get w (URL_String u) = inr page
         /\ html_Parse w page = inl cause
         /\ e = Wrapf (Wrapf cause "error parsing page") (Sequential.links_message u)).

End Failures.

(** the number of line ends in a text *)
Fixpoint count_lines (s : string) : nat :=
  match s with
  | EmptyString => 0
  | String a s' => (if Ascii.eqb a (ascii_of_nat 10) then 1 else 0) + count_lines s'
  end.

Section Links.
Variable links_below : Sequential.URLTree -> list URL.

Fixpoint entries_links (es : list (URL * Sequential.URLTree)) : list URL :=
  match es with
  | [] => []
  | (u, sub) :: es' => u :: links_below sub ++ entries_links es'
  end.

End Links.

(** all links of a tree, those of the sub trees included *)
Fixpoint tree_links (t : Sequential.URLTree) : list URL :=
  match t with
  | Sequential.UNil => []
  | Sequential.UMap es => entries_links tree_links es
  end.

Section Pages.
Variable pages_below : Concurrent.LinkTree -> list string.

Fixpoint entries_pages (es : list (string * Concurrent.LinkTree)) : list string :=
  match es with
  | [] => []
  | (page, sub) :: es' => page :: pages_below sub ++ entries_pages es'
  end.

End Pages.

(** all pages of a tree, those of the sub trees included *)
Fixpoint tree_pages (t : Concurrent.LinkTree) : list string :=
  match t with
  | Concurrent.LNil => []
  | Concurrent.LMap es => entries_pages tree_pages es
  end.

(** the Go map that holds the results in [arrivals], stored one after the
    other into [m] *)
Definition stored (m : gmap string Concurrent.LinkTree) (arrivals : list Concurrent.result)
  : gmap string Concurrent.LinkTree :=
  foldl (fun m r => <[Concurrent.link r := Concurrent.tree r]> m) m arrivals.

Section FirstLinks.
Context `{NetURL}.


End FirstLinks.

Section Listed.
Context `{NetURL}.
Variable c : Crawler.
Variable w : World.

(** [lists_page key keys]: [key] is the text of a URL whose page was
    fetched and parsed, and [keys] are the texts of the links of that
    page, resolved by [Crawler.parseToAbsURL], all of them and no other *)
Definition lists_page (key : string) (keys : list string) : Prop :=
  exists page links,
    client_Get w key = inr page
    /\ Concurrent.findLinksInPage w page = Some (inr links)
    /\ (forall l, l ∈ keys ->
                  exists link url, link ∈ links
                                   /\ Concurrent.parseToAbsURL c link = inr url
                                   /\ URL_String url = l)
    /\ forall link, link ∈ links ->
                    exists url, Concurrent.parseToAbsURL c link = inr url
                                /\ URL_String url ∈ keys.

(** every node of the tree lists the links of its page *)
Definition tree_listed (t : Concurrent.LinkTree) : Prop :=
  forall n key es, Concurrent.occurs_at n key (Concurrent.LMap es) t ->
                   lists_page key (map fst es).

(** [listed l t]: the call [t], whose result is stored under [l], is the
    crawl of the URL printed as [l]; what it has collected and what it
    still waits for are the links of that page; and so on below *)
Inductive listed : string -> Concurrent.task -> Prop :=
| listed_pending u depth : listed (URL_String u) (Concurrent.Pending u depth)
| listed_collecting l tree children :
    lists_page l (map fst tree ++ map fst children) ->
    tree_listed (Concurrent.LMap tree) ->
    Forall (fun child => listed (fst child) (snd child)) children ->
    listed l (Concurrent.Collecting tree children)
| listed_done_nil l : listed l (Concurrent.Done Concurrent.LNil)
| listed_done l es :
    lists_page l (map fst es) -> tree_listed (Concurrent.LMap es) ->
    listed l (Concurrent.Done (Concurrent.LMap es))
| listed_failed l e bg :
    Forall (fun t => exists l', listed l' t) bg -> listed l (Concurrent.Failed e bg).

End Listed.

(** * Properties *)

Ltac conj_split := repeat match goal with |- _ /\ _ => split end.

(** ** The order of Go strings *)

Lemma ascii_compare_refl (a : ascii) : Ascii.compare a a = Eq.
Proof. unfold Ascii.compare. apply N.compare_refl. Qed.

Lemma ascii_compare_trans (a b c : ascii) :
  Ascii.compare a b = Lt -> Ascii.compare b c = Lt -> Ascii.compare a c = Lt.
Proof.
  unfold Ascii.compare. rewrite !N.compare_lt_iff. lia.
Qed.

Lemma string_compare_refl (s : string) : String.compare s s = Eq.
Proof.
  induction s as [|a s IH]; simpl; [reflexivity|].
  rewrite ascii_compare_refl. exact IH.
Qed.

Lemma string_compare_trans (s1 s2 s3 : string) :
  String.compare s1 s2 = Lt -> String.compare s2 s3 = Lt -> String.compare s1 s3 = Lt.
Proof.
  revert s2 s3. induction s1 as [|a s1 IH]; intros [|b s2] [|c s3]; simpl;
    try discriminate; try reflexivity.
  destruct (Ascii.compare a b) eqn:Eab; try discriminate;
    destruct (Ascii.compare b c) eqn:Ebc; try discriminate; intros H12 H23.
  - apply Ascii.compare_eq_iff in Eab, Ebc. subst.
    rewrite ascii_compare_refl. eauto.
  - apply Ascii.compare_eq_iff in Eab. subst. rewrite Ebc. reflexivity.
  - apply Ascii.compare_eq_iff in Ebc. subst. rewrite Eab. reflexivity.
  - rewrite (ascii_compare_trans _ _ _ Eab Ebc). reflexivity.
Qed.

Lemma string_le_spec (a b : string) : string_le a b <-> String.compare a b <> Gt.
Proof.
  unfold string_le, String.ltb. rewrite (String.compare_antisym b a).
  destruct (String.compare a b); simpl; split; congruence.
Qed.

#[export] Instance string_le_refl : Reflexive string_le.
Proof. intros s. apply string_le_spec. rewrite string_compare_refl. discriminate. Qed.

#[export] Instance string_le_total : Total string_le.
Proof.
  intros a b. rewrite !string_le_spec, (String.compare_antisym b a).
  destruct (String.compare a b); simpl; [left|left|right]; discriminate.
Qed.

#[export] Instance string_le_trans : Transitive string_le.
Proof.
  intros a b c. rewrite !string_le_spec. intros Hab Hbc.
  destruct (String.compare a b) eqn:Eab; [| |congruence].
  - apply String.compare_eq_iff in Eab. subst. exact Hbc.
  - destruct (String.compare b c) eqn:Ebc; [| |congruence].
    + apply String.compare_eq_iff in Ebc. subst. rewrite Eab. discriminate.
    + rewrite (string_compare_trans _ _ _ Eab Ebc). discriminate.
Qed.

#[export] Instance string_le_antisym : AntiSymm (=) string_le.
Proof.
  intros a b. rewrite !string_le_spec, (String.compare_antisym b a).
  destruct (String.compare a b) eqn:E; simpl; try congruence.
  intros _ _. apply String.compare_eq_iff. exact E.
Qed.

(** ** Walking a document *)

Lemma visit_each_app {S : Type} (visit : Node -> S -> option S) (l1 l2 : list Node) (s : S) :
  visit_each visit (l1 ++ l2) s =
  match visit_each visit l1 s with
  | Some s' => visit_each visit l2 s'
  | None => None
  end.
Proof.
  revert s. induction l1 as [|n l1 IH]; intros s; simpl; [reflexivity|].
  destruct (visit n s); [apply IH|reflexivity].
Qed.

(** [walkLinks] visits the anchors of the document one after the other. *)
Lemma walkLinks_anchors {S : Type} (visit : Node -> S -> option S) (n : Node) :
  forall s, walkLinks n visit s = visit_each visit (anchors n) s.
Proof.
  induction n as [ty data attr cs IH] using Node_children_ind. intros s. simpl.
  destruct (is_anchor ty data).
  - simpl. destruct (visit _ s); reflexivity.
  - revert s. induction IH as [|c cs Hc _ IHcs]; intros s; simpl; [reflexivity|].
    rewrite visit_each_app, <- Hc.
    destruct (walkLinks c visit s); [apply IHcs|reflexivity].
Qed.

(** ** Identity of URLs and the visited set *)

Section Identity.
Context `{NetURL}.

Lemma seq_EnsureContains_fresh (u : URL) (s : gset string) (k : string) :
  Sequential.withoutScheme u = Some k -> k ∉ s ->
  Sequential.EnsureContains u s = Some (false, {[ k ]} ∪ s).
Proof.
  intros Hk Hs. unfold Sequential.EnsureContains. rewrite Hk.
  destruct (decide (k ∈ s)); [contradiction|reflexivity].
Qed.

Lemma seq_EnsureContains_known (u : URL) (s : gset string) (k : string) :
  Sequential.withoutScheme u = Some k -> k ∈ s ->
  Sequential.EnsureContains u s = Some (true, s).
Proof.
  intros Hk Hs. unfold Sequential.EnsureContains. rewrite Hk.
  destruct (decide (k ∈ s)); [reflexivity|contradiction].
Qed.

Lemma seq_EnsureContains_inv (u : URL) (s s' : gset string) (existed : bool) :
  Sequential.EnsureContains u s = Some (existed, s') ->
  exists k, Sequential.withoutScheme u = Some k
            /\ (existed = true <-> k ∈ s) /\ s' = {[ k ]} ∪ s.
Proof.
  unfold Sequential.EnsureContains.
  destruct (Sequential.withoutScheme u) as [k|]; [|discriminate].
  destruct (decide (k ∈ s)) as [Hin|Hout]; intros Heq; inversion Heq; subst;
    exists k; repeat split; try tauto; try discriminate.
  set_solver.
Qed.

Lemma seq_same_identity_keys (u v : URL) :
  Sequential.same_identity u v <->
  exists k, Sequential.withoutScheme u = Some k /\ Sequential.withoutScheme v = Some k.
Proof.
  split.
  - intros (s1 & s2 & H1 & H2).
    destruct (seq_EnsureContains_inv _ _ _ _ H1) as (k1 & Hk1 & _ & Hs1).
    destruct (seq_EnsureContains_inv _ _ _ _ H2) as (k2 & Hk2 & He & _).
    assert (k2 ∈ s1) as Hin by (apply He; reflexivity).
    assert (k2 = k1) by set_solver. subst. eauto.
  - intros (k & Hu & Hv). exists ({[ k ]} ∪ ∅), ({[ k ]} ∪ ∅). split.
    + apply (seq_EnsureContains_fresh u ∅ k); [assumption|set_solver].
    + apply (seq_EnsureContains_known v _ k); [assumption|set_solver].
Qed.

Lemma conc_same_identity_keys (u v : URL) :
  Concurrent.same_identity u v <->
  exists k, Concurrent.urlWithoutScheme u = Some k
            /\ Concurrent.urlWithoutScheme v = Some k.
Proof.
  unfold Concurrent.same_identity, Concurrent.EnsureContains. split.
  - intros (k1 & k2 & H1 & H2 & Hsame).
    destruct (decide (k1 ∈ (∅ : gset string))) as [Hin|_]; [set_solver|].
    simpl in Hsame.
    destruct (decide (k2 ∈ ({[ k1 ]} ∪ ∅ : gset string))) as [Hin|];
      [|discriminate].
    assert (k2 = k1) by set_solver. subst. eauto.
  - intros (k & Hu & Hv). exists k, k. repeat split; try assumption.
    destruct (decide (k ∈ (∅ : gset string))) as [Hin|_]; [set_solver|].
    simpl. destruct (decide (k ∈ ({[ k ]} ∪ ∅ : gset string))); [reflexivity|set_solver].
Qed.

Lemma withoutScheme_spec (u : URL) (k : string) :
  Sequential.withoutScheme u = Some k <->
  exists clone, Parse (URL_String u) = Some clone
                /\ URL_String (setScheme "" clone) = k.
Proof.
  unfold Sequential.withoutScheme.
  destruct (Parse (URL_String u)) as [clone|]; split.
  - intros Heq. inversion Heq. eauto.
  - intros (clone' & Heq & <-). inversion Heq. reflexivity.
  - discriminate.
  - intros (? & Heq & _). discriminate.
Qed.

(** *** One admission for a key *)

Lemma seq_admissions_known (us : list URL) :
  forall (s s' : gset string) answers k,
    Sequential.call_all us s = Some (answers, s') -> k ∈ s ->
    Sequential.admissions k answers = [].
Proof.
  induction us as [|u rest IH]; intros s s' answers k Hrun Hk; simpl in Hrun.
  - inversion Hrun. reflexivity.
  - destruct (Sequential.EnsureContains u s) as [[existed s1]|] eqn:Hcall; [|discriminate].
    destruct (Sequential.call_all rest s1) as [[answers' s2]|] eqn:Hrest; [|discriminate].
    inversion Hrun; subst. clear Hrun.
    destruct (seq_EnsureContains_inv _ _ _ _ Hcall) as (k0 & Hk0 & Hex & ->).
    unfold Sequential.admissions. rewrite filter_cons. simpl.
    destruct (decide (Sequential.withoutScheme u = Some k /\ existed = false))
      as [[Hsame Hfalse]|_].
    + assert (k0 = k) by congruence. subst k0.
      apply Hex in Hk. congruence.
    + apply (IH _ _ _ _ Hrest). set_solver.
Qed.

Lemma seq_admissions_once (us : list URL) :
  forall (s s' : gset string) answers,
    Sequential.call_all us s = Some (answers, s') ->
    map fst answers = us
    /\ forall u k, u ∈ us -> Sequential.withoutScheme u = Some k -> k ∉ s ->
                   length (Sequential.admissions k answers) = 1.
Proof.
  induction us as [|u rest IH]; intros s s' answers Hrun; simpl in Hrun.
  - inversion Hrun. split; [reflexivity|]. intros u k Hu. inversion Hu.
  - destruct (Sequential.EnsureContains u s) as [[existed s1]|] eqn:Hcall; [|discriminate].
    destruct (Sequential.call_all rest s1) as [[answers' s2]|] eqn:Hrest; [|discriminate].
    inversion Hrun; subst. clear Hrun.
    destruct (IH _ _ _ Hrest) as [Hmap Hone].
    split; [simpl; congruence|].
    intros u' k Hu' Hk' Hfresh.
    destruct (seq_EnsureContains_inv _ _ _ _ Hcall) as (k0 & Hk0 & Hex & ->).
    unfold Sequential.admissions. rewrite filter_cons. simpl.
    destruct (decide (Sequential.withoutScheme u = Some k /\ existed = false))
      as [[Hsame Hfalse]|Hno].
    + assert (k0 = k) by congruence. subst k0. simpl. f_equal.
      fold (Sequential.admissions k answers').
      rewrite (seq_admissions_known _ _ _ _ k Hrest); [reflexivity|set_solver].
    + assert (k0 <> k) as Hne.
      { intros ->. apply Hno. split; [assumption|].
        destruct existed; [|reflexivity]. exfalso. apply Hfresh, Hex. reflexivity. }
      apply (Hone u' k); [|assumption|set_solver].
      apply elem_of_cons in Hu' as [-> | Hin]; [congruence|assumption].
Qed.

End Identity.

Lemma filter_none {A : Type} (P : A -> Prop) `{forall x, Decision (P x)} (l : list A) :
  (forall x, x ∈ l -> ~ P x) -> filter P l = [].
Proof.
  induction l as [|x l IH]; intros Hnone; [reflexivity|].
  rewrite filter_cons_False by (apply Hnone; left).
  apply IH. intros y Hy. apply Hnone. right. exact Hy.
Qed.

Lemma conc_admissions_snoc (url : string) answers id url' (existed : bool) :
  Concurrent.admissions url (answers ++ [(id, url', existed)]) =
  Concurrent.admissions url answers
  ++ (if decide (url' = url /\ existed = false) then [(id, url', existed)] else []).
Proof.
  unfold Concurrent.admissions. rewrite filter_app. reflexivity.
Qed.

Lemma callers_inv_step callers cs cs' :
  callers_inv callers cs -> Concurrent.call_step cs cs' -> callers_inv callers cs'.
Proof.
  intros [Hperm Hset] Hstep. destruct Hstep as [m before id url after answers].
  simpl in *. split.
  - simpl. rewrite map_app. simpl. rewrite <- Hperm.
    rewrite <- !app_assoc. apply Permutation_app_head. simpl.
    apply Permutation_middle.
  - intros url'. simpl. rewrite conc_admissions_snoc, !map_app. simpl.
    unfold Concurrent.EnsureContains.
    destruct (decide (url ∈ m)) as [Hin|Hout]; simpl.
    + destruct (decide (url = url' /\ true = false)) as [[_ Hf]|_]; [discriminate|].
      rewrite app_nil_r. split.
      * apply Hset.
      * intros Hnot. rewrite elem_of_app, list_elem_of_singleton.
        intros [Hin' | ->]; [|contradiction]. revert Hin'. apply Hset, Hnot.
    + destruct (decide (url = url' /\ false = false)) as [[-> _]|Hne].
      * split; [|set_solver]. intros _. exists id.
        destruct (Hset url') as [_ Hnone]. specialize (Hnone Hout).
        assert (Concurrent.admissions url' answers = []) as ->; [|reflexivity].
        unfold Concurrent.admissions. apply filter_none.
        intros [[i u] b] Hin [Hu Hb]. simpl in *. subst.
        apply Hnone. apply list_elem_of_fmap. exists (i, url'). split; [reflexivity|].
        apply list_elem_of_fmap. exists (i, url', false). split; [reflexivity|assumption].
      * assert (url <> url') as Hdiff by (intros ->; apply Hne; split; reflexivity).
        rewrite app_nil_r. split.
        -- intros Hin. apply Hset. set_solver.
        -- intros Hnot. rewrite elem_of_app, list_elem_of_singleton.
           intros [Hin'|Heq]; [|congruence]. revert Hin'. apply Hset. set_solver.
Qed.

Lemma callers_inv_steps callers cs cs' :
  callers_inv callers cs -> rtc Concurrent.call_step cs cs' -> callers_inv callers cs'.
Proof.
  intros Hinv Hsteps. induction Hsteps as [|a b c Hstep _ IH]; [assumption|].
  apply IH. eapply callers_inv_step; eassumption.
Qed.

(** C6.  Two URLs are one place for the visited set exactly when the
    strings of their clones are equal once the scheme of each clone is
    erased, in the depth-first crawler ([withoutScheme]) and in the
    concurrent one ([urlWithoutScheme]) alike.  With Go's [net/url],
    ["http://h/p"] and ["https://h/p"] have the same key, and ["h/p"] and
    ["h/p/"] have different keys: a trailing slash is kept. *)
Theorem identity_is_schemeless_string :
  (forall (lib : NetURL) (u v : URL),
      (Sequential.same_identity u v <->
       exists cu cv, Parse (URL_String u) = Some cu /\ Parse (URL_String v) = Some cv
                     /\ URL_String (setScheme "" cu) = URL_String (setScheme "" cv))
      /\ (Concurrent.same_identity u v <-> Sequential.same_identity u v))
  /\ Sequential.identityKey "http://h/p" = Some "//h/p"
  /\ Sequential.identityKey "https://h/p" = Some "//h/p"
  /\ Sequential.identityKey "h/p" = Some "h/p"
  /\ Sequential.identityKey "h/p/" = Some "h/p/".
Proof.
  split; [|repeat split; reflexivity].
  intros lib u v. split.
  - rewrite seq_same_identity_keys. split.
    + intros (k & Hu & Hv).
      apply withoutScheme_spec in Hu as (cu & Hcu & Hku).
      apply withoutScheme_spec in Hv as (cv & Hcv & Hkv).
      exists cu, cv. repeat split; congruence.
    + intros (cu & cv & Hcu & Hcv & Heq).
      exists (URL_String (setScheme "" cu)). split; apply withoutScheme_spec; eauto.
  - rewrite seq_same_identity_keys, conc_same_identity_keys. reflexivity.
Qed.

(** C2.  Goroutines that share the visited set of the concurrent crawler
    call [EnsureContains] once each, in any interleaving of their atomic
    [LoadOrStore]s: when all have called, every caller has an answer, and
    for every key passed exactly one call returned "did not exist".  The
    same holds of the calls the depth-first crawler makes one after the
    other on its set. *)
Theorem admission_exactly_once :
  (forall callers final,
      rtc Concurrent.call_step (Concurrent.mkCallers ∅ callers []) final ->
      Concurrent.waiting final = [] ->
      map fst (Concurrent.answered final) ≡ₚ callers
      /\ forall url, url ∈ map snd callers ->
                     exists id, Concurrent.admissions url (Concurrent.answered final)
                                = [(id, url, false)])
  /\ (forall (lib : NetURL) us answers s,
         Sequential.call_all us ∅ = Some (answers, s) ->
         map fst answers = us
         /\ forall u k, u ∈ us -> Sequential.withoutScheme u = Some k ->
                        length (Sequential.admissions k answers) = 1).
Proof.
  split.
  - intros callers final Hrun Hdone.
    assert (callers_inv callers (Concurrent.mkCallers ∅ callers [])) as Hinit.
    { split; [reflexivity|]. intros url. simpl. split; [set_solver|].
      intros _ Hin. inversion Hin. }
    destruct (callers_inv_steps _ _ _ Hinit Hrun) as [Hperm Hset].
    rewrite Hdone, app_nil_r in Hperm. split; [assumption|].
    intros url Hurl. apply Hset.
    destruct (decide (url ∈ Concurrent.shared_set final)) as [|Hout]; [assumption|].
    exfalso. apply (proj2 (Hset url) Hout). rewrite Hperm. assumption.
  - intros lib us answers s Hrun.
    destruct (seq_admissions_once us _ _ _ Hrun) as [Hmap Hone].
    split; [assumption|]. intros u k Hu Hk. apply (Hone u k Hu Hk). set_solver.
Qed.

Lemma admission_exactly_once_witness :
  exists id, Concurrent.admissions "//h/x"
               [(2, "//h/x", false); (1, "//h/y", false); (0, "//h/x", true)]
             = [(id, "//h/x", false)].
Proof.
  eassert (rtc Concurrent.call_step
             (Concurrent.mkCallers ∅ [(0, "//h/x"); (1, "//h/y"); (2, "//h/x")] []) _)
    as Hrun.
  { eapply rtc_l.
    { apply (Concurrent.call_next ∅ [(0, "//h/x"); (1, "//h/y")] 2 "//h/x" [] []). }
    eapply rtc_l.
    { apply (Concurrent.call_next _ [(0, "//h/x")] 1 "//h/y" [] _). }
    eapply rtc_l.
    { apply (Concurrent.call_next _ [] 0 "//h/x" [] _). }
    apply rtc_refl. }
  apply (proj2 (proj1 admission_exactly_once _ _ Hrun eq_refl) "//h/x").
  simpl. left.
Defined.

(** ** Extraction of the links of a page *)

Section Extraction.
Context `{NetURL}.

(** the visitor of the depth-first crawler reads the first href of an
    anchor and nothing else of it *)
Lemma seq_visit_attrs_first (pageURL : URL) (attrs : list Attribute)
      (st : list URL * gset string) :
  Sequential.visit_attrs pageURL attrs st =
  match first_href attrs with
  | None => Some st
  | Some val =>
      match Sequential.parseToAbsURL val pageURL with
      | inl _ => Some st
      | inr href =>
          match Sequential.EnsureContains href (snd st) with
          | None => None
          | Some (true, seen) => Some (fst st, seen)
          | Some (false, seen) => Some (fst st ++ [href], seen)
          end
      end
  end.
Proof.
  induction attrs as [|attr rest IH]; simpl; [reflexivity|].
  destruct (String.eqb (Key attr) "href"); [reflexivity|exact IH].
Qed.


Lemma seq_parseToAbsURL_resolves (val : string) (base href : URL) :
  Sequential.parseToAbsURL val base = inr href ->
  exists parsed, Parse val = Some parsed
                 /\ href = ResolveReference base
                             (if String.eqb (Path parsed) "" then setPath "/" parsed
                              else parsed).
Proof.
  unfold Sequential.parseToAbsURL. destruct (Parse val) as [parsed|]; [|discriminate].
  intros Heq. inversion Heq. eauto.
Qed.



Lemma seq_links_of_anchors (doc : Node) (pageURL : URL) :
  Sequential.links_of doc pageURL =
  match visit_each (Sequential.visitLink pageURL) (anchors doc) ([], ∅) with
  | Some (links, _) => Some links
  | None => None
  end.
Proof. unfold Sequential.links_of. rewrite walkLinks_anchors. reflexivity. Qed.


(** *** The first link with a key stays *)

Lemma first_with_key_app (k : string) (l1 l2 : list URL) :
  Sequential.first_with_key k (l1 ++ l2) =
  match Sequential.first_with_key k l1 with
  | Some x => Some x
  | None => Sequential.first_with_key k l2
  end.
Proof.
  induction l1 as [|x l1 IH]; simpl; [reflexivity|].
  destruct (decide (Sequential.withoutScheme x = Some k)); [reflexivity|exact IH].
Qed.

Lemma first_with_key_Some (k : string) (l : list URL) (x : URL) :
  Sequential.first_with_key k l = Some x -> x ∈ l /\ Sequential.withoutScheme x = Some k.
Proof.
  induction l as [|y l IH]; simpl; [discriminate|].
  destruct (decide (Sequential.withoutScheme y = Some k)) as [Hy|_].
  - intros Heq. inversion Heq; subst. split; [left|assumption].
  - intros Hx. destruct (IH Hx). split; [right|]; assumption.
Qed.

Lemma first_with_key_None (k : string) (l : list URL) (keys : list string) :
  Forall2 (fun x k' => Sequential.withoutScheme x = Some k') l keys ->
  (Sequential.first_with_key k l = None <-> k ∉ keys).
Proof.
  induction 1 as [|x k' l keys Hx _ IH]; simpl.
  - split; [intros _ Hin; inversion Hin|reflexivity].
  - destruct (decide (Sequential.withoutScheme x = Some k)) as [Hk|Hk].
    + assert (k' = k) by congruence. subst. split; [discriminate|].
      intros Hout. exfalso. apply Hout. left.
    + rewrite IH. rewrite not_elem_of_cons. split; [|tauto].
      intros Hout. split; [congruence|assumption].
Qed.

Lemma seq_page_inv_visit (pageURL : URL) (n : Node) (P : list URL)
      (st st' : list URL * gset string) :
  seq_page_inv P st ->
  Sequential.visitLink pageURL n st = Some st' ->
  seq_page_inv (P ++ Sequential.resolved_hrefs pageURL [n]) st'.
Proof.
  intros [(keys & Hkeys & Hnodup & Hseen) Hfirst]. unfold Sequential.visitLink.
  rewrite seq_visit_attrs_first. simpl.
  destruct (first_href (Attr_of n)) as [val|].
  2:{ intros Heq. inversion Heq; subst. rewrite app_nil_r. split; eauto. }
  destruct (Sequential.parseToAbsURL val pageURL) as [e|href].
  { intros Heq. inversion Heq; subst. rewrite app_nil_r. split; eauto. }
  destruct (Sequential.EnsureContains href (snd st)) as [[existed seen]|] eqn:Hcall;
    [|discriminate].
  destruct (seq_EnsureContains_inv _ _ _ _ Hcall) as (k0 & Hk0 & Hex & ->).
  destruct existed; intros Heq; inversion Heq; subst; clear Heq; simpl.
  - assert (k0 ∈ keys) as Hin by (apply Hseen, Hex; reflexivity).
    split.
    + exists keys. repeat split; try assumption.
      * intros Hk. apply Hseen. set_solver.
      * intros Hk. apply elem_of_union_r, Hseen, Hk.
    + intros k. rewrite first_with_key_app, <- Hfirst. simpl.
      destruct (Sequential.first_with_key k (fst st)) eqn:Hk; [reflexivity|].
      destruct (decide (Sequential.withoutScheme href = Some k)) as [Hsame|]; [|reflexivity].
      assert (k0 = k) by congruence. subst.
      apply (first_with_key_None _ _ _ Hkeys) in Hk. contradiction.
  - assert (k0 ∉ keys) as Hout.
    { intros Hin. apply Hseen in Hin. apply Hex in Hin. discriminate. }
    split.
    + exists (keys ++ [k0]). split; [|split].
      * apply Forall2_app; [assumption|]. constructor; [assumption|constructor].
      * apply NoDup_app. split; [assumption|]. split; [|apply NoDup_singleton].
        intros k Hk Hk'. apply list_elem_of_singleton in Hk'. subst. contradiction.
      * intros k. simpl. rewrite elem_of_union, elem_of_singleton, elem_of_app,
          list_elem_of_singleton, Hseen. tauto.
    + intros k. simpl. rewrite !first_with_key_app, <- Hfirst. reflexivity.
Qed.

Lemma seq_resolved_hrefs_app (pageURL : URL) (l1 l2 : list Node) :
  Sequential.resolved_hrefs pageURL (l1 ++ l2) =
  Sequential.resolved_hrefs pageURL l1 ++ Sequential.resolved_hrefs pageURL l2.
Proof.
  induction l1 as [|n l1 IH]; simpl; [reflexivity|].
  destruct (first_href (Attr_of n)) as [val|]; [|exact IH].
  destruct (Sequential.parseToAbsURL val pageURL); [exact IH|].
  simpl. f_equal. exact IH.
Qed.

Lemma seq_page_inv_visit_each (pageURL : URL) (ns : list Node) :
  forall (P : list URL) (st st' : list URL * gset string),
    seq_page_inv P st ->
    visit_each (Sequential.visitLink pageURL) ns st = Some st' ->
    seq_page_inv (P ++ Sequential.resolved_hrefs pageURL ns) st'.
Proof.
  induction ns as [|n ns IH]; intros P st st' Hinv Hrun; simpl in Hrun.
  - inversion Hrun; subst. simpl. rewrite app_nil_r. assumption.
  - destruct (Sequential.visitLink pageURL n st) as [st1|] eqn:Hvisit; [|discriminate].
    change (n :: ns) with ([n] ++ ns).
    rewrite seq_resolved_hrefs_app, app_assoc.
    apply (IH _ st1); [|assumption].
    eapply seq_page_inv_visit; eassumption.
Qed.

(** The links of a page have pairwise different keys, and the link kept
    for a key is the first href of the page with that key. *)
Lemma seq_links_first_wins (doc : Node) (pageURL : URL) (links : list URL) :
  Sequential.links_of doc pageURL = Some links ->
  (exists keys, Forall2 (fun x k => Sequential.withoutScheme x = Some k) links keys
                /\ NoDup keys)
  /\ forall k, Sequential.first_with_key k links
               = Sequential.first_with_key k (Sequential.resolved_hrefs pageURL (anchors doc)).
Proof.
  rewrite seq_links_of_anchors.
  destruct (visit_each (Sequential.visitLink pageURL) (anchors doc) ([], ∅))
    as [[links' seen]|] eqn:Hrun; [|discriminate].
  intros Heq. inversion Heq; subst. clear Heq.
  assert (seq_page_inv [] (([] : list URL), (∅ : gset string))) as Hinit.
  { split; [|reflexivity]. exists []. repeat split; try constructor; set_solver. }
  destruct (seq_page_inv_visit_each _ _ _ _ _ Hinit Hrun) as [(keys & Hk & Hnd & _) Hfirst].
  simpl in *. eauto.
Qed.

Lemma keys_NoDup_links (links : list URL) (keys : list string) :
  Forall2 (fun x k => Sequential.withoutScheme x = Some k) links keys ->
  NoDup keys -> NoDup links.
Proof.
  induction 1 as [|x k links keys Hx Hrest IH]; intros Hnd; [constructor|].
  inversion Hnd as [|? ? Hout Hnd']; subst. constructor; [|apply IH; assumption].
  intros Hin. apply Hout.
  apply list_elem_of_lookup in Hin as [i Hi].
  destruct (Forall2_lookup_l _ _ _ _ _ Hrest Hi) as (k' & Hk' & Hkey).
  assert (k' = k) by congruence. subst.
  apply list_elem_of_lookup. eauto.
Qed.

(** *** The concurrent crawler *)


Lemma conc_links_of_anchors (doc : Node) :
  Concurrent.links_of doc =
  match visit_each Concurrent.visitLink (anchors doc) ([], ∅) with
  | Some (links, _) => Some links
  | None => None
  end.
Proof. unfold Concurrent.links_of. rewrite walkLinks_anchors. reflexivity. Qed.


(** every link [findLinksInPage] returns has been parsed *)
Lemma conc_visit_attrs_parsed (attrs : list Attribute) :
  forall (st st' : list string * gset string),
    Forall (fun l => Parse l <> None) (fst st) ->
    Concurrent.visit_attrs attrs st = Some st' ->
    Forall (fun l => Parse l <> None) (fst st').
Proof.
  induction attrs as [|attr rest IH]; intros st st' Hst; simpl.
  - intros Heq. inversion Heq; subst. assumption.
  - destruct (String.eqb (Key attr) "href"); [|apply IH; assumption].
    destruct (Parse (Val attr)) as [href|] eqn:Hparse.
    2:{ intros Heq. inversion Heq; subst. assumption. }
    destruct (Concurrent.urlWithoutScheme href) as [key|]; [|discriminate].
    destruct (Concurrent.EnsureContains key (snd st)) as [[|] seen].
    + apply IH. assumption.
    + intros Heq. inversion Heq; subst. simpl.
      apply Forall_app. split; [assumption|]. constructor; [congruence|constructor].
Qed.

Lemma conc_visit_each_parsed (ns : list Node) :
  forall (st st' : list string * gset string),
    Forall (fun l => Parse l <> None) (fst st) ->
    visit_each Concurrent.visitLink ns st = Some st' ->
    Forall (fun l => Parse l <> None) (fst st').
Proof.
  induction ns as [|n ns IH]; intros st st' Hst; simpl.
  - intros Heq. inversion Heq; subst. assumption.
  - destruct (Concurrent.visitLink n st) as [st1|] eqn:Hvisit; [|discriminate].
    apply IH. eapply conc_visit_attrs_parsed; eassumption.
Qed.

Lemma conc_findLinksInPage_parsed (w : World) (page : Body w) (links : list string) :
  Concurrent.findLinksInPage w page = Some (inr links) ->
  Forall (fun l => Parse l <> None) links.
Proof.
  unfold Concurrent.findLinksInPage.
  destruct (html_Parse w page) as [cause|doc]; [discriminate|].
  rewrite conc_links_of_anchors.
  destruct (visit_each Concurrent.visitLink (anchors doc) ([], ∅)) as [[links' seen]|]
    eqn:Hrun; [|discriminate].
  intros Heq. inversion Heq; subst.
  apply (conc_visit_each_parsed (anchors doc) ([], ∅) (links, seen));
    [constructor|assumption].
Qed.

Lemma conc_parseToAbsURL_parsed (c : Crawler) (l : string) :
  Parse l <> None -> exists url, Concurrent.parseToAbsURL c l = inr url.
Proof.
  unfold Concurrent.parseToAbsURL. destruct (Parse l); [eauto|congruence].
Qed.

(** the loop that starts the goroutines: all links that parse get one, with
    the next depth *)
Lemma conc_spawn_children (c : Crawler) (links : list string) (depth : Z) :
  forall started,
    Forall (fun l => Parse l <> None) links ->
    exists urls,
      Forall2 (fun l url => Concurrent.parseToAbsURL c l = inr url) links urls
      /\ Concurrent.spawn c links depth started
         = inr (started ++ map (fun url => (URL_String url,
                                            Concurrent.Pending url (int_succ depth))) urls).
Proof.
  induction links as [|l rest IH]; intros started Hparsed; simpl.
  - exists []. split; [constructor|]. rewrite app_nil_r. reflexivity.
  - inversion Hparsed as [|? ? Hl Hrest]; subst.
    destruct (conc_parseToAbsURL_parsed c l Hl) as [url Hurl]. rewrite Hurl.
    destruct (IH (started ++ [(URL_String url, Concurrent.Pending url (int_succ depth))])
                 Hrest) as (urls & Hurls & Hspawn).
    exists (url :: urls). split; [constructor; assumption|].
    rewrite Hspawn, <- app_assoc. reflexivity.
Qed.

Lemma conc_page_inv_attrs (attrs : list Attribute) :
  forall st st', conc_page_inv st -> Concurrent.visit_attrs attrs st = Some st' ->
                 conc_page_inv st'.
Proof.
  induction attrs as [|attr rest IH]; intros st st' Hinv; simpl.
  - intros Heq. inversion Heq; subst. assumption.
  - destruct (String.eqb (Key attr) "href"); [|apply IH; assumption].
    destruct (Parse (Val attr)) as [href|] eqn:Hparse.
    2:{ intros Heq. inversion Heq; subst. assumption. }
    destruct (Concurrent.urlWithoutScheme href) as [key|] eqn:Hkey; [|discriminate].
    unfold Concurrent.EnsureContains.
    destruct (decide (key ∈ snd st)) as [Hin|Hout].
    + apply IH. destruct st. exact Hinv.
    + intros Heq. inversion Heq; subst. clear Heq.
      destruct Hinv as (keys & Hkeys & Hnd & Hseen). exists (keys ++ [key]).
      simpl. split; [|split].
      * apply Forall2_app; [assumption|]. constructor; [eauto|constructor].
      * apply NoDup_app. split; [assumption|]. split; [|apply NoDup_singleton].
        intros k Hk Hk'. apply list_elem_of_singleton in Hk'. subst.
        apply Hout, Hseen, Hk.
      * intros k. rewrite elem_of_union, elem_of_singleton, elem_of_app,
          list_elem_of_singleton, Hseen. tauto.
Qed.

Lemma conc_page_inv_each (ns : list Node) :
  forall st st', conc_page_inv st -> visit_each Concurrent.visitLink ns st = Some st' ->
                 conc_page_inv st'.
Proof.
  induction ns as [|n ns IH]; intros st st' Hinv; simpl.
  - intros Heq. inversion Heq; subst. assumption.
  - destruct (Concurrent.visitLink n st) as [st1|] eqn:Hvisit; [|discriminate].
    apply IH. eapply conc_page_inv_attrs; eassumption.
Qed.

(** the links [findLinksInPage] returns have pairwise different keys *)
Lemma conc_links_distinct (doc : Node) (links : list string) :
  Concurrent.links_of doc = Some links ->
  exists keys,
    Forall2 (fun l k => exists u, Parse l = Some u
                                  /\ Concurrent.urlWithoutScheme u = Some k) links keys
    /\ NoDup keys.
Proof.
  rewrite conc_links_of_anchors.
  destruct (visit_each Concurrent.visitLink (anchors doc) ([], ∅)) as [[links' seen]|]
    eqn:Hrun; [|discriminate].
  intros Heq. inversion Heq; subst.
  assert (conc_page_inv (([] : list string), (∅ : gset string))) as Hinit.
  { exists []. split; [constructor|]. split; [constructor|]. intros k. set_solver. }
  destruct (conc_page_inv_each _ _ _ Hinit Hrun) as (keys & Hkeys & Hnd & _).
  exists keys. split; assumption.
Qed.

(** two links of a page with the same key are the same link *)
Lemma seq_links_key_unique (links : list URL) (keys : list string) (x y : URL) (k : string) :
  Forall2 (fun u k' => Sequential.withoutScheme u = Some k') links keys ->
  NoDup keys -> x ∈ links -> y ∈ links ->
  Sequential.withoutScheme x = Some k -> Sequential.withoutScheme y = Some k -> x = y.
Proof.
  intros Hkeys Hnd Hx Hy Hkx Hky.
  apply list_elem_of_lookup in Hx as [i Hi]. apply list_elem_of_lookup in Hy as [j Hj].
  destruct (Forall2_lookup_l _ _ _ _ _ Hkeys Hi) as (ki & Hki & Hxi).
  destruct (Forall2_lookup_l _ _ _ _ _ Hkeys Hj) as (kj & Hkj & Hyj).
  assert (ki = k) by congruence. assert (kj = k) by congruence. subst.
  assert (i = j) by (eapply NoDup_lookup; eassumption). subst. congruence.
Qed.

End Extraction.

(** ** Printing a tree *)

#[export] Instance seq_row_le_total : Total Sequential.row_le.
Proof. intros a b. apply string_le_total. Qed.

#[export] Instance seq_row_le_trans : Transitive Sequential.row_le.
Proof. intros a b c. apply string_le_trans. Qed.

#[export] Instance conc_row_le_total : Total Concurrent.row_le.
Proof. intros a b. apply string_le_total. Qed.

#[export] Instance conc_row_le_trans : Transitive Concurrent.row_le.
Proof. intros a b c. apply string_le_trans. Qed.

(** two orders of the same elements sort to the same list when no two
    different elements are equivalent for the order *)
Lemma merge_sort_order_free {A : Type} (R : relation A) `{forall x y, Decision (R x y)}
      `{!Total R} `{!Transitive R} (l1 l2 : list A) :
  l1 ≡ₚ l2 ->
  (forall x y, x ∈ l1 -> y ∈ l1 -> R x y -> R y x -> x = y) ->
  merge_sort R l1 = merge_sort R l2.
Proof.
  intros Hperm Hanti.
  apply (Sorted_unique_strong R).
  - intros x y Hx Hy. apply Hanti.
    + rewrite <- (merge_sort_Permutation R l1). assumption.
    + rewrite Hperm, <- (merge_sort_Permutation R l2). assumption.
  - apply Sorted_merge_sort. assumption.
  - apply Sorted_merge_sort. assumption.
  - rewrite !merge_sort_Permutation. assumption.
Qed.

Lemma NoDup_fmap_eq {A B : Type} (f : A -> B) (l : list A) (x y : A) :
  NoDup (map f l) -> x ∈ l -> y ∈ l -> f x = f y -> x = y.
Proof.
  induction l as [|a l IH]; intros Hnd Hx Hy Heq; [inversion Hx|].
  simpl in Hnd. inversion Hnd as [|? ? Hout Hnd']; subst.
  apply elem_of_cons in Hx as [-> | Hx]; apply elem_of_cons in Hy as [-> | Hy].
  - reflexivity.
  - exfalso. apply Hout. rewrite Heq. apply list_elem_of_fmap. eauto.
  - exfalso. apply Hout. rewrite <- Heq. apply list_elem_of_fmap. eauto.
  - apply IH; assumption.
Qed.

Section Render.
Context `{NetURL}.

(** each row is made from one entry *)
Lemma seq_rows_of_entries (text_of : Sequential.URLTree -> option string) (n : nat)
      (es : list (URL * Sequential.URLTree)) (rows : list Sequential.row) :
  Sequential.rows_of text_of n es = Some rows ->
  Forall2 (fun e r =>
             Sequential.row_link r = fst e
             /\ Sequential.sort_key n (fst e) = Some (Sequential.row_key r)
             /\ Sequential.row_len r = Sequential.len (snd e)
             /\ text_of (snd e) = Some (Sequential.row_text r)) es rows.
Proof.
  revert rows. induction es as [|[link sub] es IH]; intros rows; simpl.
  - intros Heq. inversion Heq. constructor.
  - destruct (Sequential.sort_key n link) as [key|] eqn:Hkey; [|discriminate].
    destruct (text_of sub) as [text|] eqn:Htext; [|discriminate].
    destruct (Sequential.rows_of text_of n es) as [rows'|]; [|discriminate].
    intros Heq. inversion Heq; subst. constructor; [|apply IH; reflexivity].
    simpl. auto.
Qed.

Lemma seq_rows_of_ext (f g : Sequential.URLTree -> option string) (n : nat)
      (es es' : list (URL * Sequential.URLTree)) :
  Forall2 (fun e e' => fst e = fst e'
                       /\ Sequential.len (snd e) = Sequential.len (snd e')
                       /\ f (snd e) = g (snd e')) es es' ->
  Sequential.rows_of f n es = Sequential.rows_of g n es'.
Proof.
  induction 1 as [|[l s] [l' s'] es es' (Hl & Hlen & Htext) _ IH]; simpl; [reflexivity|].
  simpl in *. subst. rewrite Hlen, Htext, IH. reflexivity.
Qed.

Lemma seq_rows_of_perm (f : Sequential.URLTree -> option string) (n : nat)
      (es es' : list (URL * Sequential.URLTree)) :
  es ≡ₚ es' ->
  match Sequential.rows_of f n es, Sequential.rows_of f n es' with
  | Some rows, Some rows' => rows ≡ₚ rows'
  | None, None => True
  | _, _ => False
  end.
Proof.
  induction 1 as [|[l s] es es' _ IH|[l1 s1] [l2 s2] es|es1 es2 es3 _ IH1 _ IH2]; simpl.
  - reflexivity.
  - destruct (Sequential.sort_key n l), (f s),
      (Sequential.rows_of f n es), (Sequential.rows_of f n es');
      try exact I; try contradiction. constructor. assumption.
  - destruct (Sequential.sort_key n l1), (f s1), (Sequential.sort_key n l2), (f s2),
      (Sequential.rows_of f n es); try exact I. apply perm_swap.
  - destruct (Sequential.rows_of f n es1), (Sequential.rows_of f n es2),
      (Sequential.rows_of f n es3); try exact I; try contradiction.
    etransitivity; eassumption.
Qed.

Lemma seq_reordered_len (t t' : Sequential.URLTree) :
  Sequential.reordered t t' -> Sequential.len t = Sequential.len t'.
Proof.
  destruct 1 as [|es es' es'' Hsame Hperm]; [reflexivity|]. simpl.
  rewrite (Forall2_length _ _ _ Hsame). apply Permutation_length. assumption.
Qed.

(** rows with the keys of a node whose keys differ: no two different rows
    are equivalent for the order *)
Lemma seq_rows_antisym (f : Sequential.URLTree -> option string)
      (es : list (URL * Sequential.URLTree)) (keys : list string) (rows : list Sequential.row) :
  Forall2 (fun e k => Sequential.withoutScheme (fst e) = Some k) es keys ->
  NoDup keys ->
  Sequential.rows_of f (length es) es = Some rows ->
  forall x y, x ∈ rows -> y ∈ rows ->
              Sequential.row_le x y -> Sequential.row_le y x -> x = y.
Proof.
  intros Hkeys Hnd Hrows x y Hx Hy Hxy Hyx.
  pose proof (seq_rows_of_entries _ _ _ _ Hrows) as Hent.
  destruct (decide (length es < 2)) as [Hsmall|Hbig].
  - pose proof (Forall2_length _ _ _ Hent) as Hlen.
    destruct rows as [|r [|r' rows]]; simpl in Hlen; try lia.
    + inversion Hx.
    + apply list_elem_of_singleton in Hx, Hy. congruence.
  - assert (map Sequential.row_key rows = keys) as Hmap.
    { clear -Hent Hkeys Hbig. unfold Sequential.sort_key in Hent.
      destruct (length es <? 2)%nat eqn:Hlt; [apply Nat.ltb_lt in Hlt; lia|].
      clear Hlt Hbig. revert keys Hkeys.
      induction Hent as [|e r es rows (_ & Hk & _) _ IH]; intros keys Hkeys;
        inversion Hkeys; subst; simpl; [reflexivity|].
      f_equal; [congruence|]. apply IH. assumption. }
    apply (NoDup_fmap_eq Sequential.row_key rows); try assumption.
    + rewrite Hmap. assumption.
    + apply (anti_symm string_le); assumption.
Qed.

(** The text of a tree whose keys differ at every node does not depend on
    the order of the entries. *)
Lemma seq_string_order_free (t : Sequential.URLTree) :
  Sequential.keys_distinct t ->
  forall t' indent, Sequential.reordered t t' ->
                    Sequential.string_ t' indent = Sequential.string_ t indent.
Proof.
  induction t as [|es IH] using URLTree_entries_ind; intros Hdistinct t' indent Hre.
  - inversion Hre. reflexivity.
  - inversion Hre as [|? es' es'' Hsame Hperm]; subst. clear Hre.
    inversion Hdistinct as [|? keys Hkeys Hnd Hsubs]; subst. clear Hdistinct.
    simpl.
    assert (length es'' = length es) as ->.
    { rewrite <- (Permutation_length Hperm). symmetry. eapply Forall2_length, Hsame. }
    set (f := fun sub => Sequential.string_ sub (S indent)).
    assert (Sequential.rows_of f (length es) es' = Sequential.rows_of f (length es) es)
      as Hext.
    { symmetry. apply seq_rows_of_ext.
      clear Hperm Hkeys Hnd. induction Hsame as [|e e' es es' [Hfst Hsub] _ IHsame];
        [constructor|].
      inversion IH; inversion Hsubs; subst.
      constructor; [|apply IHsame; assumption].
      repeat split; [assumption|apply seq_reordered_len; assumption|].
      unfold f. symmetry. auto. }
    pose proof (seq_rows_of_perm f (length es) _ _ Hperm) as Hrows.
    rewrite Hext in Hrows.
    destruct (Sequential.rows_of f (length es) es) as [rows|] eqn:Hes,
             (Sequential.rows_of f (length es) es'') as [rows''|];
      try contradiction; [|reflexivity].
    unfold Sequential.sort_rows.
    rewrite (merge_sort_order_free Sequential.row_le rows rows''); [reflexivity|assumption|].
    eapply seq_rows_antisym; eassumption.
Qed.

(** The rows of a node are printed in ascending order of their keys, one
    line for each, followed by the text of its sub tree. *)
Lemma seq_string_sorted (es : list (URL * Sequential.URLTree)) (indent : nat) (out : string) :
  Sequential.string_ (Sequential.UMap es) indent = Some out ->
  exists rows,
    out = concat_strings (map (Sequential.print_row indent) rows)
    /\ StronglySorted Sequential.row_le rows
    /\ exists unsorted,
        unsorted ≡ₚ rows
        /\ Forall2 (fun e r =>
                      Sequential.row_link r = fst e
                      /\ Sequential.sort_key (length es) (fst e)
                         = Some (Sequential.row_key r)
                      /\ Sequential.row_len r = Sequential.len (snd e)
                      /\ Sequential.string_ (snd e) (S indent)
                         = Some (Sequential.row_text r)) es unsorted.
Proof.
  simpl.
  destruct (Sequential.rows_of (fun sub => Sequential.string_ sub (S indent))
                               (length es) es) as [rows|] eqn:Hrows; [|discriminate].
  intros Heq. inversion Heq; subst. clear Heq.
  exists (Sequential.sort_rows rows). split; [reflexivity|]. split.
  - apply StronglySorted_merge_sort; apply _.
  - exists rows. split.
    + symmetry. apply merge_sort_Permutation.
    + apply (seq_rows_of_entries _ _ _ _ Hrows).
Qed.

(** a line: the indentation, the link, the end of the line *)
Lemma seq_print_row_line (indent : nat) (r : Sequential.row) :
  exists rest,
    Sequential.print_row indent r
    = Repeat "  " indent +:+ URL_String (Sequential.row_link r) +:+ newline +:+ rest.
Proof. unfold Sequential.print_row. eauto. Qed.

End Render.

(** *** The string-keyed tree *)

Lemma conc_rows_of_map (f : Concurrent.LinkTree -> string)
      (es : list (string * Concurrent.LinkTree)) :
  Concurrent.rows_of f es
  = map (fun e => Concurrent.mkRow (fst e) (Concurrent.len (snd e)) (f (snd e))) es.
Proof.
  induction es as [|[page sub] es IH]; simpl; [reflexivity|]. rewrite IH. reflexivity.
Qed.

Lemma conc_string_sorted (es : list (string * Concurrent.LinkTree)) (indent : nat) :
  exists rows,
    Concurrent.string_ (Concurrent.LMap es) indent
    = concat_strings (map (Concurrent.print_row indent) rows)
    /\ StronglySorted Concurrent.row_le rows
    /\ rows ≡ₚ map (fun e => Concurrent.mkRow (fst e) (Concurrent.len (snd e))
                               (Concurrent.string_ (snd e) (S indent))) es.
Proof.
  simpl. eexists. split; [reflexivity|]. split.
  - apply StronglySorted_merge_sort; apply _.
  - unfold Concurrent.sort_rows. rewrite merge_sort_Permutation, conc_rows_of_map.
    reflexivity.
Qed.

Lemma conc_reordered_len (t t' : Concurrent.LinkTree) :
  Concurrent.reordered t t' -> Concurrent.len t = Concurrent.len t'.
Proof.
  destruct 1 as [|es es' es'' Hsame Hperm]; [reflexivity|]. simpl.
  rewrite (Forall2_length _ _ _ Hsame). apply Permutation_length. assumption.
Qed.

(** The text of a string-keyed tree does not depend on the order of its
    entries. *)
Lemma conc_string_order_free (t : Concurrent.LinkTree) :
  Concurrent.pages_distinct t ->
  forall t' indent, Concurrent.reordered t t' ->
                    Concurrent.string_ t' indent = Concurrent.string_ t indent.
Proof.
  induction t as [|es IH] using LinkTree_entries_ind; intros Hdistinct t' indent Hre.
  - inversion Hre. reflexivity.
  - inversion Hre as [|? es' es'' Hsame Hperm]; subst. clear Hre.
    inversion Hdistinct as [|? Hnd Hsubs]; subst. clear Hdistinct.
    simpl. rewrite !conc_rows_of_map.
    set (g := fun e : string * Concurrent.LinkTree =>
                Concurrent.mkRow (fst e) (Concurrent.len (snd e))
                                 (Concurrent.string_ (snd e) (S indent))).
    assert (map g es' = map g es) as Hext.
    { clear Hperm Hnd. induction Hsame as [|e e' es es' [Hfst Hsub] _ IHsame];
        [reflexivity|].
      inversion IH; inversion Hsubs; subst. simpl. f_equal; [|apply IHsame; assumption].
      unfold g. rewrite <- Hfst, <- (conc_reordered_len _ _ Hsub). f_equal. auto. }
    unfold Concurrent.sort_rows.
    rewrite (merge_sort_order_free Concurrent.row_le (map g es'') (map g es));
      [reflexivity| |].
    + rewrite <- Hext. apply Permutation_map. symmetry. assumption.
    + intros x y Hx Hy Hxy Hyx.
      assert (map Concurrent.row_page (map g es'') = map fst es'') as Hpages.
      { rewrite map_map. reflexivity. }
      apply (NoDup_fmap_eq Concurrent.row_page (map g es'')); try assumption.
      * rewrite Hpages, <- Hperm.
        assert (map fst es' = map fst es) as ->; [|assumption].
        clear -Hsame. induction Hsame as [|e e' es es' [Hfst _] _ IHsame];
          [reflexivity|]. simpl. congruence.
      * apply (anti_symm string_le); assumption.
Qed.

(** ** The depth-first crawl *)

Section SequentialCrawl.
Context `{NetURL}.
Variable c : Crawler.
Variable w : World.

Abbreviation result := (Sequential.URLTree * option error)%type.

(** *** The function and its graph *)

Lemma seq_each_sound (recur : URL -> Z -> Sequential.State -> Sequential.outcome result)
      (depth : Z) :
  (forall href st, recur href (int_succ depth) st <> Sequential.OutOfFuel ->
                   Sequential.crawl_to c w href (int_succ depth) st
                                       (recur href (int_succ depth) st)) ->
  forall hrefs tree st,
    Sequential.each c recur depth hrefs tree st <> Sequential.OutOfFuel ->
    Sequential.each_to c w depth hrefs tree st (Sequential.each c recur depth hrefs tree st).
Proof.
  intros Hrecur. induction hrefs as [|href rest IH]; intros tree st; simpl.
  - intros _. constructor.
  - destruct (Sequential.EnsureContains href (Sequential.visited st)) as [[[|] v]|] eqn:Hcall.
    + intros Hfuel. eapply Sequential.each_visited; eauto.
    + destruct (Sequential.out_of_bounds c href depth) eqn:Hbounds.
      * intros Hfuel. eapply Sequential.each_bounds; eauto.
      * specialize (Hrecur href (Sequential.marked st v)).
        destruct (recur href (int_succ depth) (Sequential.marked st v))
          as [[sub [err|]] st'|st'|] eqn:Hsub; intros Hfuel.
        -- eapply Sequential.each_failed; eauto; apply Hrecur; discriminate.
        -- eapply Sequential.each_crawled; eauto; apply Hrecur; discriminate.
        -- eapply Sequential.each_panicked; eauto; apply Hrecur; discriminate.
        -- contradiction.
    + intros _. constructor. assumption.
Qed.

(** a call of [crawl] that does not run out of fuel is in the graph *)
Lemma seq_crawl_sound (fuel : nat) :
  forall pageURL depth st,
    Sequential.crawl c w fuel pageURL depth st <> Sequential.OutOfFuel ->
    Sequential.crawl_to c w pageURL depth st (Sequential.crawl c w fuel pageURL depth st).
Proof.
  induction fuel as [|fuel IH]; intros pageURL depth st; simpl; [contradiction|].
  destruct (limiter_Wait w (Sequential.waits st)) as [err|] eqn:Hwait.
  { intros _. constructor. assumption. }
  destruct (client_Get w (URL_String pageURL)) as [err|page] eqn:Hget.
  { intros _. constructor; assumption. }
  destruct (Sequential.uniqueLinksInPage w page pageURL) as [[err|hrefs]|] eqn:Hlinks.
  - intros _. econstructor; eassumption.
  - intros Hfuel. eapply Sequential.crawl_links; try eassumption.
    apply seq_each_sound; [|assumption]. intros href st'. apply IH.
  - intros _. econstructor; eassumption.
Qed.

(** *** Enough fuel *)

Lemma int_succ_small (z : Z) : (int_min <= z < int_max)%Z -> int_succ z = (z + 1)%Z.
Proof.
  unfold int_succ, int_wrap, int_min, int_max. intros Hz.
  rewrite Z.mod_small; lia.
Qed.

Lemma seq_in_bounds (href : URL) (depth : Z) :
  is_int (maxDepth c) -> (0 <= depth < int_max)%Z ->
  Sequential.out_of_bounds c href depth = false ->
  (0 <= int_succ depth < int_max)%Z /\ (int_succ depth = depth + 1)%Z
  /\ (depth + 1 < maxDepth c)%Z.
Proof.
  intros Hint Hdepth Hbounds. unfold Sequential.out_of_bounds in Hbounds.
  apply orb_false_iff in Hbounds as [Hdeep _]. apply Z.leb_gt in Hdeep.
  rewrite int_succ_small in *; unfold is_int, int_min, int_max in *; lia.
Qed.

Lemma seq_each_fuel (recur : URL -> Z -> Sequential.State -> Sequential.outcome result)
      (depth : Z) :
  (forall href st, Sequential.out_of_bounds c href depth = false ->
                   recur href (int_succ depth) st <> Sequential.OutOfFuel) ->
  forall hrefs tree st,
    Sequential.each c recur depth hrefs tree st <> Sequential.OutOfFuel.
Proof.
  intros Hrecur. induction hrefs as [|href rest IH]; intros tree st; simpl; [discriminate|].
  destruct (Sequential.EnsureContains href (Sequential.visited st)) as [[[|] v]|];
    [apply IH| |discriminate].
  destruct (Sequential.out_of_bounds c href depth) eqn:Hbounds; [apply IH|].
  specialize (Hrecur href (Sequential.marked st v) Hbounds).
  destruct (recur href (int_succ depth) (Sequential.marked st v)) as [[sub [err|]] st'|st'|];
    [discriminate|apply IH|discriminate|contradiction].
Qed.

(** [crawl] ends when the fuel covers the depth that is left *)
Lemma seq_crawl_fuel (fuel : nat) :
  forall pageURL depth st,
    is_int (maxDepth c) -> (0 <= depth < int_max)%Z ->
    (0 < fuel)%nat -> (Z.to_nat (maxDepth c - depth) <= fuel)%nat ->
    Sequential.crawl c w fuel pageURL depth st <> Sequential.OutOfFuel.
Proof.
  induction fuel as [|fuel IH]; intros pageURL depth st Hint Hdepth Hpos Hfuel; [lia|].
  simpl.
  destruct (limiter_Wait w (Sequential.waits st)); [discriminate|].
  destruct (client_Get w (URL_String pageURL)) as [|page]; [discriminate|].
  destruct (Sequential.uniqueLinksInPage w page pageURL) as [[|hrefs]|];
    [discriminate| |discriminate].
  apply seq_each_fuel. intros href st' Hbounds.
  destruct (seq_in_bounds href depth Hint Hdepth Hbounds) as (Hrange & Hsucc & Hdeep).
  apply IH; try assumption; lia.
Qed.


Lemma seq_Run_cases (fuel : nat) (st : Sequential.State) :
  (Sequential.EnsureContains (root c) (Sequential.visited st) = None
   /\ Sequential.Run c w fuel st = Sequential.Panic st)
  \/ (exists existed v,
         Sequential.EnsureContains (root c) (Sequential.visited st) = Some (existed, v)
         /\ Sequential.Run c w fuel st
            = Sequential.crawl c w fuel (root c) 0 (Sequential.marked st v)).
Proof.
  unfold Sequential.Run.
  destruct (Sequential.EnsureContains (root c) (Sequential.visited st)) as [[existed v]|].
  - right. eauto.
  - left. split; reflexivity.
Qed.

(** *** What a crawl leaves of the state *)

Lemma grows_refl (st : Sequential.State) : grows st st [].
Proof. unfold grows. rewrite app_nil_r. repeat split; [set_solver|lia]. Qed.

Lemma grows_trans (st1 st2 st3 : Sequential.State) (new1 new2 : list (URL * Z)) :
  grows st1 st2 new1 -> grows st2 st3 new2 -> grows st1 st3 (new1 ++ new2).
Proof.
  intros (Hv1 & Hw1 & Hf1) (Hv2 & Hw2 & Hf2). repeat split.
  - set_solver.
  - lia.
  - rewrite Hf2, Hf1, app_assoc. reflexivity.
Qed.

Lemma grows_new_unique (st st' : Sequential.State) (new new' : list (URL * Z)) :
  grows st st' new -> grows st st' new' -> new = new'.
Proof.
  intros (_ & _ & H1) (_ & _ & H2). rewrite H1 in H2. eapply app_inv_head, H2.
Qed.

Lemma grows_marked (st : Sequential.State) (href : URL) (existed : bool) (v : gset string) :
  Sequential.EnsureContains href (Sequential.visited st) = Some (existed, v) ->
  grows st (Sequential.marked st v) [].
Proof.
  intros Hcall. destruct (seq_EnsureContains_inv _ _ _ _ Hcall) as (k & _ & _ & ->).
  unfold grows. simpl. rewrite app_nil_r. repeat split; [set_solver|lia].
Qed.

Lemma grows_sent (st : Sequential.State) (pageURL : URL) (depth : Z) :
  grows st (Sequential.sent st pageURL depth) [(pageURL, depth)].
Proof. unfold grows. simpl. repeat split; [set_solver|lia]. Qed.

Lemma grows_waited (st : Sequential.State) : grows st (Sequential.waited st) [].
Proof. unfold grows. simpl. rewrite app_nil_r. repeat split; [set_solver|lia]. Qed.

Lemma seq_uniqueLinksInPage_ok (page : Body w) (pageURL : URL) (hrefs : list URL) :
  Sequential.uniqueLinksInPage w page pageURL = Some (inr hrefs) ->
  exists doc, html_Parse w page = inr doc /\ Sequential.links_of doc pageURL = Some hrefs.
Proof.
  unfold Sequential.uniqueLinksInPage.
  destruct (html_Parse w page) as [cause|doc]; [discriminate|].
  destruct (Sequential.links_of doc pageURL) as [links|] eqn:Hlinks; [|discriminate].
  intros Heq. inversion Heq; subst. exists doc. split; [reflexivity|assumption].
Qed.

(** the requests a crawl sends, its own apart, are for URLs whose key was
    not in the visited set when it began *)
Lemma seq_crawl_fresh :
  (forall pageURL depth st o,
      Sequential.crawl_to c w pageURL depth st o ->
      forall st', Sequential.state_of o = Some st' ->
      exists new, grows st st' new
                  /\ forall u d, (u, d) ∈ new ->
                                 (u, d) = (pageURL, depth)
                                 \/ exists k, Sequential.withoutScheme u = Some k
                                              /\ k ∉ Sequential.visited st)
  /\ (forall depth hrefs tree st o,
         Sequential.each_to c w depth hrefs tree st o ->
         forall st', Sequential.state_of o = Some st' ->
         exists new, grows st st' new
                     /\ forall u d, (u, d) ∈ new ->
                                    exists k, Sequential.withoutScheme u = Some k
                                              /\ k ∉ Sequential.visited st).
Proof.
  apply Sequential.crawl_each_ind; simpl.
  - intros pageURL depth st err Hwait st' Hst. inversion Hst; subst.
    exists []. split; [apply grows_waited|]. intros u d Hin. inversion Hin.
  - intros pageURL depth st err Hwait Hget st' Hst. inversion Hst; subst.
    exists [(pageURL, depth)]. split; [apply grows_sent|].
    intros u d Hin. apply list_elem_of_singleton in Hin. left. assumption.
  - intros pageURL depth st page Hwait Hget Hlinks st' Hst. inversion Hst; subst.
    exists [(pageURL, depth)]. split; [apply grows_sent|].
    intros u d Hin. apply list_elem_of_singleton in Hin. left. assumption.
  - intros pageURL depth st page err Hwait Hget Hlinks st' Hst. inversion Hst; subst.
    exists [(pageURL, depth)]. split; [apply grows_sent|].
    intros u d Hin. apply list_elem_of_singleton in Hin. left. assumption.
  - intros pageURL depth st page hrefs o Hwait Hget Hlinks _ IH st' Hst.
    destruct (IH _ Hst) as (new & Hgrows & Hnew).
    exists ([(pageURL, depth)] ++ new). split.
    { eapply grows_trans; [apply grows_sent|eassumption]. }
    intros u d Hin. apply elem_of_app in Hin as [Hin|Hin].
    + apply list_elem_of_singleton in Hin. left. assumption.
    + right. apply (Hnew _ _ Hin).
  - intros depth tree st st' Hst. inversion Hst; subst.
    exists []. split; [apply grows_refl|]. intros u d Hin. inversion Hin.
  - intros depth href rest tree st Hcall st' Hst. inversion Hst; subst.
    exists []. split; [apply grows_refl|]. intros u d Hin. inversion Hin.
  - intros depth href rest tree st v o Hcall _ IH st' Hst.
    destruct (IH _ Hst) as (new & Hgrows & Hnew).
    pose proof (grows_marked _ _ _ _ Hcall) as Hmark.
    exists ([] ++ new). split; [eapply grows_trans; eassumption|].
    intros u d Hin. destruct (Hnew _ _ Hin) as (k & Hk & Hout).
    exists k. split; [assumption|]. destruct Hmark as (Hsub & _). set_solver.
  - intros depth href rest tree st v o Hcall Hbounds _ IH st' Hst.
    destruct (IH _ Hst) as (new & Hgrows & Hnew).
    pose proof (grows_marked _ _ _ _ Hcall) as Hmark.
    exists ([] ++ new). split; [eapply grows_trans; eassumption|].
    intros u d Hin. destruct (Hnew _ _ Hin) as (k & Hk & Hout).
    exists k. split; [assumption|]. destruct Hmark as (Hsub & _). set_solver.
  - intros depth href rest tree st v sub st1 o Hcall Hbounds _ IHsub _ IH st' Hst.
    destruct (IHsub _ eq_refl) as (new1 & Hgrows1 & Hnew1).
    destruct (IH _ Hst) as (new2 & Hgrows2 & Hnew2).
    pose proof (grows_marked _ _ _ _ Hcall) as Hmark.
    destruct (seq_EnsureContains_inv _ _ _ _ Hcall) as (k0 & Hk0 & Hex & Hv).
    exists ([] ++ new1 ++ new2). split.
    { eapply grows_trans; [eassumption|]. eapply grows_trans; eassumption. }
    intros u d Hin. simpl in Hin. apply elem_of_app in Hin as [Hin|Hin].
    + destruct (Hnew1 _ _ Hin) as [Heq|(k & Hk & Hout)].
      * inversion Heq; subst. exists k0. split; [assumption|].
        intros Hk. apply Hex in Hk. discriminate.
      * exists k. split; [assumption|]. simpl in Hout. set_solver.
    + destruct (Hnew2 _ _ Hin) as (k & Hk & Hout). exists k. split; [assumption|].
      destruct Hmark as (Hsub & _). destruct Hgrows1 as (Hsub1 & _). set_solver.
  - intros depth href rest tree st v partial err st1 Hcall Hbounds _ IHsub st' Hst.
    inversion Hst; subst.
    destruct (IHsub _ eq_refl) as (new1 & Hgrows1 & Hnew1).
    pose proof (grows_marked _ _ _ _ Hcall) as Hmark.
    destruct (seq_EnsureContains_inv _ _ _ _ Hcall) as (k0 & Hk0 & Hex & Hv).
    exists ([] ++ new1). split; [eapply grows_trans; eassumption|].
    intros u d Hin. destruct (Hnew1 _ _ Hin) as [Heq|(k & Hk & Hout)].
    + inversion Heq; subst. exists k0. split; [assumption|].
      intros Hk. apply Hex in Hk. discriminate.
    + exists k. split; [assumption|]. simpl in Hout. set_solver.
  - intros depth href rest tree st v st1 Hcall Hbounds _ IHsub st' Hst.
    inversion Hst; subst.
    destruct (IHsub _ eq_refl) as (new1 & Hgrows1 & Hnew1).
    pose proof (grows_marked _ _ _ _ Hcall) as Hmark.
    destruct (seq_EnsureContains_inv _ _ _ _ Hcall) as (k0 & Hk0 & Hex & Hv).
    exists ([] ++ new1). split; [eapply grows_trans; eassumption|].
    intros u d Hin. destruct (Hnew1 _ _ Hin) as [Heq|(k & Hk & Hout)].
    + inversion Heq; subst. exists k0. split; [assumption|].
      intros Hk. apply Hex in Hk. discriminate.
    + exists k. split; [assumption|]. simpl in Hout. set_solver.
Qed.

Lemma seq_crawl_grows :
  (forall pageURL depth st o,
      Sequential.crawl_to c w pageURL depth st o ->
      forall st', Sequential.state_of o = Some st' -> exists new, grows st st' new)
  /\ (forall depth hrefs tree st o,
         Sequential.each_to c w depth hrefs tree st o ->
         forall st', Sequential.state_of o = Some st' -> exists new, grows st st' new).
Proof.
  split.
  - intros pageURL depth st o Hrun st' Hst.
    destruct (proj1 seq_crawl_fresh _ _ _ _ Hrun _ Hst) as (new & Hgrows & _). eauto.
  - intros depth hrefs tree st o Hrun st' Hst.
    destruct (proj2 seq_crawl_fresh _ _ _ _ _ Hrun _ Hst) as (new & Hgrows & _). eauto.
Qed.

End SequentialCrawl.

Section SequentialResults.
Context `{NetURL}.
Variable c : Crawler.
Variable w : World.

Lemma seq_all_well_marked (st : Sequential.State) (v : gset string) :
  Sequential.all_well w st -> Sequential.all_well w (Sequential.marked st v).
Proof. intros Hwell. exact Hwell. Qed.

Lemma seq_all_well_sent (st : Sequential.State) (pageURL : URL) (depth : Z)
      (page : Body w) (hrefs : list URL) :
  limiter_Wait w (Sequential.waits st) = None ->
  client_Get w (URL_String pageURL) = inr page ->
  Sequential.uniqueLinksInPage w page pageURL = Some (inr hrefs) ->
  Sequential.all_well w st -> Sequential.all_well w (Sequential.sent st pageURL depth).
Proof.
  intros Hwait Hget Hlinks [Hwaits Hpages]. split; simpl.
  - intros n Hn. destruct (decide (n = Sequential.waits st)) as [->|Hne]; [assumption|].
    apply Hwaits. lia.
  - intros u d Hin. apply elem_of_app in Hin as [Hin|Hin]; [eauto|].
    apply list_elem_of_singleton in Hin. inversion Hin; subst.
    destruct (seq_uniqueLinksInPage_ok w _ _ _ Hlinks) as (doc & Hdoc & _). eauto.
Qed.

(** What a crawl returns: with an error, the nil tree; without, a tree
    with one entry for each link of the page, in their order, after a run
    in which no request and no parse failed; and every link of the page is
    then in the visited set. *)
Lemma seq_crawl_result :
  (forall pageURL depth st o,
      Sequential.crawl_to c w pageURL depth st o ->
      forall t e st', o = Sequential.Return (t, e) st' ->
        (e <> None -> t = Sequential.UNil)
        /\ (e = None ->
            exists hrefs es,
              Sequential.page_links w pageURL hrefs
              /\ t = Sequential.UMap es /\ map fst es = hrefs
              /\ (Sequential.all_well w st -> Sequential.all_well w st')
              /\ forall href, href ∈ hrefs ->
                              exists k, Sequential.withoutScheme href = Some k
                                        /\ k ∈ Sequential.visited st'))
  /\ (forall depth hrefs tree st o,
         Sequential.each_to c w depth hrefs tree st o ->
         forall t e st', o = Sequential.Return (t, e) st' ->
           (e <> None -> t = Sequential.UNil)
           /\ (e = None ->
               exists es,
                 t = Sequential.UMap (tree ++ es) /\ map fst es = hrefs
                 /\ (Sequential.all_well w st -> Sequential.all_well w st')
                 /\ forall href, href ∈ hrefs ->
                                 exists k, Sequential.withoutScheme href = Some k
                                           /\ k ∈ Sequential.visited st')).
Proof.
  apply Sequential.crawl_each_ind.
  - intros pageURL depth st err Hwait t e st' Heq. inversion Heq; subst.
    split; [reflexivity|discriminate].
  - intros pageURL depth st err Hwait Hget t e st' Heq. inversion Heq; subst.
    split; [reflexivity|discriminate].
  - intros pageURL depth st page Hwait Hget Hlinks t e st' Heq. discriminate.
  - intros pageURL depth st page err Hwait Hget Hlinks t e st' Heq. inversion Heq; subst.
    split; [reflexivity|discriminate].
  - intros pageURL depth st page hrefs o Hwait Hget Hlinks _ IH t e st' Heq.
    destruct (IH _ _ _ Heq) as [Herr Hok]. split; [assumption|].
    intros He. destruct (Hok He) as (es & Ht & Hmap & Hwell & Hkeys).
    exists hrefs, es. split; [exists page; split; assumption|].
    conj_split; try assumption; try reflexivity.
    intros Hst. apply Hwell. eapply seq_all_well_sent; eassumption.
  - intros depth tree st t e st' Heq. inversion Heq; subst.
    split; [congruence|]. intros _. exists []. rewrite app_nil_r.
    conj_split; try tauto. intros href Hin. inversion Hin.
  - intros depth href rest tree st Hcall t e st' Heq. discriminate.
  - intros depth href rest tree st v o Hcall Hrun IH t e st' Heq.
    destruct (IH _ _ _ Heq) as [Herr Hok]. split; [assumption|].
    intros He. destruct (Hok He) as (es & Ht & Hmap & Hwell & Hkeys).
    exists ((href, Sequential.UNil) :: es).
    rewrite <- app_assoc in Ht. simpl in *. subst.
    conj_split; try assumption; try reflexivity.
    intros h Hin. apply elem_of_cons in Hin as [-> | Hin]; [|auto].
    destruct (seq_EnsureContains_inv _ _ _ _ Hcall) as (k0 & Hk0 & _ & ->).
    exists k0. split; [assumption|].
    destruct (proj2 (seq_crawl_grows c w) _ _ _ _ _ Hrun st' eq_refl) as (new & Hsub & _).
    simpl in Hsub. set_solver.
  - intros depth href rest tree st v o Hcall Hbounds Hrun IH t e st' Heq.
    destruct (IH _ _ _ Heq) as [Herr Hok]. split; [assumption|].
    intros He. destruct (Hok He) as (es & Ht & Hmap & Hwell & Hkeys).
    exists ((href, Sequential.UNil) :: es).
    rewrite <- app_assoc in Ht. simpl in *. subst.
    conj_split; try assumption; try reflexivity.
    intros h Hin. apply elem_of_cons in Hin as [-> | Hin]; [|auto].
    destruct (seq_EnsureContains_inv _ _ _ _ Hcall) as (k0 & Hk0 & _ & ->).
    exists k0. split; [assumption|].
    destruct (proj2 (seq_crawl_grows c w) _ _ _ _ _ Hrun st' eq_refl) as (new & Hsub & _).
    simpl in Hsub. set_solver.
  - intros depth href rest tree st v sub st1 o Hcall Hbounds Hsubrun IHsub Hrun IH
           t e st' Heq.
    destruct (IH _ _ _ Heq) as [Herr Hok]. split; [assumption|].
    intros He. destruct (Hok He) as (es & Ht & Hmap & Hwell & Hkeys).
    destruct (IHsub _ _ _ eq_refl) as [_ Hsubok].
    destruct (Hsubok eq_refl) as (_ & _ & _ & _ & _ & Hsubwell & _).
    exists ((href, sub) :: es).
    rewrite <- app_assoc in Ht. simpl in *. subst.
    conj_split; try assumption; try reflexivity.
    + intros Hst. apply Hwell, Hsubwell, Hst.
    + intros h Hin. apply elem_of_cons in Hin as [-> | Hin]; [|auto].
      destruct (seq_EnsureContains_inv _ _ _ _ Hcall) as (k0 & Hk0 & _ & ->).
      exists k0. split; [assumption|].
      destruct (proj1 (seq_crawl_grows c w) _ _ _ _ Hsubrun st1 eq_refl)
        as (new1 & Hsub1 & _).
      destruct (proj2 (seq_crawl_grows c w) _ _ _ _ _ Hrun st' eq_refl)
        as (new2 & Hsub2 & _).
      simpl in Hsub1. set_solver.
  - intros depth href rest tree st v partial err st1 Hcall Hbounds _ IHsub t e st' Heq.
    inversion Heq; subst. split; [reflexivity|discriminate].
  - intros depth href rest tree st v st1 Hcall Hbounds _ IHsub t e st' Heq. discriminate.
Qed.

(** *** Depth *)


Lemma occurs_at_cons (n : nat) (u : URL) (sub : Sequential.URLTree)
      (href : URL) (t : Sequential.URLTree) (es : list (URL * Sequential.URLTree)) :
  Sequential.occurs_at n u sub (Sequential.UMap ((href, t) :: es)) ->
  (n = 1%nat /\ u = href /\ sub = t)
  \/ (exists m, n = S m /\ Sequential.occurs_at m u sub t)
  \/ Sequential.occurs_at n u sub (Sequential.UMap es).
Proof.
  intros Hocc. inversion Hocc as [? ? ? Hin|? v t' m ? ? Hin Hbelow]; subst.
  - apply elem_of_cons in Hin as [Heq|Hin].
    + inversion Heq; subst. left. auto.
    + right. right. constructor. assumption.
  - apply elem_of_cons in Hin as [Heq|Hin].
    + inversion Heq; subst. right. left. eauto.
    + right. right. econstructor; eassumption.
Qed.


End SequentialResults.

(** ** The concurrent crawl *)

Section ConcurrentCrawl.
Context `{NetURL}.
Variable c : Crawler.
Variable w : World.

(** *** The beginning of a crawl *)

Lemma conc_crawl_begin_cases (u : URL) (depth : Z) (sh sh' : Concurrent.Shared)
      (t : Concurrent.task) :
  Concurrent.crawl_begin c w u depth sh = Some (t, sh') -> begun c w u depth sh t sh'.
Proof.
  unfold Concurrent.crawl_begin.
  destruct (Concurrent.urlWithoutScheme u) as [k|] eqn:Hk; [|discriminate].
  unfold Concurrent.EnsureContains.
  destruct (decide (k ∈ Concurrent.visited sh)) as [Hin|Hout].
  { intros Heq. inversion Heq; subst. eapply begun_visited; eassumption. }
  destruct (Concurrent.out_of_bounds c u depth) eqn:Hbounds.
  { intros Heq. inversion Heq; subst. eapply begun_bounds; eassumption. }
  destruct (limiter_Wait w (Concurrent.waits sh)) as [e|] eqn:Hwait.
  { intros Heq. inversion Heq; subst. eapply begun_wait_error; eassumption. }
  destruct (client_Get w (URL_String u)) as [e|page] eqn:Hget.
  { intros Heq. inversion Heq; subst. eapply begun_get_error; eassumption. }
  destruct (Concurrent.findLinksInPage w page) as [[e|links]|] eqn:Hlinks; [| |discriminate].
  { intros Heq. inversion Heq; subst. eapply begun_links_error; eassumption. }
  destruct (conc_spawn_children c links depth [] (conc_findLinksInPage_parsed _ _ _ Hlinks))
    as (urls & Hurls & Hspawn).
  rewrite Hspawn. simpl. intros Heq. inversion Heq; subst.
  eapply begun_collecting; eassumption.
Qed.

(** [crawl] marks its URL as visited before anything else: whatever it
    does next, the key of the URL is in the set afterwards *)
Lemma conc_begun_marks (u : URL) (depth : Z) (sh sh' : Concurrent.Shared)
      (t : Concurrent.task) :
  begun c w u depth sh t sh' ->
  exists k, Concurrent.urlWithoutScheme u = Some k
            /\ Concurrent.visited sh' = {[ k ]} ∪ Concurrent.visited sh
            /\ Concurrent.crashed sh' = Concurrent.crashed sh.
Proof.
  destruct 1; exists k; simpl; conj_split; try assumption; try reflexivity.
  set_solver.
Qed.

(** a crawl of a URL whose key is in the set returns at once: no request,
    no sub-crawl *)
Lemma conc_begin_visited (u : URL) (depth : Z) (sh : Concurrent.Shared) (k : string) :
  Concurrent.urlWithoutScheme u = Some k -> k ∈ Concurrent.visited sh ->
  Concurrent.crawl_begin c w u depth sh
  = Some (Concurrent.Done Concurrent.LNil,
          Concurrent.mkShared (Concurrent.visited sh) (Concurrent.waits sh)
                              (Concurrent.fetched sh) (Concurrent.crashed sh)).
Proof.
  intros Hk Hin. unfold Concurrent.crawl_begin, Concurrent.EnsureContains. rewrite Hk.
  destruct (decide (k ∈ Concurrent.visited sh)); [reflexivity|contradiction].
Qed.

(** *** Schedules are runs *)

Lemma conc_step_at_sound (m : move) :
  forall sh t sh' t',
    step_at c w m sh t = Some (sh', t') -> Concurrent.step c w (sh, t) (sh', t').
Proof.
  induction m as [| i | | i m IH]; intros sh t sh' t'; destruct t as [u d|tree cs|tr|e bg];
    simpl; try discriminate.
  - destruct (Concurrent.crawl_begin c w u d sh) as [[t0 sh0]|] eqn:Hbegin;
      intros Heq; inversion Heq; subst.
    + apply Concurrent.step_begin. assumption.
    + apply Concurrent.step_panic. assumption.
  - destruct (cs !! i) as [[l [| | sub | e bg]]|] eqn:Hi; try discriminate;
      intros Heq; inversion Heq; subst.
    + rewrite <- (take_drop_middle _ _ _ Hi) at 1. apply Concurrent.step_receive.
    + rewrite <- (take_drop_middle _ _ _ Hi) at 1. apply Concurrent.step_receive_error.
  - destruct cs; [|discriminate]. intros Heq. inversion Heq; subst.
    apply Concurrent.step_closed.
  - destruct (cs !! i) as [[l t0]|] eqn:Hi; [|discriminate].
    destruct (step_at c w m sh t0) as [[sh0 t1]|] eqn:Hstep; [|discriminate].
    intros Heq. inversion Heq; subst.
    rewrite <- (take_drop_middle _ _ _ Hi) at 1. apply Concurrent.step_child.
    apply IH. assumption.
  - destruct (bg !! i) as [t0|] eqn:Hi; [|discriminate].
    destruct (step_at c w m sh t0) as [[sh0 t1]|] eqn:Hstep; [|discriminate].
    intros Heq. inversion Heq; subst.
    rewrite <- (take_drop_middle _ _ _ Hi) at 1. apply Concurrent.step_background.
    apply IH. assumption.
Qed.

Lemma conc_run_moves_sound (ms : list move) :
  forall st st', run_moves c w ms st = Some st' -> Concurrent.steps c w st st'.
Proof.
  induction ms as [|m ms IH]; intros [sh t] st'; simpl.
  - intros Heq. inversion Heq; subst. apply rtc_refl.
  - destruct (Concurrent.crashed sh) eqn:Hcrashed; [discriminate|].
    destruct (step_at c w m sh t) as [[sh1 t1]|] eqn:Hstep; [|discriminate].
    intros Hrest. eapply rtc_l; [|apply IH; eassumption].
    split; [assumption|]. eapply conc_step_at_sound. eassumption.
Qed.

(** *** What a step leaves of the shared state *)

Lemma conc_begun_grows (u : URL) (depth : Z) (sh sh' : Concurrent.Shared)
      (t : Concurrent.task) :
  begun c w u depth sh t sh' -> step_grows sh sh'.
Proof.
  destruct 1; unfold step_grows; simpl; conj_split; try set_solver; try lia;
    try (left; reflexivity);
    right; exists u, depth, k; conj_split; try assumption; try reflexivity; set_solver.
Qed.

Lemma conc_step_grows (a b : Concurrent.Shared * Concurrent.task) :
  Concurrent.step c w a b -> step_grows (fst a) (fst b).
Proof.
  induction 1; simpl in *; try assumption;
    try (unfold step_grows, Concurrent.crash; simpl; conj_split;
         [set_solver|lia|left; reflexivity]).
  eapply conc_begun_grows, conc_crawl_begin_cases. eassumption.
Qed.

(** the requests sent in a run are for URLs whose keys were not in the
    visited set at its start *)
Lemma conc_steps_fresh (a b : Concurrent.Shared * Concurrent.task) :
  Concurrent.steps c w a b ->
  Concurrent.visited (fst a) ⊆ Concurrent.visited (fst b)
  /\ exists new,
      Concurrent.fetched (fst b) = Concurrent.fetched (fst a) ++ new
      /\ forall u d, (u, d) ∈ new ->
                     exists k, Concurrent.urlWithoutScheme u = Some k
                               /\ k ∉ Concurrent.visited (fst a).
Proof.
  induction 1 as [a|a b0 b [_ Hstep] _ (Hsub & new & Hnew & Hfresh)].
  - split; [set_solver|]. exists []. rewrite app_nil_r. split; [reflexivity|].
    intros u d Hin. inversion Hin.
  - destruct (conc_step_grows _ _ Hstep) as (Hv & _ & [Hsame|(u & d & k & Hone & Hk & Hout & _)]).
    + split; [set_solver|]. exists new. rewrite Hnew, Hsame. split; [reflexivity|].
      intros u d Hin. destruct (Hfresh _ _ Hin) as (k & Hk & Hout).
      exists k. split; [assumption|set_solver].
    + split; [set_solver|]. exists ((u, d) :: new).
      rewrite Hnew, Hone, <- app_assoc. split; [reflexivity|].
      intros u' d' Hin. apply elem_of_cons in Hin as [Heq|Hin].
      * inversion Heq; subst. eauto.
      * destruct (Hfresh _ _ Hin) as (k' & Hk' & Hout').
        exists k'. split; [assumption|set_solver].
Qed.

End ConcurrentCrawl.

Section ConcurrentDepth.
Context `{NetURL}.
Variable c : Crawler.
Variable w : World.
Variable url : URL.

Lemma conc_in_bounds (u : URL) (depth : Z) :
  is_int (maxDepth c) -> (0 <= depth <= maxDepth c)%Z ->
  Concurrent.out_of_bounds c u depth = false ->
  (depth < maxDepth c)%Z /\ int_succ depth = (depth + 1)%Z.
Proof.
  intros Hint Hdepth Hbounds. unfold Concurrent.out_of_bounds in Hbounds.
  apply orb_false_iff in Hbounds as [Hdeep _]. apply Z.eqb_neq in Hdeep.
  split; [lia|]. apply int_succ_small. unfold is_int, int_min, int_max in *. lia.
Qed.

Lemma conc_begun_depth (u : URL) (depth : Z) (sh sh' : Concurrent.Shared)
      (t : Concurrent.task) :
  is_int (maxDepth c) ->
  begun c w u depth sh t sh' ->
  depth_ok c w url u depth -> requests_ok c w url sh ->
  Concurrent.pending (depth_ok c w url) t /\ requests_ok c w url sh'.
Proof.
  intros Hint Hbegun [Hdepth Hhops] Hreq.
  assert (forall k, Concurrent.out_of_bounds c u depth = false ->
                    requests_ok c w url
                      (Concurrent.mkShared k (S (Concurrent.waits sh))
                         (Concurrent.fetched sh ++ [(u, depth)]) (Concurrent.crashed sh)))
    as Hsent.
  { intros k Hbounds u' d' Hin. simpl in Hin. apply elem_of_app in Hin as [Hin|Hin].
    - apply Hreq. assumption.
    - apply list_elem_of_singleton in Hin. inversion Hin; subst.
      destruct (conc_in_bounds _ _ Hint Hdepth Hbounds). split; [lia|assumption]. }
  destruct Hbegun.
  - split; [constructor|exact Hreq].
  - split; [constructor|exact Hreq].
  - split; [constructor; constructor|exact Hreq].
  - split; [constructor; constructor|auto].
  - split; [constructor; constructor|auto].
  - split; [|auto]. constructor. unfold children_of. apply Forall_fmap, Forall_forall.
    intros v Hv. simpl. constructor.
    destruct (conc_in_bounds _ _ Hint Hdepth H2) as [Hlt Hsucc].
    rewrite Hsucc. split; [lia|].
    rewrite Z2Nat.inj_add by lia. rewrite Nat.add_1_r.
    apply list_elem_of_lookup in Hv as [i Hi].
    destruct (Forall2_lookup_r _ _ _ _ _ H6 Hi) as (l & Hl & Hparse).
    eapply Concurrent.hops_link; [eassumption| |eapply list_elem_of_lookup_2; eassumption|
                                  eassumption].
    exists page. split; assumption.
Qed.

(** Every crawl that has not begun is within the bound and every request
    was sent within it: a step keeps this. *)
Lemma conc_step_depth (a b : Concurrent.Shared * Concurrent.task) :
  is_int (maxDepth c) ->
  Concurrent.step c w a b ->
  Concurrent.pending (depth_ok c w url) (snd a) -> requests_ok c w url (fst a) ->
  Concurrent.pending (depth_ok c w url) (snd b) /\ requests_ok c w url (fst b).
Proof.
  intros Hint Hstep. induction Hstep; simpl in *; intros Hpending Hreq.
  - inversion Hpending; subst.
    eapply conc_begun_depth; try eassumption. apply conc_crawl_begin_cases. assumption.
  - split; assumption.
  - split; [|assumption]. inversion Hpending as [|? ? Hall| |]; subst.
    constructor. apply Forall_app in Hall as [Hbefore Hafter].
    apply Forall_cons in Hafter as [_ Hafter]. apply Forall_app. split; assumption.
  - split; [|assumption]. inversion Hpending as [|? ? Hall| |]; subst.
    apply Forall_app in Hall as [Hbefore Hafter].
    apply Forall_cons in Hafter as [Hfailed Hafter]. simpl in Hfailed.
    inversion Hfailed; subst.
    constructor. apply Forall_app. split; [|assumption].
    apply Forall_fmap. apply Forall_app. split; assumption.
  - split; [constructor|assumption].
  - inversion Hpending as [|? ? Hall| |]; subst.
    apply Forall_app in Hall as [Hbefore Hafter].
    apply Forall_cons in Hafter as [Ht Hafter]. simpl in Ht.
    destruct (IHHstep Ht Hreq) as [Ht' Hreq']. split; [|assumption].
    constructor. apply Forall_app. split; [assumption|].
    apply Forall_cons. split; assumption.
  - inversion Hpending as [| | |? ? Hall]; subst.
    apply Forall_app in Hall as [Hbefore Hafter].
    apply Forall_cons in Hafter as [Ht Hafter].
    destruct (IHHstep Ht Hreq) as [Ht' Hreq']. split; [|assumption].
    constructor. apply Forall_app. split; [assumption|].
    apply Forall_cons. split; assumption.
Qed.

Lemma conc_steps_depth (a b : Concurrent.Shared * Concurrent.task) :
  is_int (maxDepth c) ->
  Concurrent.steps c w a b ->
  Concurrent.pending (depth_ok c w url) (snd a) -> requests_ok c w url (fst a) ->
  Concurrent.pending (depth_ok c w url) (snd b) /\ requests_ok c w url (fst b).
Proof.
  intros Hint Hsteps. induction Hsteps as [|a b0 b [_ Hstep] _ IH]; [auto|].
  intros Hpending Hreq.
  destruct (conc_step_depth _ _ Hint Hstep Hpending Hreq). auto.
Qed.

End ConcurrentDepth.

Section ConcurrentTrees.
Context `{NetURL}.
Variable c : Crawler.
Variable w : World.

Lemma requested_mono (sh sh' : Concurrent.Shared) (key : string) :
  step_grows sh sh' -> requested sh key -> requested sh' key.
Proof.
  intros (_ & _ & Hlog) (u & d & Hin & Hkey). exists u, d. split; [|assumption].
  destruct Hlog as [->|(u' & d' & k & -> & _)]; [assumption|].
  apply elem_of_app. left. assumption.
Qed.

Lemma tree_requested_mono (sh sh' : Concurrent.Shared) (t : Concurrent.LinkTree) :
  step_grows sh sh' -> tree_requested sh t -> tree_requested sh' t.
Proof.
  intros Hgrows Htree n key sub Hocc Hsub.
  eapply requested_mono; [eassumption|]. eapply Htree; eassumption.
Qed.

Lemma label_ok_mono (sh sh' : Concurrent.Shared) (l : string) (t : Concurrent.task) :
  step_grows sh sh' -> label_ok sh l t -> label_ok sh' l t.
Proof.
  intros Hgrows. destruct t; simpl; auto.
  - apply requested_mono. assumption.
  - intros Hl Hne. eapply requested_mono; eauto.
Qed.

Lemma sound_mono (sh sh' : Concurrent.Shared) (t : Concurrent.task) :
  step_grows sh sh' -> sound sh t -> sound sh' t.
Proof.
  intros Hgrows. induction t as [u d|tree cs IH|tr|e bg IH] using task_children_ind;
    intros Hsound.
  - constructor.
  - inversion Hsound as [|? ? Htree Hall| |]; subst. constructor.
    + eapply tree_requested_mono; eassumption.
    + clear Hsound Htree. induction Hall as [|ch cs [Hch Hlabel] _ IHall]; [constructor|].
      inversion IH; subst. constructor; [|apply IHall; assumption].
      split; [auto|]. eapply label_ok_mono; eassumption.
  - inversion Hsound; subst. constructor. eapply tree_requested_mono; eassumption.
  - inversion Hsound as [| | |? ? Hall]; subst. constructor.
    clear Hsound. induction Hall as [|t0 ts Ht0 _ IHall]; [constructor|].
    inversion IH; subst. constructor; [auto|apply IHall; assumption].
Qed.

Lemma assign_entries (l : string) (sub : Concurrent.LinkTree)
      (tree : list (string * Concurrent.LinkTree)) (k : string) (v : Concurrent.LinkTree) :
  (k, v) ∈ Concurrent.assign l sub tree -> (k, v) = (l, sub) \/ (k, v) ∈ tree.
Proof.
  induction tree as [|[k0 v0] tree IH]; simpl.
  - intros Hin. apply list_elem_of_singleton in Hin. left. assumption.
  - destruct (String.eqb l k0).
    + intros Hin. apply elem_of_cons in Hin as [Heq|Hin]; [left; assumption|].
      right. right. assumption.
    + intros Hin. apply elem_of_cons in Hin as [Heq|Hin].
      * right. rewrite Heq. left.
      * destruct (IH Hin) as [Heq|Hin']; [left; assumption|]. right. right. assumption.
Qed.

Lemma assign_not_nil (l : string) (sub : Concurrent.LinkTree)
      (tree : list (string * Concurrent.LinkTree)) :
  Concurrent.assign l sub tree <> [].
Proof.
  destruct tree as [|[k v] tree]; simpl; [discriminate|].
  destruct (String.eqb l k); discriminate.
Qed.

Lemma tree_requested_assign (sh : Concurrent.Shared) (l : string)
      (sub : Concurrent.LinkTree) (tree : list (string * Concurrent.LinkTree)) :
  tree_requested sh (Concurrent.LMap tree) ->
  tree_requested sh sub ->
  (sub <> Concurrent.LNil -> requested sh l) ->
  tree_requested sh (Concurrent.LMap (Concurrent.assign l sub tree)).
Proof.
  intros Htree Hsub Hl n key s Hocc Hs.
  inversion Hocc as [? ? ? Hin|? k t m ? ? Hin Hbelow]; subst.
  - apply assign_entries in Hin as [Heq|Hin].
    + inversion Heq; subst. auto.
    + eapply Htree; [|eassumption]. constructor. eassumption.
  - apply assign_entries in Hin as [Heq|Hin].
    + inversion Heq; subst. eapply Hsub; eassumption.
    + eapply Htree; [|eassumption]. econstructor; eassumption.
Qed.

Lemma conc_begun_sound (u : URL) (depth : Z) (sh sh' : Concurrent.Shared)
      (t : Concurrent.task) :
  begun c w u depth sh t sh' ->
  sound sh' t /\ forall l, l = URL_String u -> label_ok sh' l t.
Proof.
  assert (forall sh0, tree_requested sh0 Concurrent.LNil) as Hnil.
  { intros sh0 n key sub Hocc. inversion Hocc. }
  destruct 1; simpl.
  - split; [constructor; apply Hnil|]. intros l _ Hne. contradiction.
  - split; [constructor; apply Hnil|]. intros l _ Hne. contradiction.
  - split; [constructor; constructor|auto].
  - split; [constructor; constructor|auto].
  - split; [constructor; constructor|auto].
  - split.
    + constructor.
      * intros n key sub Hocc. inversion Hocc as [? ? ? Hin|? ? ? ? ? ? Hin]; inversion Hin.
      * unfold children_of. apply Forall_fmap, Forall_forall. intros v _. simpl.
        split; [constructor|reflexivity].
    + intros l ->. exists u, depth. split; [|reflexivity]. simpl.
      apply elem_of_app. right. apply list_elem_of_singleton. reflexivity.
Qed.

(** The trees built so far hold sub trees of requested pages only: a step
    keeps this. *)
Lemma conc_step_sound (a b : Concurrent.Shared * Concurrent.task) :
  Concurrent.step c w a b ->
  sound (fst a) (snd a) ->
  sound (fst b) (snd b) /\ forall l, label_ok (fst a) l (snd a) -> label_ok (fst b) l (snd b).
Proof.
  intros Hstep. induction Hstep; simpl in *; intros Hsound.
  - apply conc_crawl_begin_cases in H0. apply (conc_begun_sound _ _ _ _ _ H0).
  - split; [|auto]. inversion Hsound; subst. constructor.
  - inversion Hsound as [|? ? Htree Hall| |]; subst.
    apply Forall_app in Hall as [Hbefore Hafter].
    apply Forall_cons in Hafter as [[Hdone Hlabel] Hafter]. simpl in *.
    inversion Hdone; subst. split; [|auto].
    constructor.
    + apply tree_requested_assign; assumption.
    + apply Forall_app. split; assumption.
  - inversion Hsound as [|? ? Htree Hall| |]; subst.
    apply Forall_app in Hall as [Hbefore Hafter].
    apply Forall_cons in Hafter as [[Hfailed _] Hafter]. simpl in *.
    inversion Hfailed as [| | |? ? Hbg]; subst. split; [|auto].
    constructor. apply Forall_app. split; [|assumption].
    apply Forall_fmap. apply Forall_app.
    split; eapply Forall_impl; try eassumption; intros ch [Hch _]; exact Hch.
  - inversion Hsound as [|? ? Htree Hall| |]; subst. split.
    + constructor. assumption.
    + intros l Hl _. exact Hl.
  - inversion Hsound as [|? ? Htree Hall| |]; subst.
    apply Forall_app in Hall as [Hbefore Hafter].
    apply Forall_cons in Hafter as [[Ht Hlabel] Hafter]. simpl in *.
    destruct (IHHstep Ht) as [Ht' Hlabel'].
    pose proof (conc_step_grows c w _ _ Hstep) as Hgrows. simpl in Hgrows.
    split.
    + constructor; [eapply tree_requested_mono; eassumption|].
      apply Forall_app. split.
      * eapply Forall_impl; [eassumption|]. intros ch [Hch Hl].
        split; [eapply sound_mono|eapply label_ok_mono]; eassumption.
      * apply Forall_cons. split; [split; auto|].
        eapply Forall_impl; [eassumption|]. intros ch [Hch Hl].
        split; [eapply sound_mono|eapply label_ok_mono]; eassumption.
    + intros l0. apply requested_mono. assumption.
  - inversion Hsound as [| | |? ? Hall]; subst.
    apply Forall_app in Hall as [Hbefore Hafter].
    apply Forall_cons in Hafter as [Ht Hafter].
    destruct (IHHstep Ht) as [Ht' _].
    pose proof (conc_step_grows c w _ _ Hstep) as Hgrows. simpl in Hgrows.
    split; [|auto]. constructor. apply Forall_app. split.
    + eapply Forall_impl; [eassumption|]. intros t0. apply sound_mono. assumption.
    + apply Forall_cons. split; [assumption|].
      eapply Forall_impl; [eassumption|]. intros t0. apply sound_mono. assumption.
Qed.

Lemma conc_steps_sound (a b : Concurrent.Shared * Concurrent.task) :
  Concurrent.steps c w a b -> sound (fst a) (snd a) -> sound (fst b) (snd b).
Proof.
  intros Hsteps. induction Hsteps as [|a b0 b [_ Hstep] _ IH]; [auto|].
  intros Hsound. apply IH. apply (conc_step_sound _ _ Hstep Hsound).
Qed.

(** *** A failure is never lost *)

Lemma conc_begun_well (u : URL) (depth : Z) (sh sh' : Concurrent.Shared)
      (t : Concurrent.task) :
  begun c w u depth sh t sh' ->
  Concurrent.all_well w sh -> Concurrent.all_well w sh' \/ Concurrent.lost t.
Proof.
  intros Hbegun [Hwaits Hpages]. destruct Hbegun; try (right; constructor).
  - left. split; assumption.
  - left. split; assumption.
  - left. split; simpl.
    + intros n Hn. destruct (decide (n = Concurrent.waits sh)) as [->|Hne]; [assumption|].
      apply Hwaits. lia.
    + intros u' d' Hin. apply elem_of_app in Hin as [Hin|Hin]; [eauto|].
      apply list_elem_of_singleton in Hin. inversion Hin; subst.
      unfold Concurrent.findLinksInPage in H5.
      destruct (html_Parse w page) as [cause|doc] eqn:Hdoc; [discriminate|]. eauto.
Qed.

Lemma lost_child_middle (tree : list (string * Concurrent.LinkTree))
      (before after : list (string * Concurrent.task)) (l : string) (t : Concurrent.task) :
  Concurrent.lost t -> Concurrent.lost (Concurrent.Collecting tree (before ++ (l, t) :: after)).
Proof.
  intros Hlost. eapply Concurrent.lost_child; [|eassumption].
  apply elem_of_app. right. left.
Qed.

Lemma lost_collecting_inv (tree : list (string * Concurrent.LinkTree))
      (before after : list (string * Concurrent.task)) (l : string) (t : Concurrent.task) :
  Concurrent.lost (Concurrent.Collecting tree (before ++ (l, t) :: after)) ->
  Concurrent.lost t
  \/ exists l0 t0, (l0, t0) ∈ before ++ after /\ Concurrent.lost t0.
Proof.
  intros Hlost. inversion Hlost as [|? ? l0 t0 Hin Ht0]; subst.
  apply elem_of_app in Hin as [Hin|Hin].
  - right. exists l0, t0. split; [apply elem_of_app; left; assumption|assumption].
  - apply elem_of_cons in Hin as [Heq|Hin].
    + inversion Heq; subst. left. assumption.
    + right. exists l0, t0. split; [apply elem_of_app; right; assumption|assumption].
Qed.

(** Either every request went through, or the call is lost: a step keeps
    this, and a lost call stays lost. *)
Lemma conc_step_lost (a b : Concurrent.Shared * Concurrent.task) :
  Concurrent.step c w a b ->
  (Concurrent.lost (snd a) -> Concurrent.lost (snd b))
  /\ (Concurrent.all_well w (fst a) -> Concurrent.all_well w (fst b) \/ Concurrent.lost (snd b)).
Proof.
  intros Hstep. induction Hstep; simpl in *.
  - split; [intros Hlost; inversion Hlost|].
    eapply conc_begun_well, conc_crawl_begin_cases. eassumption.
  - split; [auto|]. intros Hwell. left. exact Hwell.
  - split; [|auto]. intros Hlost.
    apply lost_collecting_inv in Hlost as [Hdone|(l0 & t0 & Hin & Ht0)].
    + inversion Hdone.
    + econstructor; eassumption.
  - split; [|intros _; right]; constructor.
  - split; [|auto]. intros Hlost. inversion Hlost as [|? ? ? ? Hin]; subst. inversion Hin.
  - destruct IHHstep as [IHlost IHwell]. split.
    + intros Hlost. apply lost_collecting_inv in Hlost as [Ht|(l0 & t0 & Hin & Ht0)].
      * apply lost_child_middle. auto.
      * eapply Concurrent.lost_child; [|eassumption].
        apply elem_of_app in Hin as [Hin|Hin]; apply elem_of_app; [left|right; right];
          eassumption.
    + intros Hwell. destruct (IHwell Hwell) as [Hwell'|Hlost]; [left; assumption|].
      right. apply lost_child_middle. assumption.
  - split; [intros _; constructor|]. intros _. right. constructor.
Qed.

Lemma conc_steps_lost (a b : Concurrent.Shared * Concurrent.task) :
  Concurrent.steps c w a b ->
  (Concurrent.lost (snd a) -> Concurrent.lost (snd b))
  /\ (Concurrent.all_well w (fst a) -> Concurrent.all_well w (fst b) \/ Concurrent.lost (snd b)).
Proof.
  intros Hsteps. induction Hsteps as [|a b0 b [_ Hstep] _ [IHlost IHwell]]; [auto|].
  destruct (conc_step_lost _ _ Hstep) as [Hlost Hwell]. split; [auto|].
  intros Ha. destruct (Hwell Ha) as [Hb0|Hb0]; [auto|]. right. auto.
Qed.

Lemma lost_returns_error (t : Concurrent.task) (r : Concurrent.LinkTree * option error) :
  Concurrent.lost t -> Concurrent.returned t = Some r ->
  exists e, r = (Concurrent.LNil, Some e).
Proof.
  intros Hlost. destruct Hlost; simpl; [|discriminate].
  intros Heq. inversion Heq. eauto.
Qed.

End ConcurrentTrees.

Section ConcurrentRoot.
Context `{NetURL}.
Variable c : Crawler.
Variable w : World.
Variable url : URL.

Lemma children_of_nil (depth : Z) (links : list string) (urls : list URL) :
  Forall2 (fun l u => Concurrent.parseToAbsURL c l = inr u) links urls ->
  (links = [] <-> ([] : list (string * Concurrent.LinkTree)) = []
                  /\ children_of depth urls = []).
Proof.
  intros Hall. destruct Hall; simpl; split; try tauto; try discriminate.
  intros [_ Hnil]. discriminate.
Qed.

(** What the root call is doing: a step keeps it, when the bound is not 0
    and the URL [Run] starts at is on the host of the root. *)
Lemma conc_step_root (a b : Concurrent.Shared * Concurrent.task) :
  maxDepth c <> 0%Z -> Hostname url = Hostname (root c) ->
  Concurrent.step c w a b -> root_state w url a -> root_state w url b.
Proof.
  intros Hdepth Hhost Hstep Hroot. destruct a as [sh t], b as [sh' t'].
  unfold root_state in *. simpl in *.
  destruct Hroot as [[-> Hempty]|[(tree & cs & links & -> & Hpage & Hiff)
                    |[(es & links & -> & _)|(e & bg & ->)]]]; simpl in *.
  - inversion Hstep as [? ? ? ? ? Hbegin|? ? ? Hbegin| | | | |]; subst.
    + apply conc_crawl_begin_cases in Hbegin.
      destruct Hbegin as [k Hk Hin|k Hk Hout Hbounds| | | |k page links urls Hk Hout Hb Hw Hg Hl Hu].
      * rewrite Hempty in Hin. set_solver.
      * unfold Concurrent.out_of_bounds in Hbounds.
        rewrite Hhost, String.eqb_refl, orb_false_r in Hbounds.
        apply Z.eqb_eq in Hbounds. congruence.
      * right. right. right. eauto.
      * right. right. right. eauto.
      * right. right. right. eauto.
      * right. left. exists [], (children_of 0 urls), links. split; [reflexivity|].
        split; [exists page; split; assumption|]. apply children_of_nil. assumption.
    + left. split; [reflexivity|assumption].
  - inversion Hstep as [| |? ? before l sub after|? ? before l e bg after|
                        |? ? before l t0 after ? t1 Hsub|]; subst.
    + right. left. exists (Concurrent.assign l sub tree), (before ++ after), links.
      split; [reflexivity|]. split; [assumption|]. split.
      * intros Hnil. apply Hiff in Hnil as [_ Hcs]. destruct before; discriminate.
      * intros [Hnil _]. apply assign_not_nil in Hnil. contradiction.
    + right. right. right. eauto.
    + right. right. left. exists tree, links. split; [reflexivity|].
      split; [assumption|]. rewrite Hiff. tauto.
    + right. left. exists tree, (before ++ (l, t1) :: after), links.
      split; [reflexivity|]. split; [assumption|]. split.
      * intros Hnil. apply Hiff in Hnil as [_ Hcs]. destruct before; discriminate.
      * intros [_ Hnil]. destruct before; discriminate.
  - inversion Hstep.
  - inversion Hstep; subst. right. right. right. eauto.
Qed.

Lemma conc_steps_root (a b : Concurrent.Shared * Concurrent.task) :
  maxDepth c <> 0%Z -> Hostname url = Hostname (root c) ->
  Concurrent.steps c w a b -> root_state w url a -> root_state w url b.
Proof.
  intros Hdepth Hhost Hsteps. induction Hsteps as [|a b0 b [_ Hstep] _ IH]; [auto|].
  intros Hroot. apply IH. eapply conc_step_root; eassumption.
Qed.

End ConcurrentRoot.

(** ** The lines of a printed tree *)

Lemma count_lines_app (a b : string) :
  count_lines (a +:+ b) = (count_lines a + count_lines b)%nat.
Proof. induction a as [|x a IH]; simpl; [reflexivity|]. rewrite IH. lia. Qed.

Lemma count_lines_Repeat (n : nat) : count_lines (Repeat "  " n) = 0%nat.
Proof. induction n as [|n IH]; simpl; [reflexivity|]. exact IH. Qed.

Lemma count_lines_concat (l : list string) :
  count_lines (concat_strings l) = list_sum (map count_lines l).
Proof.
  induction l as [|s l IH]; simpl; [reflexivity|]. rewrite count_lines_app, IH. reflexivity.
Qed.

Lemma list_sum_perm (l l' : list nat) : l ≡ₚ l' -> list_sum l = list_sum l'.
Proof. induction 1; simpl; lia. Qed.

Section Lines.
Context `{NetURL}.

Lemma seq_len_zero_links (t : Sequential.URLTree) :
  Sequential.len t = 0%nat -> tree_links t = [].
Proof. destruct t as [|[|e es]]; simpl; [reflexivity|reflexivity|discriminate]. Qed.

Lemma seq_string_none_empty (t : Sequential.URLTree) (indent : nat) (out : string) :
  Sequential.len t = 0%nat -> Sequential.string_ t indent = Some out -> out = "".
Proof.
  destruct t as [|[|e es]]; simpl; [| |discriminate]; intros _ Heq; inversion Heq; reflexivity.
Qed.

(** a printed [URLTree] has one line for each of its links *)
Lemma seq_string_lines (t : Sequential.URLTree) :
  forall indent out,
    Sequential.string_ t indent = Some out ->
    Forall (fun u => count_lines (URL_String u) = 0%nat) (tree_links t) ->
    count_lines out = length (tree_links t).
Proof.
  induction t as [|es IH] using URLTree_entries_ind; intros indent out Hout Hclean.
  { simpl in Hout. inversion Hout. reflexivity. }
  destruct (seq_string_sorted _ _ _ Hout) as (rows & -> & _ & unsorted & Hperm & Hrows).
  rewrite count_lines_concat.
  rewrite <- (list_sum_perm _ _ (Permutation_map count_lines
                                   (Permutation_map (Sequential.print_row indent) Hperm))).
  clear Hperm Hout rows. simpl in Hclean |- *.
  generalize dependent (length es). intros n Hrows.
  induction Hrows as [|[u sub] r es rows (Hlink & _ & Hlen & Htext) _ IHrows];
    simpl in *; [reflexivity|].
  inversion IH as [|? ? IHsub IHes]; subst.
  apply Forall_cons in Hclean as [Hu Hclean].
  apply Forall_app in Hclean as [Hsub Hclean].
  simpl in IHsub. rewrite (IHrows IHes Hclean), length_app.
  unfold Sequential.print_row.
  rewrite !count_lines_app, count_lines_Repeat, Hu, Hlen. simpl.
  destruct (Sequential.len sub =? 0)%nat eqn:Hzero.
  - apply Nat.eqb_eq in Hzero. rewrite (seq_len_zero_links _ Hzero). reflexivity.
  - rewrite (IHsub _ _ Htext Hsub). lia.
Qed.

Lemma conc_len_zero_pages (t : Concurrent.LinkTree) :
  Concurrent.len t = 0%nat -> tree_pages t = [].
Proof. destruct t as [|[|e es]]; simpl; [reflexivity|reflexivity|discriminate]. Qed.

(** a printed [LinkTree] has one line for each of its pages *)
Lemma conc_string_lines (t : Concurrent.LinkTree) :
  forall indent,
    Forall (fun page => count_lines page = 0%nat) (tree_pages t) ->
    count_lines (Concurrent.string_ t indent) = length (tree_pages t).
Proof.
  induction t as [|es IH] using LinkTree_entries_ind; intros indent Hclean; [reflexivity|].
  destruct (conc_string_sorted es indent) as (rows & -> & _ & Hperm).
  rewrite count_lines_concat.
  rewrite (list_sum_perm _ _ (Permutation_map count_lines
                                (Permutation_map (Concurrent.print_row indent) Hperm))).
  clear Hperm rows. simpl in Hclean |- *.
  induction es as [|[page sub] es IHes]; simpl in *; [reflexivity|].
  inversion IH as [|? ? IHsub IHrest]; subst.
  apply Forall_cons in Hclean as [Hpage Hclean].
  apply Forall_app in Hclean as [Hsub Hclean].
  simpl in IHsub. rewrite (IHes IHrest Hclean), length_app.
  unfold Concurrent.print_row. simpl.
  rewrite !count_lines_app, count_lines_Repeat, Hpage. simpl.
  destruct (Concurrent.len sub =? 0)%nat eqn:Hzero.
  - apply Nat.eqb_eq in Hzero. rewrite (conc_len_zero_pages _ Hzero). reflexivity.
  - rewrite ?count_lines_app. simpl. rewrite (IHsub _ Hsub). lia.
Qed.

End Lines.

(** ** The map [collectResults] builds *)

Lemma assign_list_to_map (l : string) (sub : Concurrent.LinkTree)
      (es : list (string * Concurrent.LinkTree)) :
  (list_to_map (Concurrent.assign l sub es) : gmap string Concurrent.LinkTree)
  = <[l := sub]> (list_to_map es).
Proof.
  induction es as [|[k v] es IH]; simpl; [reflexivity|].
  destruct (String.eqb l k) eqn:Heq.
  - apply String.eqb_eq in Heq. subst k. simpl. rewrite insert_insert_eq. reflexivity.
  - apply String.eqb_neq in Heq. simpl. rewrite IH. apply insert_insert_ne. congruence.
Qed.

Lemma assign_keys (l : string) (sub : Concurrent.LinkTree)
      (es : list (string * Concurrent.LinkTree)) :
  map fst (Concurrent.assign l sub es)
  = if decide (l ∈ map fst es) then map fst es else map fst es ++ [l].
Proof.
  induction es as [|[k v] es IH]; simpl.
  - destruct (decide (l ∈ [])) as [Hin|_]; [inversion Hin|reflexivity].
  - destruct (String.eqb l k) eqn:Heq.
    + apply String.eqb_eq in Heq. subst k. simpl.
      destruct (decide (l ∈ l :: map fst es)) as [_|Hout]; [reflexivity|].
      exfalso. apply Hout. left.
    + apply String.eqb_neq in Heq. simpl. rewrite IH.
      destruct (decide (l ∈ map fst es)) as [Hin|Hout];
        destruct (decide (l ∈ k :: map fst es)) as [Hin'|Hout']; try reflexivity.
      * exfalso. apply Hout'. right. assumption.
      * apply elem_of_cons in Hin' as [->|Hin']; contradiction.
Qed.

Lemma assign_NoDup (l : string) (sub : Concurrent.LinkTree)
      (es : list (string * Concurrent.LinkTree)) :
  NoDup (map fst es) -> NoDup (map fst (Concurrent.assign l sub es)).
Proof.
  intros Hnd. rewrite assign_keys. destruct (decide (l ∈ map fst es)) as [Hin|Hout];
    [assumption|].
  apply NoDup_app. conj_split; [assumption| |apply NoDup_singleton].
  intros x Hx Hx'. apply list_elem_of_singleton in Hx'. subst x. contradiction.
Qed.

(** without an error among them, [collectResults] stores every result *)
Lemma collect_stored (arrivals : list Concurrent.result) :
  forall tree0,
    Forall (fun r => Concurrent.err r = None) arrivals -> NoDup (map fst tree0) ->
    exists es,
      Concurrent.collect tree0 arrivals = (Concurrent.LMap es, None)
      /\ NoDup (map fst es)
      /\ list_to_map es = stored (list_to_map tree0) arrivals.
Proof.
  induction arrivals as [|r rs IH]; intros tree0 Hok Hnd; simpl.
  - exists tree0. auto.
  - apply Forall_cons in Hok as [Hr Hok]. rewrite Hr.
    destruct (IH (Concurrent.assign (Concurrent.link r) (Concurrent.tree r) tree0) Hok
                 (assign_NoDup _ _ _ Hnd)) as (es & Hes & Hnd' & Hmap).
    exists es. conj_split; try assumption.
    rewrite Hmap, assign_list_to_map. reflexivity.
Qed.

Lemma stored_lookup_out (rs : list Concurrent.result) :
  forall m k, k ∉ map Concurrent.link rs -> stored m rs !! k = m !! k.
Proof.
  induction rs as [|r rs IH]; intros m k Hout; simpl; [reflexivity|].
  simpl in Hout. apply not_elem_of_cons in Hout as [Hne Hout].
  unfold stored in *. simpl. rewrite (IH _ _ Hout). apply lookup_insert_ne. congruence.
Qed.

Lemma stored_lookup_in (rs : list Concurrent.result) :
  forall m r, NoDup (map Concurrent.link rs) -> r ∈ rs ->
              stored m rs !! Concurrent.link r = Some (Concurrent.tree r).
Proof.
  induction rs as [|r0 rs IH]; intros m r Hnd Hin; [inversion Hin|].
  simpl in Hnd. apply NoDup_cons in Hnd as [Hout Hnd].
  apply elem_of_cons in Hin as [->|Hin].
  - unfold stored. simpl. fold (stored (<[Concurrent.link r0 := Concurrent.tree r0]> m) rs).
    rewrite (stored_lookup_out _ _ _ Hout). apply lookup_insert_eq.
  - unfold stored. simpl. apply IH; assumption.
Qed.

(** results with different links are stored alike in any order *)
Lemma stored_order_free (rs rs' : list Concurrent.result)
      (m : gmap string Concurrent.LinkTree) :
  NoDup (map Concurrent.link rs) -> rs ≡ₚ rs' -> stored m rs = stored m rs'.
Proof.
  intros Hnd Hperm. apply map_eq. intros k.
  assert (NoDup (map Concurrent.link rs')) as Hnd'.
  { rewrite <- Hperm. assumption. }
  destruct (decide (k ∈ map Concurrent.link rs)) as [Hin|Hout].
  - apply list_elem_of_fmap in Hin as (r & -> & Hr).
    rewrite (stored_lookup_in _ _ _ Hnd Hr).
    rewrite Hperm in Hr. rewrite (stored_lookup_in _ _ _ Hnd' Hr). reflexivity.
  - rewrite (stored_lookup_out _ _ _ Hout).
    rewrite Hperm in Hout. rewrite (stored_lookup_out _ _ _ Hout). reflexivity.
Qed.

(** ** The request log of the concurrent crawl *)

Section ConcurrentLog.
Context `{NetURL}.
Variable c : Crawler.
Variable w : World.

(** what every beginning of a crawl and a panic keep of the shared state,
    every step keeps *)
Lemma conc_step_shared (P : Concurrent.Shared -> Prop) :
  (forall u depth sh t sh', begun c w u depth sh t sh' -> P sh -> P sh') ->
  (forall sh, P sh -> P (Concurrent.crash sh)) ->
  forall a b, Concurrent.step c w a b -> P (fst a) -> P (fst b).
Proof.
  intros Hbegun Hcrash a b Hstep. induction Hstep; simpl in *; auto.
  eapply Hbegun, conc_crawl_begin_cases. eassumption.
Qed.

Lemma conc_steps_shared (P : Concurrent.Shared -> Prop) :
  (forall u depth sh t sh', begun c w u depth sh t sh' -> P sh -> P sh') ->
  (forall sh, P sh -> P (Concurrent.crash sh)) ->
  forall a b, Concurrent.steps c w a b -> P (fst a) -> P (fst b).
Proof.
  intros Hbegun Hcrash a b Hsteps. induction Hsteps as [|a b0 b [_ Hstep] _ IH]; [auto|].
  intros Ha. apply IH. eapply conc_step_shared; eassumption.
Qed.

Lemma conc_in_bounds_host (u : URL) (depth : Z) :
  Concurrent.out_of_bounds c u depth = false -> Hostname u = Hostname (root c).
Proof.
  unfold Concurrent.out_of_bounds. intros Hb.
  apply orb_false_elim in Hb as [_ Hhost].
  apply negb_false_iff, String.eqb_eq in Hhost. assumption.
Qed.

(** requests go to the host of the root only *)
Lemma conc_steps_host (a b : Concurrent.Shared * Concurrent.task) :
  Concurrent.steps c w a b ->
  on_host c (Concurrent.fetched (fst a)) -> on_host c (Concurrent.fetched (fst b)).
Proof.
  apply (conc_steps_shared (fun sh => on_host c (Concurrent.fetched sh))); [|auto].
  intros u depth sh t sh' Hbegun Hlog.
  destruct Hbegun; simpl; try assumption;
    intros u' d' Hin; apply elem_of_app in Hin as [Hin|Hin]; eauto;
    apply list_elem_of_singleton in Hin; inversion Hin; subst;
    eapply conc_in_bounds_host; eassumption.
Qed.

(** no request is for a key a request was sent for before *)
Lemma conc_steps_once (a b : Concurrent.Shared * Concurrent.task) :
  Concurrent.steps c w a b -> conc_log_inv (fst a) -> conc_log_inv (fst b).
Proof.
  apply (conc_steps_shared conc_log_inv).
  - intros u depth sh t sh' Hbegun (keys & Hkeys & Hnd & Hsub).
    destruct (conc_begun_grows c w _ _ _ _ _ Hbegun)
      as (Hv & _ & [Hsame|(u' & d' & k & Hone & Hk & Hout & Hin)]).
    + exists keys. rewrite Hsame. conj_split; try assumption.
      intros k Hk. apply Hv. auto.
    + exists (keys ++ [k]). rewrite Hone. conj_split.
      * apply Forall2_app; [assumption|]. constructor; [assumption|constructor].
      * apply NoDup_app. conj_split; [assumption| |apply NoDup_singleton].
        intros x Hx Hx'. apply list_elem_of_singleton in Hx'. subst x. auto.
      * intros k' Hk'. apply elem_of_app in Hk' as [Hk'|Hk']; [apply Hv; auto|].
        apply list_elem_of_singleton in Hk'. subst k'. assumption.
  - intros sh Hinv. exact Hinv.
Qed.

(** [limiter.Wait] has been called at least once for every request *)
Lemma conc_steps_waits (a b : Concurrent.Shared * Concurrent.task) :
  Concurrent.steps c w a b ->
  (length (Concurrent.fetched (fst a)) <= Concurrent.waits (fst a))%nat ->
  (length (Concurrent.fetched (fst b)) <= Concurrent.waits (fst b))%nat.
Proof.
  apply (conc_steps_shared
           (fun sh => (length (Concurrent.fetched sh) <= Concurrent.waits sh)%nat)); [|auto].
  intros u depth sh t sh' Hbegun Hle.
  destruct Hbegun; simpl; rewrite ?length_app; simpl; lia.
Qed.

(** a log of requests with different keys that are all the same request
    has one request at most *)
Lemma conc_log_single (log : list (URL * Z)) (keys : list string) (a : URL * Z) :
  conc_log_keys log keys -> NoDup keys -> (forall x, x ∈ log -> x = a) ->
  log = [] \/ log = [a].
Proof.
  intros Hkeys Hnd Hall. destruct log as [|x [|y log]].
  - left. reflexivity.
  - right. rewrite (Hall x); [reflexivity|left].
  - exfalso. inversion Hkeys as [|? k1 ? keys1 Hk1 Hrest]; subst.
    inversion Hrest as [|? k2 ? keys2 Hk2 _]; subst.
    assert (x = a) as -> by (apply Hall; left).
    assert (y = a) as -> by (apply Hall; right; left).
    assert (k1 = k2) as -> by congruence.
    apply NoDup_cons in Hnd as [Hout _]. apply Hout. left.
Qed.

(** once the call [Run] waits for has returned, the key of its URL is in
    the visited set *)
Lemma conc_returned_marked (url : URL) (sh0 sh : Concurrent.Shared) (t : Concurrent.task) :
  Concurrent.steps c w (sh0, Concurrent.Pending url 0) (sh, t) ->
  Concurrent.returned t <> None ->
  exists k, Concurrent.urlWithoutScheme url = Some k /\ k ∈ Concurrent.visited sh.
Proof.
  intros Hsteps Hret. apply rtc_inv in Hsteps as [Heq|(a' & [Hlive Hstep] & Hrest)].
  { inversion Heq; subst. simpl in Hret. contradiction. }
  inversion Hstep as [? ? ? t1 sh1 Hbegin|? ? ? Hpanic| | | | |]; subst.
  - apply conc_crawl_begin_cases in Hbegin.
    destruct (conc_begun_marks c w _ _ _ _ _ Hbegin) as (k & Hk & Hv & _).
    exists k. split; [assumption|].
    apply (proj1 (conc_steps_fresh c w _ _ Hrest)). simpl. rewrite Hv. set_solver.
  - apply rtc_inv in Hrest as [Heq|(a'' & [Hlive' _] & _)].
    + inversion Heq; subst. simpl in Hret. contradiction.
    + simpl in Hlive'. discriminate.
Qed.


End ConcurrentLog.

(** ** The nodes of the tree of the concurrent crawl *)

Section ConcurrentListed.
Context `{NetURL}.
Variable c : Crawler.
Variable w : World.

Lemma lists_page_subset (key : string) (keys keys' : list string) :
  lists_page c w key keys ->
  (forall l, l ∈ keys' -> l ∈ keys) -> (forall l, l ∈ keys -> l ∈ keys') ->
  lists_page c w key keys'.
Proof.
  intros (page & links & Hget & Hlinks & Hsound & Hall) Hsub Hsup.
  exists page, links. conj_split; try assumption.
  - intros l Hl. apply Hsound, Hsub, Hl.
  - intros link Hlink. destruct (Hall _ Hlink) as (url & Hurl & Hin). eauto.
Qed.

Lemma assign_keys_elem (l : string) (sub : Concurrent.LinkTree)
      (es : list (string * Concurrent.LinkTree)) (k : string) :
  k ∈ map fst (Concurrent.assign l sub es) <-> k = l \/ k ∈ map fst es.
Proof.
  rewrite assign_keys. destruct (decide (l ∈ map fst es)) as [Hin|Hout].
  - split; [auto|]. intros [->|Hk]; assumption.
  - rewrite elem_of_app, list_elem_of_singleton. tauto.
Qed.

Lemma conc_begun_listed (u : URL) (depth : Z) (sh sh' : Concurrent.Shared)
      (t : Concurrent.task) :
  begun c w u depth sh t sh' -> listed c w (URL_String u) t.
Proof.
  destruct 1 as [k Hk Hin|k Hk Hout Hb|k e msg Hk Hout Hb Hw|k e msg Hk Hout Hb Hw Hget
                 |k page e msg Hk Hout Hb Hw Hget Hlinks
                 |k page links urls Hk Hout Hb Hw Hget Hlinks Hurls];
    try (constructor; constructor).
  constructor.
  - exists page, links. simpl. conj_split; try assumption.
    + intros l Hl. unfold children_of in Hl. rewrite map_map in Hl. simpl in Hl.
      apply list_elem_of_fmap in Hl as (url & -> & Hurl).
      apply list_elem_of_lookup in Hurl as [i Hi].
      destruct (Forall2_lookup_r _ _ _ _ _ Hurls Hi) as (link & Hlink & Hparse).
      exists link, url. conj_split; [|assumption|reflexivity].
      apply list_elem_of_lookup. eauto.
    + intros link Hlink. apply list_elem_of_lookup in Hlink as [i Hi].
      destruct (Forall2_lookup_l _ _ _ _ _ Hurls Hi) as (url & Hurl & Hparse).
      exists url. split; [assumption|].
      unfold children_of. rewrite map_map. simpl.
      apply list_elem_of_fmap. exists url. split; [reflexivity|].
      apply list_elem_of_lookup. eauto.
  - intros n key es Hocc. inversion Hocc as [? ? ? Hin|? ? ? ? ? ? Hin]; inversion Hin.
  - unfold children_of. apply Forall_fmap, Forall_forall. intros url _. simpl. constructor.
Qed.

(** a step keeps the nodes of the trees in line with their pages *)
Lemma conc_step_listed (a b : Concurrent.Shared * Concurrent.task) :
  Concurrent.step c w a b -> forall l, listed c w l (snd a) -> listed c w l (snd b).
Proof.
  intros Hstep.
  induction Hstep as [u depth sh t sh' Hbegin|u depth sh Hpanic|sh tree before l sub after
                      |sh tree before l e bg after|sh tree
                      |sh tree before l t after sh' t' Hstep IHstep
                      |sh e before t after sh' t' Hstep IHstep];
    simpl in *; intros l0 Hl.
  - inversion Hl; subst. eapply conc_begun_listed, conc_crawl_begin_cases. eassumption.
  - assumption.
  - inversion Hl as [|? ? ? Hpage Htree Hall| | |]; subst.
    apply Forall_app in Hall as [Hbefore Hafter].
    apply Forall_cons in Hafter as [Hdone Hafter]. simpl in Hdone.
    constructor.
    + apply (lists_page_subset _ _ _ Hpage); intros k; rewrite !map_app; simpl;
        rewrite !elem_of_app, assign_keys_elem, ?elem_of_cons, ?elem_of_app;
        tauto.
    + intros n key es Hocc.
      inversion Hocc as [? ? ? Hin|? k t m ? ? Hin Hbelow]; subst.
      * apply assign_entries in Hin as [Heq|Hin].
        { inversion Heq; subst. inversion Hdone; subst. assumption. }
        apply (Htree 1%nat). constructor. assumption.
      * apply assign_entries in Hin as [Heq|Hin].
        { inversion Heq; subst. inversion Hdone as [| |? |? ? ? Hsub|]; subst.
          - inversion Hbelow.
          - eapply Hsub. eassumption. }
        apply (Htree (S m)). econstructor; eassumption.
    + apply Forall_app. split; assumption.
  - inversion Hl as [|? ? ? Hpage Htree Hall| | |]; subst.
    apply Forall_app in Hall as [Hbefore Hafter].
    apply Forall_cons in Hafter as [Hfailed Hafter]. simpl in Hfailed.
    inversion Hfailed as [| | | |? ? ? Hbg]; subst.
    constructor. apply Forall_app. split; [|assumption].
    apply Forall_fmap, Forall_app.
    split; eapply Forall_impl; try eassumption; intros ch Hch; exists (fst ch); exact Hch.
  - inversion Hl as [|? ? ? Hpage Htree Hall| | |]; subst.
    rewrite app_nil_r in Hpage. constructor; assumption.
  - inversion Hl as [|? ? ? Hpage Htree Hall| | |]; subst.
    apply Forall_app in Hall as [Hbefore Hafter].
    apply Forall_cons in Hafter as [Ht Hafter]. simpl in Ht.
    constructor.
    + rewrite map_app in *. simpl in *. assumption.
    + assumption.
    + apply Forall_app. split; [assumption|].
      apply Forall_cons. split; [apply IHstep; assumption|assumption].
  - inversion Hl as [| | | |? ? ? Hbg]; subst.
    apply Forall_app in Hbg as [Hbefore Hafter].
    apply Forall_cons in Hafter as [(l' & Ht) Hafter].
    constructor. apply Forall_app. split; [assumption|].
    apply Forall_cons. split; [|assumption].
    exists l'. apply IHstep. assumption.
Qed.

Lemma conc_steps_listed (a b : Concurrent.Shared * Concurrent.task) :
  Concurrent.steps c w a b -> forall l, listed c w l (snd a) -> listed c w l (snd b).
Proof.
  intros Hsteps. induction Hsteps as [|a b0 b [_ Hstep] _ IH]; [auto|].
  intros l Hl. apply IH. eapply conc_step_listed; eassumption.
Qed.

End ConcurrentListed.

(** ** Levels and hops *)

Section ConcurrentLevels.
Context `{NetURL}.
Variable c : Crawler.
Variable w : World.
Variable url : URL.



End ConcurrentLevels.

(** ** The links [findLinksInPage] returns *)

Section ConcurrentPageLinks.
Context `{NetURL}.

(** what the visit of an anchor adds to [links] are hrefs of the anchor;
    [seenOnPage] grows, and holds the key of the first href if it parses *)
Lemma conc_visit_attrs_cover (attrs : list Attribute) :
  forall st st',
    Concurrent.visit_attrs attrs st = Some st' ->
    (exists added,
        fst st' = fst st ++ added
        /\ forall l, l ∈ added ->
                     exists attr, attr ∈ attrs /\ Key attr = "href" /\ Val attr = l)
    /\ snd st ⊆ snd st'
    /\ forall val u, first_href attrs = Some val -> Parse val = Some u ->
                     exists k, Concurrent.urlWithoutScheme u = Some k /\ k ∈ snd st'.
Proof.
  induction attrs as [|attr rest IH]; intros st st'; simpl.
  - intros Heq. inversion Heq; subst. conj_split.
    + exists []. rewrite app_nil_r. split; [reflexivity|]. intros l Hl. inversion Hl.
    + set_solver.
    + discriminate.
  - destruct (String.eqb (Key attr) "href") eqn:Hhref.
    2:{ intros Hrun. destruct (IH _ _ Hrun) as ((added & Hadded & Hfrom) & Hsub & Hfirst).
        conj_split; [|assumption|assumption].
        exists added. split; [assumption|]. intros l Hl.
        destruct (Hfrom _ Hl) as (a & Ha & Hkey & Hval). exists a.
        split; [right; assumption|auto]. }
    apply String.eqb_eq in Hhref.
    destruct (Parse (Val attr)) as [href|] eqn:Hparse.
    2:{ intros Heq. inversion Heq; subst. conj_split.
        - exists []. rewrite app_nil_r. split; [reflexivity|]. intros l Hl. inversion Hl.
        - set_solver.
        - intros val u Hval Hu. inversion Hval; subst. congruence. }
    destruct (Concurrent.urlWithoutScheme href) as [key|] eqn:Hkey; [|discriminate].
    unfold Concurrent.EnsureContains.
    destruct (decide (key ∈ snd st)) as [Hin|Hout].
    + intros Hrun. destruct (IH _ _ Hrun) as ((added & Hadded & Hfrom) & Hsub & _).
      simpl in *. conj_split; [|assumption|].
      * exists added. split; [assumption|]. intros l Hl.
        destruct (Hfrom _ Hl) as (a & Ha & Hk & Hval). exists a.
        split; [right; assumption|auto].
      * intros val u Hval Hu. inversion Hval; subst.
        assert (u = href) as -> by congruence. exists key. split; [assumption|set_solver].
    + intros Heq. inversion Heq; subst. simpl. conj_split.
      * exists [Val attr]. split; [reflexivity|]. intros l Hl.
        apply list_elem_of_singleton in Hl. subst l. exists attr.
        split; [left|auto].
      * set_solver.
      * intros val u Hval Hu. inversion Hval; subst.
        assert (u = href) as -> by congruence. exists key. split; [assumption|set_solver].
Qed.

Lemma conc_visit_each_cover (ns : list Node) :
  forall st st',
    visit_each Concurrent.visitLink ns st = Some st' ->
    (exists added,
        fst st' = fst st ++ added
        /\ forall l, l ∈ added ->
                     exists n attr, n ∈ ns /\ attr ∈ Attr_of n
                                    /\ Key attr = "href" /\ Val attr = l)
    /\ snd st ⊆ snd st'
    /\ forall n val u, n ∈ ns -> first_href (Attr_of n) = Some val -> Parse val = Some u ->
                       exists k, Concurrent.urlWithoutScheme u = Some k /\ k ∈ snd st'.
Proof.
  induction ns as [|n ns IH]; intros st st'; simpl.
  - intros Heq. inversion Heq; subst. conj_split.
    + exists []. rewrite app_nil_r. split; [reflexivity|]. intros l Hl. inversion Hl.
    + set_solver.
    + intros n val u Hn. inversion Hn.
  - destruct (Concurrent.visitLink n st) as [st1|] eqn:Hvisit; [|discriminate].
    intros Hrun. unfold Concurrent.visitLink in Hvisit.
    destruct (conc_visit_attrs_cover _ _ _ Hvisit) as ((a1 & Ha1 & Hfrom1) & Hsub1 & Hfirst1).
    destruct (IH _ _ Hrun) as ((a2 & Ha2 & Hfrom2) & Hsub2 & Hfirst2).
    conj_split.
    + exists (a1 ++ a2). rewrite Ha2, Ha1, <- app_assoc. split; [reflexivity|].
      intros l Hl. apply elem_of_app in Hl as [Hl|Hl].
      * destruct (Hfrom1 _ Hl) as (attr & Hattr & Hk & Hv). exists n, attr.
        conj_split; try assumption. left.
      * destruct (Hfrom2 _ Hl) as (n' & attr & Hn' & Hattr & Hk & Hv). exists n', attr.
        conj_split; try assumption. right. assumption.
    + set_solver.
    + intros n' val u Hn' Hval Hu. apply elem_of_cons in Hn' as [->|Hn'].
      * destruct (Hfirst1 _ _ Hval Hu) as (k & Hk & Hin). exists k.
        split; [assumption|]. apply Hsub2. assumption.
      * eapply Hfirst2; eassumption.
Qed.

End ConcurrentPageLinks.

(** ** The request log of the depth-first crawl *)

Lemma expanded_entries_app (expand : Sequential.URLTree -> list (URL * Z)) (depth : Z)
      (es1 es2 : list (URL * Sequential.URLTree)) :
  expanded_entries expand depth (es1 ++ es2)
  = expanded_entries expand depth es1 ++ expanded_entries expand depth es2.
Proof.
  induction es1 as [|[u sub] es1 IH]; simpl; [reflexivity|].
  rewrite IH. destruct sub; [reflexivity|]. simpl. rewrite <- app_assoc. reflexivity.
Qed.

(** an entry with a sub tree is among the expanded entries *)
Lemma expanded_occurs (n : nat) (u : URL) (sub t : Sequential.URLTree) :
  Sequential.occurs_at n u sub t -> sub <> Sequential.UNil ->
  forall depth, exists d, (u, d) ∈ expanded t depth.
Proof.
  induction 1 as [es u sub Hin|es v t n u sub Hin _ IH]; intros Hsub depth.
  - simpl. induction es as [|[u0 sub0] es IHes]; [inversion Hin|].
    apply elem_of_cons in Hin as [Heq|Hin].
    + inversion Heq; subst. destruct sub0; [contradiction|].
      exists depth. simpl. left.
    + destruct (IHes Hin) as (d & Hd). exists d. simpl.
      destruct sub0; [assumption|]. right. apply elem_of_app. right. assumption.
  - destruct (IH Hsub (int_succ depth)) as (d & Hd). exists d. simpl.
    induction es as [|[u0 sub0] es IHes]; [inversion Hin|].
    apply elem_of_cons in Hin as [Heq|Hin].
    + inversion Heq; subst. destruct sub0; [inversion Hd|].
      simpl. right. apply elem_of_app. left. assumption.
    + simpl. destruct sub0; [auto|]. right. apply elem_of_app. right. auto.
Qed.

Section SequentialLog.
Context `{NetURL}.
Variable c : Crawler.
Variable w : World.

(** the requests of a crawl that returns a tree are the request for its
    page and then those for the expanded entries of the tree, in the order
    of a depth-first walk *)
Lemma seq_crawl_preorder :
  (forall pageURL depth st o,
      Sequential.crawl_to c w pageURL depth st o ->
      forall t st', o = Sequential.Return (t, None) st' ->
        (exists es, t = Sequential.UMap es)
        /\ Sequential.fetched st'
           = Sequential.fetched st ++ (pageURL, depth) :: expanded t (int_succ depth))
  /\ (forall depth hrefs tree st o,
         Sequential.each_to c w depth hrefs tree st o ->
         forall t st', o = Sequential.Return (t, None) st' ->
           exists es,
             t = Sequential.UMap (tree ++ es)
             /\ Sequential.fetched st'
                = Sequential.fetched st ++ expanded (Sequential.UMap es) (int_succ depth)).
Proof.
  apply Sequential.crawl_each_ind.
  - intros pageURL depth st err Hwait t st' Heq. discriminate.
  - intros pageURL depth st err Hwait Hget t st' Heq. discriminate.
  - intros pageURL depth st page Hwait Hget Hlinks t st' Heq. discriminate.
  - intros pageURL depth st page err Hwait Hget Hlinks t st' Heq. discriminate.
  - intros pageURL depth st page hrefs o Hwait Hget Hlinks _ IH t st' Heq.
    destruct (IH _ _ Heq) as (es & Ht & Hlog). simpl in Ht. subst t.
    split; [eauto|]. rewrite Hlog. simpl. rewrite <- app_assoc. reflexivity.
  - intros depth tree st t st' Heq. inversion Heq; subst. exists [].
    rewrite !app_nil_r. split; reflexivity.
  - intros depth href rest tree st Hcall t st' Heq. discriminate.
  - intros depth href rest tree st v o Hcall _ IH t st' Heq.
    destruct (IH _ _ Heq) as (es & Ht & Hlog). exists ((href, Sequential.UNil) :: es).
    rewrite <- app_assoc in Ht. split; [assumption|]. rewrite Hlog. reflexivity.
  - intros depth href rest tree st v o Hcall Hbounds _ IH t st' Heq.
    destruct (IH _ _ Heq) as (es & Ht & Hlog). exists ((href, Sequential.UNil) :: es).
    rewrite <- app_assoc in Ht. split; [assumption|]. rewrite Hlog. reflexivity.
  - intros depth href rest tree st v subTree st1 o Hcall Hbounds _ IHsub _ IH t st' Heq.
    destruct (IHsub _ _ eq_refl) as ((sub & Hsub) & Hlog1).
    destruct (IH _ _ Heq) as (es & Ht & Hlog). exists ((href, subTree) :: es).
    rewrite <- app_assoc in Ht. split; [assumption|].
    rewrite Hlog, Hlog1. subst subTree. simpl. rewrite <- !app_assoc. reflexivity.
  - intros depth href rest tree st v partial err st1 Hcall Hbounds _ _ t st' Heq.
    discriminate.
  - intros depth href rest tree st v st1 Hcall Hbounds _ _ t st' Heq. discriminate.
Qed.

(** no crawl sends a request for a key a request was sent for before *)
Lemma seq_crawl_once :
  (forall pageURL depth st o,
      Sequential.crawl_to c w pageURL depth st o ->
      forall keys k,
        seq_log_keys (Sequential.fetched st) keys -> NoDup keys ->
        (forall k', k' ∈ keys -> k' ∈ Sequential.visited st) ->
        Sequential.withoutScheme pageURL = Some k ->
        k ∈ Sequential.visited st -> k ∉ keys ->
        forall st', Sequential.state_of o = Some st' -> seq_log_inv st')
  /\ (forall depth hrefs tree st o,
         Sequential.each_to c w depth hrefs tree st o ->
         seq_log_inv st ->
         forall st', Sequential.state_of o = Some st' -> seq_log_inv st').
Proof.
  assert (forall st pageURL depth keys k,
             seq_log_keys (Sequential.fetched st) keys -> NoDup keys ->
             (forall k', k' ∈ keys -> k' ∈ Sequential.visited st) ->
             Sequential.withoutScheme pageURL = Some k ->
             k ∈ Sequential.visited st -> k ∉ keys ->
             seq_log_inv (Sequential.sent st pageURL depth)) as Hsent.
  { intros st pageURL depth keys k Hkeys Hnd Hsub Hk Hin Hout.
    exists (keys ++ [k]). simpl. conj_split.
    - apply Forall2_app; [assumption|]. constructor; [assumption|constructor].
    - apply NoDup_app. conj_split; [assumption| |apply NoDup_singleton].
      intros x Hx Hx'. apply list_elem_of_singleton in Hx'. subst x. contradiction.
    - intros k' Hk'. apply elem_of_app in Hk' as [Hk'|Hk']; [auto|].
      apply list_elem_of_singleton in Hk'. subst k'. assumption. }
  apply Sequential.crawl_each_ind.
  - intros pageURL depth st err Hwait keys k Hkeys Hnd Hsub Hk Hin Hout st' Hst.
    inversion Hst; subst. exists keys. auto.
  - intros pageURL depth st err Hwait Hget keys k Hkeys Hnd Hsub Hk Hin Hout st' Hst.
    inversion Hst; subst. eauto.
  - intros pageURL depth st page Hwait Hget Hlinks keys k Hkeys Hnd Hsub Hk Hin Hout st' Hst.
    inversion Hst; subst. eauto.
  - intros pageURL depth st page err Hwait Hget Hlinks keys k Hkeys Hnd Hsub Hk Hin Hout
           st' Hst.
    inversion Hst; subst. eauto.
  - intros pageURL depth st page hrefs o Hwait Hget Hlinks _ IH keys k Hkeys Hnd Hsub Hk
           Hin Hout st' Hst.
    apply IH; [|assumption]. eauto.
  - intros depth tree st Hinv st' Hst. inversion Hst; subst. assumption.
  - intros depth href rest tree st Hcall Hinv st' Hst. inversion Hst; subst. assumption.
  - intros depth href rest tree st v o Hcall _ IH (keys & Hkeys & Hnd & Hsub) st' Hst.
    apply IH; [|assumption].
    destruct (seq_EnsureContains_inv _ _ _ _ Hcall) as (k & _ & _ & ->).
    exists keys. conj_split; try assumption. intros k' Hk'. simpl. set_solver.
  - intros depth href rest tree st v o Hcall Hbounds _ IH (keys & Hkeys & Hnd & Hsub) st' Hst.
    apply IH; [|assumption].
    destruct (seq_EnsureContains_inv _ _ _ _ Hcall) as (k & _ & _ & ->).
    exists keys. conj_split; try assumption. intros k' Hk'. simpl. set_solver.
  - intros depth href rest tree st v subTree st1 o Hcall Hbounds _ IHsub _ IH
           (keys & Hkeys & Hnd & Hsub) st' Hst.
    apply IH; [|assumption].
    destruct (seq_EnsureContains_inv _ _ _ _ Hcall) as (k & Hk & Hex & ->).
    assert (k ∉ Sequential.visited st) as Hfresh.
    { intros Hin. apply Hex in Hin. discriminate. }
    apply (IHsub keys k); simpl; try assumption; try reflexivity.
    + intros k' Hk'. set_solver.
    + set_solver.
    + intros Hin. apply Hfresh. auto.
  - intros depth href rest tree st v partial err st1 Hcall Hbounds _ IHsub
           (keys & Hkeys & Hnd & Hsub) st' Hst.
    inversion Hst; subst.
    destruct (seq_EnsureContains_inv _ _ _ _ Hcall) as (k & Hk & Hex & ->).
    assert (k ∉ Sequential.visited st) as Hfresh.
    { intros Hin. apply Hex in Hin. discriminate. }
    apply (IHsub keys k); simpl; try assumption; try reflexivity.
    + intros k' Hk'. set_solver.
    + set_solver.
    + intros Hin. apply Hfresh. auto.
  - intros depth href rest tree st v st1 Hcall Hbounds _ IHsub
           (keys & Hkeys & Hnd & Hsub) st' Hst.
    inversion Hst; subst.
    destruct (seq_EnsureContains_inv _ _ _ _ Hcall) as (k & Hk & Hex & ->).
    assert (k ∉ Sequential.visited st) as Hfresh.
    { intros Hin. apply Hex in Hin. discriminate. }
    apply (IHsub keys k); simpl; try assumption; try reflexivity.
    + intros k' Hk'. set_solver.
    + set_solver.
    + intros Hin. apply Hfresh. auto.
Qed.

(** [Run] keeps the invariant of the log *)
Lemma seq_Run_once (fuel : nat) (st' : Sequential.State) :
  Sequential.state_of (Sequential.Run c w fuel Sequential.initial) = Some st' ->
  seq_log_inv st'.
Proof.
  intros Hst.
  destruct (seq_Run_cases c w fuel Sequential.initial)
    as [[_ Hpanic]|(existed & v & Hcall & Hrun)].
  - rewrite Hpanic in Hst. inversion Hst; subst. exists []. conj_split.
    + constructor.
    + constructor.
    + intros k Hk. inversion Hk.
  - rewrite Hrun in Hst.
    assert (Sequential.crawl c w fuel (root c) 0 (Sequential.marked Sequential.initial v)
            <> Sequential.OutOfFuel) as Hfuel.
    { intros Hout. rewrite Hout in Hst. discriminate. }
    pose proof (seq_crawl_sound c w fuel _ _ _ Hfuel) as Hgraph.
    destruct (seq_EnsureContains_inv _ _ _ _ Hcall) as (k & Hk & _ & Hv).
    eapply (proj1 seq_crawl_once _ _ _ _ Hgraph [] k); simpl; try eassumption.
    + constructor.
    + constructor.
    + intros k' Hk'. inversion Hk'.
    + rewrite Hv. simpl. set_solver.
    + intros Hin. inversion Hin.
Qed.

End SequentialLog.

(** ** Hosts, the limiter and the nodes of the tree *)

Section SequentialFurther.
Context `{NetURL}.
Variable c : Crawler.
Variable w : World.

Lemma seq_in_bounds_host (href : URL) (depth : Z) :
  Sequential.out_of_bounds c href depth = false ->
  Hostname href = Hostname (root c).
Proof.
  unfold Sequential.out_of_bounds. intros Hb.
  apply orb_false_elim in Hb as [_ Hhost].
  apply negb_false_iff, String.eqb_eq in Hhost. assumption.
Qed.

(** a crawl of a page on the host of the root sends its requests to that
    host only *)
Lemma seq_crawl_host :
  (forall pageURL depth st o,
      Sequential.crawl_to c w pageURL depth st o ->
      Hostname pageURL = Hostname (root c) ->
      on_host c (Sequential.fetched st) ->
      forall st', Sequential.state_of o = Some st' -> on_host c (Sequential.fetched st'))
  /\ (forall depth hrefs tree st o,
         Sequential.each_to c w depth hrefs tree st o ->
         on_host c (Sequential.fetched st) ->
         forall st', Sequential.state_of o = Some st' -> on_host c (Sequential.fetched st')).
Proof.
  assert (forall st pageURL depth,
             Hostname pageURL = Hostname (root c) ->
             on_host c (Sequential.fetched st) ->
             on_host c (Sequential.fetched (Sequential.sent st pageURL depth))) as Hsent.
  { intros st pageURL depth Hhost Hlog u d Hin. simpl in Hin.
    apply elem_of_app in Hin as [Hin|Hin]; [eauto|].
    apply list_elem_of_singleton in Hin. inversion Hin; subst. assumption. }
  apply Sequential.crawl_each_ind.
  - intros pageURL depth st err Hwait Hhost Hlog st' Hst. inversion Hst; subst. assumption.
  - intros pageURL depth st err Hwait Hget Hhost Hlog st' Hst. inversion Hst; subst. auto.
  - intros pageURL depth st page Hwait Hget Hlinks Hhost Hlog st' Hst.
    inversion Hst; subst. auto.
  - intros pageURL depth st page err Hwait Hget Hlinks Hhost Hlog st' Hst.
    inversion Hst; subst. auto.
  - intros pageURL depth st page hrefs o Hwait Hget Hlinks _ IH Hhost Hlog st' Hst.
    apply IH; auto.
  - intros depth tree st Hlog st' Hst. inversion Hst; subst. assumption.
  - intros depth href rest tree st Hcall Hlog st' Hst. inversion Hst; subst. assumption.
  - intros depth href rest tree st v o Hcall _ IH Hlog st' Hst. apply IH; assumption.
  - intros depth href rest tree st v o Hcall Hbounds _ IH Hlog st' Hst. apply IH; assumption.
  - intros depth href rest tree st v subTree st1 o Hcall Hbounds _ IHsub _ IH Hlog st' Hst.
    apply IH; [|assumption]. apply IHsub; [apply seq_in_bounds_host with depth| |reflexivity];
      assumption.
  - intros depth href rest tree st v partial err st1 Hcall Hbounds _ IHsub Hlog st' Hst.
    inversion Hst; subst.
    apply IHsub; [apply seq_in_bounds_host with depth| |reflexivity]; assumption.
  - intros depth href rest tree st v st1 Hcall Hbounds _ IHsub Hlog st' Hst.
    inversion Hst; subst.
    apply IHsub; [apply seq_in_bounds_host with depth| |reflexivity]; assumption.
Qed.

(** [limiter.Wait] is called once before every request; the one call
    without a request is a call that failed, and ends the crawl *)
Lemma seq_crawl_waits :
  (forall pageURL depth st o,
      Sequential.crawl_to c w pageURL depth st o ->
      forall st', Sequential.state_of o = Some st' ->
      exists new,
        Sequential.fetched st' = Sequential.fetched st ++ new
        /\ (Sequential.waits st + length new <= Sequential.waits st'
            <= S (Sequential.waits st + length new))%nat
        /\ forall t, o = Sequential.Return (t, None) st' ->
                     Sequential.waits st' = (Sequential.waits st + length new)%nat)
  /\ (forall depth hrefs tree st o,
         Sequential.each_to c w depth hrefs tree st o ->
         forall st', Sequential.state_of o = Some st' ->
         exists new,
           Sequential.fetched st' = Sequential.fetched st ++ new
           /\ (Sequential.waits st + length new <= Sequential.waits st'
               <= S (Sequential.waits st + length new))%nat
           /\ forall t, o = Sequential.Return (t, None) st' ->
                        Sequential.waits st' = (Sequential.waits st + length new)%nat).
Proof.
  apply Sequential.crawl_each_ind.
  - intros pageURL depth st err Hwait st' Hst. inversion Hst; subst. exists [].
    rewrite app_nil_r. simpl. conj_split; try reflexivity; try lia; try discriminate.
  - intros pageURL depth st err Hwait Hget st' Hst. inversion Hst; subst.
    exists [(pageURL, depth)]. simpl. conj_split; try reflexivity; try lia; try discriminate.
  - intros pageURL depth st page Hwait Hget Hlinks st' Hst. inversion Hst; subst.
    exists [(pageURL, depth)]. simpl. conj_split; try reflexivity; try lia; try discriminate.
  - intros pageURL depth st page err Hwait Hget Hlinks st' Hst. inversion Hst; subst.
    exists [(pageURL, depth)]. simpl. conj_split; try reflexivity; try lia; try discriminate.
  - intros pageURL depth st page hrefs o Hwait Hget Hlinks _ IH st' Hst.
    destruct (IH _ Hst) as (new & Hlog & Hw & Hok). simpl in *.
    exists ((pageURL, depth) :: new). rewrite Hlog, <- app_assoc. simpl.
    conj_split; try reflexivity; try lia.
    intros t Heq. rewrite (Hok _ Heq). lia.
  - intros depth tree st st' Hst. inversion Hst; subst. exists [].
    rewrite app_nil_r. simpl. conj_split; try reflexivity; lia.
  - intros depth href rest tree st Hcall st' Hst. inversion Hst; subst. exists [].
    rewrite app_nil_r. simpl. conj_split; try reflexivity; try lia; try discriminate.
  - intros depth href rest tree st v o Hcall _ IH st' Hst. apply IH. assumption.
  - intros depth href rest tree st v o Hcall Hbounds _ IH st' Hst. apply IH. assumption.
  - intros depth href rest tree st v subTree st1 o Hcall Hbounds _ IHsub _ IH st' Hst.
    destruct (IHsub _ eq_refl) as (new1 & Hlog1 & Hw1 & Hok1).
    destruct (IH _ Hst) as (new & Hlog & Hw & Hok). simpl in *.
    specialize (Hok1 _ eq_refl).
    exists (new1 ++ new). rewrite Hlog, Hlog1, <- app_assoc, length_app.
    conj_split; try reflexivity; try lia.
    intros t Heq. rewrite (Hok _ Heq). lia.
  - intros depth href rest tree st v partial err st1 Hcall Hbounds _ IHsub st' Hst.
    inversion Hst; subst.
    destruct (IHsub _ eq_refl) as (new1 & Hlog1 & Hw1 & _). simpl in *.
    exists new1. conj_split; try assumption; try lia; try discriminate.
  - intros depth href rest tree st v st1 Hcall Hbounds _ IHsub st' Hst.
    inversion Hst; subst.
    destruct (IHsub _ eq_refl) as (new1 & Hlog1 & Hw1 & _). simpl in *.
    exists new1. conj_split; try assumption; try lia; try discriminate.
Qed.

(** every node of the tree a crawl returns lists the links of its page *)
Lemma seq_crawl_nodes :
  (forall pageURL depth st o,
      Sequential.crawl_to c w pageURL depth st o ->
      forall t st', o = Sequential.Return (t, None) st' ->
        (exists es, t = Sequential.UMap es /\ Sequential.page_links w pageURL (map fst es))
        /\ forall n u es, Sequential.occurs_at n u (Sequential.UMap es) t ->
                          Sequential.page_links w u (map fst es))
  /\ (forall depth hrefs tree st o,
         Sequential.each_to c w depth hrefs tree st o ->
         forall t st', o = Sequential.Return (t, None) st' ->
           exists es,
             t = Sequential.UMap (tree ++ es) /\ map fst es = hrefs
             /\ forall n u es', Sequential.occurs_at n u (Sequential.UMap es')
                                                     (Sequential.UMap es) ->
                                Sequential.page_links w u (map fst es')).
Proof.
  apply Sequential.crawl_each_ind.
  - intros pageURL depth st err Hwait t st' Heq. discriminate.
  - intros pageURL depth st err Hwait Hget t st' Heq. discriminate.
  - intros pageURL depth st page Hwait Hget Hlinks t st' Heq. discriminate.
  - intros pageURL depth st page err Hwait Hget Hlinks t st' Heq. discriminate.
  - intros pageURL depth st page hrefs o Hwait Hget Hlinks _ IH t st' Heq.
    destruct (IH _ _ Heq) as (es & Ht & Hmap & Hnodes). simpl in Ht. subst t.
    split; [|assumption]. exists es. split; [reflexivity|].
    rewrite Hmap. exists page. split; assumption.
  - intros depth tree st t st' Heq. inversion Heq; subst. exists [].
    rewrite app_nil_r. conj_split; try reflexivity.
    intros n u es' Hocc. inversion Hocc as [? ? ? Hin|? ? ? ? ? ? Hin]; inversion Hin.
  - intros depth href rest tree st Hcall t st' Heq. discriminate.
  - intros depth href rest tree st v o Hcall _ IH t st' Heq.
    destruct (IH _ _ Heq) as (es & Ht & Hmap & Hnodes).
    exists ((href, Sequential.UNil) :: es). rewrite <- app_assoc in Ht.
    conj_split; [assumption|simpl; congruence|].
    intros n u es' Hocc.
    destruct (occurs_at_cons _ _ _ _ _ _ Hocc) as [(_ & _ & Hnil)|[(m & _ & Hsub)|Hrest]].
    + discriminate.
    + inversion Hsub.
    + eapply Hnodes. eassumption.
  - intros depth href rest tree st v o Hcall Hbounds _ IH t st' Heq.
    destruct (IH _ _ Heq) as (es & Ht & Hmap & Hnodes).
    exists ((href, Sequential.UNil) :: es). rewrite <- app_assoc in Ht.
    conj_split; [assumption|simpl; congruence|].
    intros n u es' Hocc.
    destruct (occurs_at_cons _ _ _ _ _ _ Hocc) as [(_ & _ & Hnil)|[(m & _ & Hsub)|Hrest]].
    + discriminate.
    + inversion Hsub.
    + eapply Hnodes. eassumption.
  - intros depth href rest tree st v subTree st1 o Hcall Hbounds _ IHsub _ IH t st' Heq.
    destruct (IHsub _ _ eq_refl) as ((sub & Hsub & Hpage) & Hbelow).
    destruct (IH _ _ Heq) as (es & Ht & Hmap & Hnodes).
    exists ((href, subTree) :: es). rewrite <- app_assoc in Ht.
    conj_split; [assumption|simpl; congruence|].
    intros n u es' Hocc.
    destruct (occurs_at_cons _ _ _ _ _ _ Hocc) as [(_ & -> & Heq')|[(m & _ & Hin)|Hrest]].
    + rewrite Hsub in Heq'. inversion Heq'; subst. assumption.
    + eapply Hbelow. eassumption.
    + eapply Hnodes. eassumption.
  - intros depth href rest tree st v partial err st1 Hcall Hbounds _ _ t st' Heq.
    discriminate.
  - intros depth href rest tree st v st1 Hcall Hbounds _ _ t st' Heq. discriminate.
Qed.

(** the error a crawl returns is the failure of the last thing it did,
    wrapped once with the URL of the page, however deep the crawl was *)
Lemma seq_crawl_error :
  (forall pageURL depth st o,
      Sequential.crawl_to c w pageURL depth st o ->
      forall t e st', o = Sequential.Return (t, Some e) st' -> seq_failure w e st')
  /\ (forall depth hrefs tree st o,
         Sequential.each_to c w depth hrefs tree st o ->
         forall t e st', o = Sequential.Return (t, Some e) st' -> seq_failure w e st').
Proof.
  apply Sequential.crawl_each_ind.
  - intros pageURL depth st err Hwait t e st' Heq. inversion Heq; subst.
    left. exists pageURL, err. simpl. conj_split; [lia|assumption|reflexivity].
  - intros pageURL depth st err Hwait Hget t e st' Heq. inversion Heq; subst.
    right. left. exists (Sequential.fetched st), pageURL, depth, err. simpl. auto.
  - intros pageURL depth st page Hwait Hget Hlinks t e st' Heq. discriminate.
  - intros pageURL depth st page err Hwait Hget Hlinks t e st' Heq. inversion Heq; subst.
    right. right. unfold Sequential.uniqueLinksInPage in Hlinks.
    destruct (html_Parse w page) as [cause|doc] eqn:Hdoc.
    + inversion Hlinks; subst.
      exists (Sequential.fetched st), pageURL, depth, page, cause. simpl. auto.
    + destruct (Sequential.links_of doc pageURL); discriminate.
  - intros pageURL depth st page hrefs o Hwait Hget Hlinks _ IH t e st' Heq. eauto.
  - intros depth tree st t e st' Heq. discriminate.
  - intros depth href rest tree st Hcall t e st' Heq. discriminate.
  - intros depth href rest tree st v o Hcall _ IH t e st' Heq. eauto.
  - intros depth href rest tree st v o Hcall Hbounds _ IH t e st' Heq. eauto.
  - intros depth href rest tree st v subTree st1 o Hcall Hbounds _ _ _ IH t e st' Heq. eauto.
  - intros depth href rest tree st v partial err st1 Hcall Hbounds _ IHsub t e st' Heq.
    inversion Heq; subst. eauto.
  - intros depth href rest tree st v st1 Hcall Hbounds _ _ t e st' Heq. discriminate.
Qed.

(** at the last level the bound allows, the loop of [crawl] lists the
    links and sends nothing *)
Lemma seq_each_shallow (depth : Z) (hrefs : list URL) (tree : list (URL * Sequential.URLTree))
      (st : Sequential.State) (o : Sequential.outcome (Sequential.URLTree * option error)) :
  (maxDepth c <= int_succ depth)%Z ->
  Sequential.each_to c w depth hrefs tree st o ->
  exists st', Sequential.fetched st' = Sequential.fetched st
              /\ Sequential.waits st' = Sequential.waits st
              /\ (o = Sequential.Panic st'
                  \/ exists es, o = Sequential.Return (Sequential.UMap (tree ++ es), None) st'
                                /\ map fst es = hrefs
                                /\ Forall (fun e => snd e = Sequential.UNil) es).
Proof.
  intros Hdeep Hrun.
  assert (forall href, Sequential.out_of_bounds c href depth = true) as Hout.
  { intros href. unfold Sequential.out_of_bounds. apply orb_true_iff. left.
    apply Z.leb_le. assumption. }
  induction Hrun
    as [depth tree st|depth href rest tree st Hcall|depth href rest tree st v o Hcall _ IH
        |depth href rest tree st v o Hcall _ _ IH
        |depth href rest tree st v subTree st1 o _ Hin _ _ _
        |depth href rest tree st v partial err st1 _ Hin _
        |depth href rest tree st v st1 _ Hin _];
    try (rewrite Hout in Hin; discriminate).
  - exists st. conj_split; try reflexivity. right. exists []. rewrite app_nil_r. auto.
  - exists st. conj_split; try reflexivity. left. reflexivity.
  - destruct (IH Hdeep Hout) as (st' & Hlog & Hw & [Hp|(es & Ho & Hmap & Hleaves)]);
      exists st'; simpl in *; conj_split; try assumption; [left; assumption|].
    right. exists ((href, Sequential.UNil) :: es). rewrite <- app_assoc in Ho.
    conj_split; [assumption|simpl; congruence|constructor; [reflexivity|assumption]].
  - destruct (IH Hdeep Hout) as (st' & Hlog & Hw & [Hp|(es & Ho & Hmap & Hleaves)]);
      exists st'; simpl in *; conj_split; try assumption; [left; assumption|].
    right. exists ((href, Sequential.UNil) :: es). rewrite <- app_assoc in Ho.
    conj_split; [assumption|simpl; congruence|constructor; [reflexivity|assumption]].
Qed.

(** a crawl at the last level the bound allows sends the request for its
    page and no other, and returns leaves only *)
Lemma seq_crawl_shallow (pageURL : URL) (depth : Z) (st : Sequential.State)
      (o : Sequential.outcome (Sequential.URLTree * option error)) :
  (maxDepth c <= int_succ depth)%Z ->
  Sequential.crawl_to c w pageURL depth st o ->
  forall st', Sequential.state_of o = Some st' ->
    (Sequential.fetched st' = Sequential.fetched st
     \/ Sequential.fetched st' = Sequential.fetched st ++ [(pageURL, depth)])
    /\ forall t, o = Sequential.Return (t, None) st' ->
                 Sequential.fetched st' = Sequential.fetched st ++ [(pageURL, depth)]
                 /\ exists es, t = Sequential.UMap es
                               /\ Forall (fun e => snd e = Sequential.UNil) es.
Proof.
  intros Hdeep Hrun st' Hst.
  inversion Hrun as [? ? ? err Hwait|? ? ? err Hwait Hget|? ? ? page Hwait Hget Hlinks
                     |? ? ? page err Hwait Hget Hlinks
                     |? ? ? page hrefs ? Hwait Hget Hlinks Heach]; subst;
    try (inversion Hst; subst; simpl; split; [auto|intros t Heq; discriminate]).
  destruct (seq_each_shallow _ _ _ _ _ Hdeep Heach)
    as (st1 & Hlog & _ & [->|(es & -> & _ & Hleaves)]);
    inversion Hst; subst; simpl in Hlog; rewrite Hlog.
  - split; [auto|]. intros t Heq. discriminate.
  - split; [auto|]. intros t Heq. inversion Heq; subst. split; [reflexivity|]. eauto.
Qed.

End SequentialFurther.

(** ** The links of a page *)

Section PageLinks.
Context `{NetURL}.




End PageLinks.

(** ** A crawler that has run *)

Section SecondRun.
Context `{NetURL}.
Variable c : Crawler.
Variable w : World.

(** links that are all in the visited set are listed as leaves, and the
    state stays as it is *)
Lemma seq_each_all_visited
      (recur : URL -> Z -> Sequential.State
               -> Sequential.outcome (Sequential.URLTree * option error))
      (depth : Z) (v : gset string) (n : nat) (log : list (URL * Z)) (hrefs : list URL) :
  forall tree,
    (forall href, href ∈ hrefs ->
                  exists k, Sequential.withoutScheme href = Some k /\ k ∈ v) ->
    Sequential.each c recur depth hrefs tree (Sequential.mkState v n log)
    = Sequential.Return
        (Sequential.UMap (tree ++ map (fun href => (href, Sequential.UNil)) hrefs), None)
        (Sequential.mkState v n log).
Proof.
  induction hrefs as [|href rest IH]; intros tree Hall; simpl.
  - rewrite app_nil_r. reflexivity.
  - destruct (Hall href) as (k & Hk & Hin); [left|].
    unfold Sequential.EnsureContains. rewrite Hk.
    destruct (decide (k ∈ v)) as [_|Hout]; [|contradiction].
    simpl. unfold Sequential.marked. simpl. rewrite IH.
    + rewrite <- app_assoc. reflexivity.
    + intros href' Hin'. apply Hall. right. assumption.
Qed.

(** the visited set of a crawl that returned a tree holds the key of
    every link of its page, and what it held before *)
Lemma seq_crawl_leaves_marked (fuel : nat) (st : Sequential.State) (existed : bool)
      (v : gset string) (t : Sequential.URLTree) (st' : Sequential.State) :
  Sequential.EnsureContains (root c) (Sequential.visited st) = Some (existed, v) ->
  Sequential.crawl c w fuel (root c) 0 (Sequential.marked st v)
  = Sequential.Return (t, None) st' ->
  exists hrefs es k,
    Sequential.page_links w (root c) hrefs
    /\ t = Sequential.UMap es /\ map fst es = hrefs
    /\ Sequential.withoutScheme (root c) = Some k /\ k ∈ Sequential.visited st'
    /\ forall href, href ∈ hrefs ->
                    exists k', Sequential.withoutScheme href = Some k'
                               /\ k' ∈ Sequential.visited st'.
Proof.
  intros Hcall Hrun.
  assert (Sequential.crawl c w fuel (root c) 0 (Sequential.marked st v)
          <> Sequential.OutOfFuel) as Hfuel by congruence.
  pose proof (seq_crawl_sound c w fuel _ _ _ Hfuel) as Hgraph.
  destruct (proj1 (seq_crawl_result c w) _ _ _ _ Hgraph _ _ _ Hrun) as [_ Hok].
  destruct (Hok eq_refl) as (hrefs & es & Hpage & Ht & Hmap & _ & Hkeys).
  destruct (seq_EnsureContains_inv _ _ _ _ Hcall) as (k & Hk & _ & Hv).
  assert (Sequential.state_of (Sequential.crawl c w fuel (root c) 0 (Sequential.marked st v))
          = Some st') as Hst by (rewrite Hrun; reflexivity).
  rewrite Hrun in Hgraph.
  destruct (proj1 (seq_crawl_grows c w) _ _ _ _ Hgraph st' eq_refl) as (new & Hvis & _).
  exists hrefs, es, k. conj_split; try assumption.
  apply Hvis. simpl. rewrite Hv. set_solver.
Qed.

End SecondRun.

(** ** Levels and hops *)

Section SequentialLevels.
Context `{NetURL}.
Variable c : Crawler.
Variable w : World.


End SequentialLevels.

(** * Further properties of the crawlers *)

(** X1.  Every request of a run goes to the host of the root, in the
    depth-first crawler and, whatever the interleaving, in the concurrent
    one; so an entry of the returned tree whose host is another one has no
    sub tree. *)
Theorem requests_stay_on_root_host :
  forall (lib : NetURL) (c : Crawler) (w : World),
    (forall fuel st',
        Sequential.state_of (Sequential.Run c w fuel Sequential.initial) = Some st' ->
        (forall u d, (u, d) ∈ Sequential.fetched st' -> Hostname u = Hostname (root c))
        /\ forall t, Sequential.Run c w fuel Sequential.initial
                     = Sequential.Return (t, None) st' ->
                     forall n u sub, Sequential.occurs_at n u sub t ->
                                     Hostname u <> Hostname (root c) ->
                                     sub = Sequential.UNil)
    /\ (forall url sh t,
           Concurrent.steps c w (Concurrent.initial, Concurrent.Pending url 0) (sh, t) ->
           (forall u d, (u, d) ∈ Concurrent.fetched sh -> Hostname u = Hostname (root c))
           /\ forall tree e, Concurrent.returned t = Some (tree, e) ->
                             forall n key sub, Concurrent.occurs_at n key sub tree ->
                                               sub <> Concurrent.LNil ->
                                               exists u, URL_String u = key
                                                         /\ Hostname u = Hostname (root c)).
Proof.
  intros lib c w. split.
  - intros fuel st' Hst.
    destruct (seq_Run_cases c w fuel Sequential.initial)
      as [[_ Hpanic]|(existed & v & _ & Hrun)].
    { rewrite Hpanic in *. inversion Hst; subst. split.
      - intros u d Hin. inversion Hin.
      - intros t Heq. discriminate. }
    rewrite Hrun in *.
    assert (Sequential.crawl c w fuel (root c) 0 (Sequential.marked Sequential.initial v)
            <> Sequential.OutOfFuel) as Hfuel.
    { intros Hout. rewrite Hout in Hst. discriminate. }
    pose proof (seq_crawl_sound c w fuel _ _ _ Hfuel) as Hgraph.
    assert (on_host c (Sequential.fetched st')) as Hhost.
    { eapply (proj1 (seq_crawl_host c w)); [eassumption|reflexivity| |eassumption].
      intros u d Hin. inversion Hin. }
    split; [exact Hhost|].
    intros t Heq n u sub Hocc Hother.
    destruct sub as [|es]; [reflexivity|]. exfalso. apply Hother.
    destruct (proj1 (seq_crawl_preorder c w) _ _ _ _ Hgraph _ _ Heq) as [_ Hlog].
    destruct (expanded_occurs _ _ _ _ Hocc) with (depth := int_succ 0) as (d & Hd);
      [discriminate|].
    apply (Hhost u d). rewrite Hlog. apply elem_of_app. right. right. assumption.
  - intros url sh t Hsteps.
    assert (on_host c (Concurrent.fetched sh)) as Hhost.
    { apply (conc_steps_host c w _ _ Hsteps). intros u d Hin. inversion Hin. }
    split; [exact Hhost|].
    intros tree e Hret n key sub Hocc Hsub.
    assert (sound Concurrent.initial (Concurrent.Pending url 0)) as Hsound by constructor.
    pose proof (conc_steps_sound c w _ _ Hsteps Hsound) as Hsound'. simpl in Hsound'.
    destruct t as [| |tr|err bg]; simpl in Hret; try discriminate.
    + inversion Hret; subst. inversion Hsound' as [| |? Htree|]; subst.
      destruct (Htree _ _ _ Hocc Hsub) as (u & d & Hin & Hkey).
      exists u. split; [assumption|]. eapply Hhost. eassumption.
    + inversion Hret; subst. inversion Hocc.
Qed.

Lemma requests_stay_on_root_host_witness :
  Hostname (Examples.url_of "http://h/a") = Hostname (root (Examples.crawler 2)).
Proof.
  destruct (requests_stay_on_root_host go_url (Examples.crawler 2) Examples.chain)
    as [Hseq _].
  eassert (Sequential.state_of
             (Sequential.Run (Examples.crawler 2) Examples.chain 3 Sequential.initial)
           = Some _) as Hst by (vm_compute; reflexivity).
  apply (proj1 (Hseq 3 _ Hst) (Examples.url_of "http://h/a") 1%Z).
  vm_compute. right. left.
Defined.

(** X2.  No page is requested twice in a run: the requests of a run are
    for URLs with different identity keys, in the depth-first crawler and,
    whatever the interleaving, in the concurrent one. *)
Theorem no_page_requested_twice :
  forall (lib : NetURL) (c : Crawler) (w : World),
    (forall fuel st',
        Sequential.state_of (Sequential.Run c w fuel Sequential.initial) = Some st' ->
        exists keys, seq_log_keys (Sequential.fetched st') keys /\ NoDup keys)
    /\ (forall url sh t,
           Concurrent.steps c w (Concurrent.initial, Concurrent.Pending url 0) (sh, t) ->
           exists keys, conc_log_keys (Concurrent.fetched sh) keys /\ NoDup keys).
Proof.
  intros lib c w. split.
  - intros fuel st' Hst.
    destruct (seq_Run_once c w fuel st' Hst) as (keys & Hkeys & Hnd & _). eauto.
  - intros url sh t Hsteps.
    destruct (conc_steps_once c w _ _ Hsteps) as (keys & Hkeys & Hnd & _); [|eauto].
    exists []. simpl. conj_split; [constructor|constructor|].
    intros k Hk. inversion Hk.
Qed.

Lemma no_page_requested_twice_witness :
  exists keys,
    seq_log_keys [(Examples.url_of "http://h/", 0%Z); (Examples.url_of "http://h/a", 1%Z)]
                 keys
    /\ NoDup keys.
Proof.
  eassert (Sequential.state_of
             (Sequential.Run (Examples.crawler 2) Examples.chain 3 Sequential.initial)
           = Some (Sequential.mkState _ _ [(Examples.url_of "http://h/", 0%Z);
                                           (Examples.url_of "http://h/a", 1%Z)]))
    as Hst by (vm_compute; reflexivity).
  exact (proj1 (no_page_requested_twice go_url (Examples.crawler 2) Examples.chain)
               3 _ Hst).
Defined.

(** X3.  The limiter is asked before every request.  In the depth-first
    crawler [Wait] has been called once for each request, and once more
    only when the last call failed; after a run that returned a tree the
    numbers are equal.  In the concurrent crawler there are never more
    requests than calls of [Wait]. *)
Theorem every_request_waits_for_limiter :
  forall (lib : NetURL) (c : Crawler) (w : World),
    (forall fuel st',
        Sequential.state_of (Sequential.Run c w fuel Sequential.initial) = Some st' ->
        (length (Sequential.fetched st') <= Sequential.waits st'
         <= S (length (Sequential.fetched st')))%nat
        /\ forall t, Sequential.Run c w fuel Sequential.initial
                     = Sequential.Return (t, None) st' ->
                     Sequential.waits st' = length (Sequential.fetched st'))
    /\ (forall url sh t,
           Concurrent.steps c w (Concurrent.initial, Concurrent.Pending url 0) (sh, t) ->
           (length (Concurrent.fetched sh) <= Concurrent.waits sh)%nat).
Proof.
  intros lib c w. split.
  - intros fuel st' Hst.
    destruct (seq_Run_cases c w fuel Sequential.initial)
      as [[_ Hpanic]|(existed & v & _ & Hrun)].
    { rewrite Hpanic in *. inversion Hst; subst. simpl. split; [lia|].
      intros t Heq. discriminate. }
    rewrite Hrun in *.
    assert (Sequential.crawl c w fuel (root c) 0 (Sequential.marked Sequential.initial v)
            <> Sequential.OutOfFuel) as Hfuel.
    { intros Hout. rewrite Hout in Hst. discriminate. }
    pose proof (seq_crawl_sound c w fuel _ _ _ Hfuel) as Hgraph.
    destruct (proj1 (seq_crawl_waits c w) _ _ _ _ Hgraph _ Hst) as (new & Hlog & Hw & Hok).
    simpl in *. rewrite Hlog. split; [lia|].
    intros t Heq. rewrite (Hok _ Heq). reflexivity.
  - intros url sh t Hsteps.
    apply (conc_steps_waits c w _ _ Hsteps). simpl. lia.
Qed.

Lemma every_request_waits_for_limiter_witness :
  (2 <= 2 <= 3)%nat.
Proof.
  eassert (Sequential.state_of
             (Sequential.Run (Examples.crawler 2) Examples.chain 3 Sequential.initial)
           = Some (Sequential.mkState _ 2 [(Examples.url_of "http://h/", 0%Z);
                                           (Examples.url_of "http://h/a", 1%Z)]))
    as Hst by (vm_compute; reflexivity).
  exact (proj1 (proj1 (every_request_waits_for_limiter go_url (Examples.crawler 2)
                         Examples.chain) 3 _ Hst)).
Defined.

(** X4.  The requests of a depth-first crawl that returns a tree are the
    request for its page followed by one request for every entry of the
    tree that has a sub tree, in the order of a depth-first walk of the
    tree and at the level of the entry. *)
Theorem request_log_is_preorder_of_tree :
  forall (lib : NetURL) (c : Crawler) (w : World),
    (forall fuel pageURL depth st t st',
        Sequential.crawl c w fuel pageURL depth st = Sequential.Return (t, None) st' ->
        Sequential.fetched st'
        = Sequential.fetched st ++ (pageURL, depth) :: expanded t (int_succ depth))
    /\ (forall fuel t st',
           Sequential.Run c w fuel Sequential.initial = Sequential.Return (t, None) st' ->
           Sequential.fetched st' = (root c, 0%Z) :: expanded t 1).
Proof.
  intros lib c w.
  assert (forall fuel pageURL depth st t st',
             Sequential.crawl c w fuel pageURL depth st = Sequential.Return (t, None) st' ->
             Sequential.fetched st'
             = Sequential.fetched st ++ (pageURL, depth) :: expanded t (int_succ depth))
    as Hcrawl.
  { intros fuel pageURL depth st t st' Hrun.
    assert (Sequential.crawl c w fuel pageURL depth st <> Sequential.OutOfFuel)
      as Hfuel by congruence.
    pose proof (seq_crawl_sound c w fuel _ _ _ Hfuel) as Hgraph.
    apply (proj1 (seq_crawl_preorder c w) _ _ _ _ Hgraph _ _ Hrun). }
  split; [exact Hcrawl|].
  intros fuel t st' Hrun.
  destruct (seq_Run_cases c w fuel Sequential.initial)
    as [[_ Hpanic]|(existed & v & _ & Heq)]; [congruence|].
  rewrite Heq in Hrun. apply Hcrawl in Hrun. exact Hrun.
Qed.

Lemma request_log_is_preorder_of_tree_witness :
  [(Examples.url_of "http://h/", 0%Z); (Examples.url_of "http://h/a", 1%Z)]
  = (root (Examples.crawler 2), 0%Z)
      :: expanded (Sequential.UMap
                     [(Examples.url_of "http://h/a",
                       Sequential.UMap [(Examples.url_of "http://h/b", Sequential.UNil)])]) 1.
Proof.
  eassert (Sequential.Run (Examples.crawler 2) Examples.chain 3 Sequential.initial
           = Sequential.Return
               (Sequential.UMap
                  [(Examples.url_of "http://h/a",
                    Sequential.UMap [(Examples.url_of "http://h/b", Sequential.UNil)])],
                None)
               (Sequential.mkState _ _ [(Examples.url_of "http://h/", 0%Z);
                                        (Examples.url_of "http://h/a", 1%Z)]))
    as Hrun by (vm_compute; reflexivity).
  exact (proj2 (request_log_is_preorder_of_tree go_url (Examples.crawler 2) Examples.chain)
               3 _ _ Hrun).
Defined.

(** X5.  No page is expanded twice in the tree of the depth-first
    crawler: the entry page and the entries that have a sub tree have
    identity keys that differ from one another, so a page that links back
    to a page crawled before, the entry page included, lists it as a
    leaf. *)
Theorem expanded_pages_are_distinct :
  forall (lib : NetURL) (c : Crawler) (w : World) fuel t st',
    Sequential.Run c w fuel Sequential.initial = Sequential.Return (t, None) st' ->
    exists keys, seq_log_keys ((root c, 0%Z) :: expanded t 1) keys /\ NoDup keys.
Proof.
  intros lib c w fuel t st' Hrun.
  assert (Sequential.state_of (Sequential.Run c w fuel Sequential.initial) = Some st')
    as Hst by (rewrite Hrun; reflexivity).
  destruct (seq_Run_once c w fuel st' Hst) as (keys & Hkeys & Hnd & _).
  exists keys. split; [|assumption].
  destruct (seq_Run_cases c w fuel Sequential.initial)
    as [[_ Hpanic]|(existed & v & _ & Heq)]; [congruence|].
  rewrite Heq in Hrun.
  assert (Sequential.crawl c w fuel (root c) 0 (Sequential.marked Sequential.initial v)
          <> Sequential.OutOfFuel) as Hfuel by congruence.
  pose proof (seq_crawl_sound c w fuel _ _ _ Hfuel) as Hgraph.
  destruct (proj1 (seq_crawl_preorder c w) _ _ _ _ Hgraph _ _ Hrun) as [_ Hlog].
  rewrite Hlog in Hkeys. exact Hkeys.
Qed.

Lemma expanded_pages_are_distinct_witness :
  exists keys,
    seq_log_keys
      ((root (Examples.crawler 5), 0%Z)
         :: expanded (Sequential.UMap
                        [(Examples.url_of "http://h/a",
                          Sequential.UMap [(Examples.url_of "http://h/", Sequential.UNil)])])
                     1) keys
    /\ NoDup keys.
Proof.
  set (w := Examples.site [("http://h/", ["/a"]); ("http://h/a", ["/"])]).
  eassert (Sequential.Run (Examples.crawler 5) w 6 Sequential.initial
           = Sequential.Return
               (Sequential.UMap
                  [(Examples.url_of "http://h/a",
                    Sequential.UMap [(Examples.url_of "http://h/", Sequential.UNil)])],
                None) _)
    as Hrun by (vm_compute; reflexivity).
  exact (expanded_pages_are_distinct go_url (Examples.crawler 5) w 6 _ _ Hrun).
Defined.

(** X6.  Every node of the tree of the depth-first crawler lists the
    links of its page: an entry with a sub tree has, in the sub tree, one
    entry for each link [uniqueLinksInPage] finds on the page of the entry,
    in the order of the page. *)
Theorem every_node_lists_links_of_its_page :
  forall (lib : NetURL) (c : Crawler) (w : World) fuel t st',
    Sequential.Run c w fuel Sequential.initial = Sequential.Return (t, None) st' ->
    forall n u es, Sequential.occurs_at n u (Sequential.UMap es) t ->
                   Sequential.page_links w u (map fst es).
Proof.
  intros lib c w fuel t st' Hrun.
  destruct (seq_Run_cases c w fuel Sequential.initial)
    as [[_ Hpanic]|(existed & v & _ & Heq)]; [congruence|].
  rewrite Heq in Hrun.
  assert (Sequential.crawl c w fuel (root c) 0 (Sequential.marked Sequential.initial v)
          <> Sequential.OutOfFuel) as Hfuel by congruence.
  pose proof (seq_crawl_sound c w fuel _ _ _ Hfuel) as Hgraph.
  exact (proj2 (proj1 (seq_crawl_nodes c w) _ _ _ _ Hgraph _ _ Hrun)).
Qed.

Lemma every_node_lists_links_of_its_page_witness :
  Sequential.page_links Examples.chain (Examples.url_of "http://h/a")
                        (map fst [(Examples.url_of "http://h/b", Sequential.UNil)]).
Proof.
  eassert (Sequential.Run (Examples.crawler 2) Examples.chain 3 Sequential.initial
           = Sequential.Return
               (Sequential.UMap
                  [(Examples.url_of "http://h/a",
                    Sequential.UMap [(Examples.url_of "http://h/b", Sequential.UNil)])],
                None) _)
    as Hrun by (vm_compute; reflexivity).
  apply (every_node_lists_links_of_its_page go_url (Examples.crawler 2) Examples.chain
           3 _ _ Hrun 1%nat).
  constructor. left.
Defined.

(** X7.  The error of a depth-first run is the first failure, wrapped
    once with the URL of the page concerned, however deep the page was
    found, and the run stopped there: either the last call of [Wait]
    failed, or the last request sent failed, or the page of the last
    request did not parse. *)
Theorem run_error_names_failing_page :
  forall (lib : NetURL) (c : Crawler) (w : World) fuel t e st',
    Sequential.Run c w fuel Sequential.initial = Sequential.Return (t, Some e) st' ->
    seq_failure w e st'.
Proof.
  intros lib c w fuel t e st' Hrun.
  destruct (seq_Run_cases c w fuel Sequential.initial)
    as [[_ Hpanic]|(existed & v & _ & Heq)]; [congruence|].
  rewrite Heq in Hrun.
  assert (Sequential.crawl c w fuel (root c) 0 (Sequential.marked Sequential.initial v)
          <> Sequential.OutOfFuel) as Hfuel by congruence.
  pose proof (seq_crawl_sound c w fuel _ _ _ Hfuel) as Hgraph.
  exact (proj1 (seq_crawl_error c w) _ _ _ _ Hgraph _ _ _ Hrun).
Qed.

Lemma run_error_names_failing_page_witness :
  exists st',
    seq_failure (Examples.site_failing_at "http://h/b"
                   [("http://h/", ["/a"; "/c"]); ("http://h/a", ["/b"])])
                (Wrapf (ErrExternal 0)
                       (Sequential.fetch_message (Examples.url_of "http://h/b")))
                st'.
Proof.
  set (w := Examples.site_failing_at "http://h/b"
              [("http://h/", ["/a"; "/c"]); ("http://h/a", ["/b"])]).
  eassert (Sequential.Run (Examples.crawler 5) w 6 Sequential.initial
           = Sequential.Return
               (_, Some (Wrapf (ErrExternal 0)
                               (Sequential.fetch_message (Examples.url_of "http://h/b")))) _)
    as Hrun by (vm_compute; reflexivity).
  eexists. exact (run_error_names_failing_page go_url (Examples.crawler 5) w 6 _ _ _ Hrun).
Defined.

(** X8.  With a bound of 1, the default of the command line, or less, the
    depth-first crawler requests the entry page and nothing else, needs no
    nested call, and returns the links of the entry page as leaves.  The
    concurrent crawler with the bound 1 requests the entry page at most,
    and with the bound 0 it requests nothing. *)
Theorem shallow_bound_requests_entry_only :
  forall (lib : NetURL) (c : Crawler) (w : World),
    is_int (maxDepth c) ->
    ((maxDepth c <= 1)%Z ->
     Sequential.Run c w 1 Sequential.initial <> Sequential.OutOfFuel
     /\ forall fuel st',
         Sequential.state_of (Sequential.Run c w fuel Sequential.initial) = Some st' ->
         (Sequential.fetched st' = [] \/ Sequential.fetched st' = [(root c, 0%Z)])
         /\ forall t, Sequential.Run c w fuel Sequential.initial
                      = Sequential.Return (t, None) st' ->
                      Sequential.fetched st' = [(root c, 0%Z)]
                      /\ exists es, t = Sequential.UMap es
                                    /\ Forall (fun e => snd e = Sequential.UNil) es)
    /\ ((0 <= maxDepth c <= 1)%Z ->
        forall url sh t,
          Concurrent.steps c w (Concurrent.initial, Concurrent.Pending url 0) (sh, t) ->
          Concurrent.fetched sh = []
          \/ (maxDepth c = 1%Z /\ Concurrent.fetched sh = [(url, 0%Z)])).
Proof.
  intros lib c w Hint. split.
  - intros Hshallow. split.
    { unfold Sequential.Run.
      destruct (Sequential.EnsureContains (root c) (Sequential.visited Sequential.initial))
        as [[existed v]|]; [|discriminate].
      apply seq_crawl_fuel; try assumption; unfold int_max; lia. }
    intros fuel st' Hst.
    destruct (seq_Run_cases c w fuel Sequential.initial)
      as [[_ Hpanic]|(existed & v & _ & Hrun)].
    { rewrite Hpanic in *. inversion Hst; subst. split; [left; reflexivity|].
      intros t Heq. discriminate. }
    rewrite Hrun in *.
    assert (Sequential.crawl c w fuel (root c) 0 (Sequential.marked Sequential.initial v)
            <> Sequential.OutOfFuel) as Hfuel.
    { intros Hout. rewrite Hout in Hst. discriminate. }
    pose proof (seq_crawl_sound c w fuel _ _ _ Hfuel) as Hgraph.
    assert (maxDepth c <= int_succ 0)%Z as Hdeep by exact Hshallow.
    destruct (seq_crawl_shallow c w _ _ _ _ Hdeep Hgraph _ Hst) as [Hlog Hok].
    simpl in *. split; [exact Hlog|exact Hok].
  - intros Hshallow url sh t Hsteps.
    assert (Concurrent.pending (depth_ok c w url) (Concurrent.Pending url 0)) as Hpending.
    { constructor. split; [lia|]. apply Concurrent.hops_root. }
    assert (requests_ok c w url Concurrent.initial) as Hreq.
    { intros u d Hin. inversion Hin. }
    destruct (conc_steps_depth c w url _ _ Hint Hsteps Hpending Hreq) as [_ Hreq'].
    simpl in Hreq'.
    assert (forall x, x ∈ Concurrent.fetched sh -> x = (url, 0%Z) /\ maxDepth c = 1%Z)
      as Hall.
    { intros [u d] Hin. destruct (Hreq' _ _ Hin) as [Hd Hhops].
      assert (d = 0%Z) as -> by lia. simpl in Hhops.
      inversion Hhops; subst. split; [reflexivity|lia]. }
    destruct (conc_steps_once c w _ _ Hsteps) as (keys & Hkeys & Hnd & _).
    { exists []. simpl. conj_split; [constructor|constructor|].
      intros k Hk. inversion Hk. }
    simpl in Hkeys.
    destruct (conc_log_single _ _ (url, 0%Z) Hkeys Hnd) as [Hnone|Hone].
    + intros x Hx. apply Hall. assumption.
    + left. assumption.
    + right. split; [|assumption]. apply (Hall (url, 0%Z)). rewrite Hone. left.
Qed.

Lemma shallow_bound_requests_entry_only_witness :
  is_int 1 /\ (1 <= 1)%Z
  /\ Sequential.Run (Examples.crawler 1) Examples.chain 1 Sequential.initial
     <> Sequential.OutOfFuel.
Proof.
  assert (is_int 1) as Hint by (unfold is_int, int_min, int_max; lia).
  assert (1 <= 1)%Z as Hle by lia.
  split; [exact Hint|]. split; [exact Hle|].
  exact (proj1 (proj1 (shallow_bound_requests_entry_only go_url (Examples.crawler 1)
                         Examples.chain Hint) Hle)).
Defined.

(** X9.  A printed tree has one line for each of its entries, those of
    the sub trees included, when no link holds a line end: for
    [URLTree.string] and for [LinkTree.string] alike. *)
Theorem printed_tree_has_line_per_entry :
  forall (lib : NetURL),
    (forall t indent out,
        Sequential.string_ t indent = Some out ->
        Forall (fun u => count_lines (URL_String u) = 0%nat) (tree_links t) ->
        count_lines out = length (tree_links t))
    /\ (forall t indent,
           Forall (fun page => count_lines page = 0%nat) (tree_pages t) ->
           count_lines (Concurrent.string_ t indent) = length (tree_pages t)).
Proof.
  intros lib. split.
  - intros t indent out. apply seq_string_lines.
  - intros t indent. apply conc_string_lines.
Qed.

Lemma printed_tree_has_line_per_entry_witness :
  count_lines
    (Concurrent.string_
       (Concurrent.LMap [("http://h/a", Concurrent.LMap [("http://h/b", Concurrent.LNil)]);
                         ("http://h/c", Concurrent.LNil)]) 0)
  = 3%nat.
Proof.
  apply (proj2 (printed_tree_has_line_per_entry go_url)
               (Concurrent.LMap
                  [("http://h/a", Concurrent.LMap [("http://h/b", Concurrent.LNil)]);
                   ("http://h/c", Concurrent.LNil)]) 0%nat).
  repeat constructor.
Defined.

(** X10.  Without an error among the results, [collectResults] returns
    the Go map that holds each result under its link, the last one to
    arrive when links coincide; so when the links of the results differ
    from one another the map is the same whatever the order in which the
    funnel delivers them. *)
Theorem collected_tree_is_order_free :
  (forall arrivals,
      Forall (fun r => Concurrent.err r = None) arrivals ->
      exists es,
        Concurrent.collectResults arrivals = (Concurrent.LMap es, None)
        /\ NoDup (map fst es)
        /\ list_to_map es = stored ∅ arrivals)
  /\ (forall before r after m,
         Concurrent.link r ∉ map Concurrent.link after ->
         stored m (before ++ r :: after) !! Concurrent.link r = Some (Concurrent.tree r))
  /\ (forall arrivals arrivals' es es',
         NoDup (map Concurrent.link arrivals) -> arrivals ≡ₚ arrivals' ->
         Concurrent.collectResults arrivals = (Concurrent.LMap es, None) ->
         Concurrent.collectResults arrivals' = (Concurrent.LMap es', None) ->
         es ≡ₚ es').
Proof.
  assert (forall arrivals tree0 es,
             Concurrent.collect tree0 arrivals = (Concurrent.LMap es, None) ->
             Forall (fun r => Concurrent.err r = None) arrivals) as Hok.
  { induction arrivals as [|r rs IH]; intros tree0 es; simpl; [constructor|].
    destruct (Concurrent.err r) eqn:Hr; [discriminate|].
    intros Heq. constructor; [assumption|eauto]. }
  conj_split.
  - intros arrivals Hall.
    destruct (collect_stored arrivals [] Hall) as (es & Hes & Hnd & Hmap); [constructor|].
    exists es. auto.
  - intros before r after m Hout. unfold stored. rewrite foldl_app. simpl.
    fold (stored (<[Concurrent.link r := Concurrent.tree r]>
                    (foldl (fun m r => <[Concurrent.link r := Concurrent.tree r]> m)
                           m before)) after).
    rewrite (stored_lookup_out _ _ _ Hout). apply lookup_insert_eq.
  - intros arrivals arrivals' es es' Hnd Hperm Hes Hes'.
    destruct (collect_stored arrivals [] (Hok _ _ _ Hes)) as (es0 & Hes0 & Hnd0 & Hmap0);
      [constructor|].
    destruct (collect_stored arrivals' [] (Hok _ _ _ Hes')) as (es1 & Hes1 & Hnd1 & Hmap1);
      [constructor|].
    unfold Concurrent.collectResults in *.
    assert (es0 = es) as -> by congruence. assert (es1 = es') as -> by congruence.
    rewrite <- (map_to_list_to_map es Hnd0), <- (map_to_list_to_map es' Hnd1).
    rewrite Hmap0, Hmap1, (stored_order_free _ _ _ Hnd Hperm). reflexivity.
Qed.

Lemma collected_tree_is_order_free_witness :
  [("http://h/b", Concurrent.LNil); ("http://h/a", Concurrent.LMap [])]
  ≡ₚ [("http://h/a", Concurrent.LMap []); ("http://h/b", Concurrent.LNil)].
Proof.
  apply (proj2 (proj2 collected_tree_is_order_free)
               [Concurrent.mkResult "http://h/b" Concurrent.LNil None;
                Concurrent.mkResult "http://h/a" (Concurrent.LMap []) None]
               [Concurrent.mkResult "http://h/a" (Concurrent.LMap []) None;
                Concurrent.mkResult "http://h/b" Concurrent.LNil None]).
  - simpl. apply NoDup_cons. split; [|apply NoDup_singleton].
    intros Hin. apply list_elem_of_singleton in Hin. discriminate.
  - apply perm_swap.
  - reflexivity.
  - reflexivity.
Defined.





(** X13.  A crawler is good for one run.  The visited set stays in the
    [Crawler], so a second [Run] of the depth-first crawler, after one that
    returned a tree, requests the entry page again and nothing else, and
    returns the links of the entry page as leaves; a second [crawl] of the
    entry URL in the concurrent crawler returns the nil tree at once,
    without a request. *)
Theorem crawler_is_single_use :
  forall (lib : NetURL) (c : Crawler) (w : World),
    (forall fuel t st' fuel',
        Sequential.Run c w fuel Sequential.initial = Sequential.Return (t, None) st' ->
        limiter_Wait w (Sequential.waits st') = None ->
        exists es,
          t = Sequential.UMap es
          /\ Sequential.Run c w (S fuel') st'
             = Sequential.Return
                 (Sequential.UMap (map (fun href => (href, Sequential.UNil)) (map fst es)),
                  None)
                 (Sequential.mkState (Sequential.visited st') (S (Sequential.waits st'))
                                     (Sequential.fetched st' ++ [(root c, 0%Z)])))
    /\ (forall url sh t r,
           Concurrent.steps c w (Concurrent.initial, Concurrent.Pending url 0) (sh, t) ->
           Concurrent.returned t = Some r ->
           Concurrent.crawl_begin c w url 0 sh
           = Some (Concurrent.Done Concurrent.LNil,
                   Concurrent.mkShared (Concurrent.visited sh) (Concurrent.waits sh)
                                       (Concurrent.fetched sh) (Concurrent.crashed sh))).
Proof.
  intros lib c w. split.
  - intros fuel t st' fuel' Hrun Hwait.
    destruct (seq_Run_cases c w fuel Sequential.initial)
      as [[_ Hpanic]|(existed & v & Hcall & Heq)]; [congruence|].
    rewrite Heq in Hrun.
    destruct (seq_crawl_leaves_marked c w _ _ _ _ _ _ Hcall Hrun)
      as (hrefs & es & k & (page & Hget & Hlinks) & Ht & Hmap & Hk & Hin & Hkeys).
    exists es. split; [assumption|].
    unfold Sequential.Run, Sequential.EnsureContains. rewrite Hk.
    destruct (decide (k ∈ Sequential.visited st')) as [_|Hout]; [|contradiction].
    simpl. rewrite Hwait, Hget, Hlinks.
    unfold Sequential.sent, Sequential.marked. simpl.
    rewrite (seq_each_all_visited c); [rewrite Hmap; reflexivity|assumption].
  - intros url sh t r Hsteps Hret.
    destruct (conc_returned_marked c w url _ _ _ Hsteps) as (k & Hk & Hin); [congruence|].
    eapply conc_begin_visited; eassumption.
Qed.

Lemma crawler_is_single_use_witness :
  exists es st',
    Sequential.UMap
      [(Examples.url_of "http://h/a",
        Sequential.UMap [(Examples.url_of "http://h/b", Sequential.UNil)])]
    = Sequential.UMap es
    /\ Sequential.Run (Examples.crawler 2) Examples.chain 1 st'
       = Sequential.Return
           (Sequential.UMap (map (fun href => (href, Sequential.UNil)) (map fst es)), None)
           (Sequential.mkState (Sequential.visited st') (S (Sequential.waits st'))
                               (Sequential.fetched st'
                                ++ [(root (Examples.crawler 2), 0%Z)])).
Proof.
  eassert (Sequential.Run (Examples.crawler 2) Examples.chain 3 Sequential.initial
           = Sequential.Return
               (Sequential.UMap
                  [(Examples.url_of "http://h/a",
                    Sequential.UMap [(Examples.url_of "http://h/b", Sequential.UNil)])],
                None) _)
    as Hrun by (vm_compute; reflexivity).
  destruct (proj1 (crawler_is_single_use go_url (Examples.crawler 2) Examples.chain)
                  3 _ _ 0%nat Hrun eq_refl) as (es & Ht & Hsecond).
  exists es. eexists. split; [exact Ht|exact Hsecond].
Defined.

(** X14.  Every node of a tree the concurrent crawler returns lists the
    links of its page: the entries under a page are the links
    [findLinksInPage] found on it, each resolved by [Crawler.parseToAbsURL]
    and printed, all of them and nothing else, whatever the interleaving;
    the same holds of the top of the tree and the entry URL. *)
Theorem concurrent_tree_lists_page_links :
  forall (lib : NetURL) (c : Crawler) (w : World) url sh t tree,
    Concurrent.steps c w (Concurrent.initial, Concurrent.Pending url 0) (sh, t) ->
    Concurrent.returned t = Some (tree, None) ->
    (forall es, tree = Concurrent.LMap es -> lists_page c w (URL_String url) (map fst es))
    /\ forall n key es, Concurrent.occurs_at n key (Concurrent.LMap es) tree ->
                        lists_page c w key (map fst es).
Proof.
  intros lib c w url sh t tree Hsteps Hret.
  assert (listed c w (URL_String url) t) as Hlisted.
  { apply (conc_steps_listed c w _ _ Hsteps). constructor. }
  destruct t as [| |tr|err bg]; simpl in Hret; try discriminate.
  inversion Hret; subst.
  inversion Hlisted as [| | |? es Hpage Htree|]; subst.
  - split; [discriminate|]. intros n key es Hocc. inversion Hocc.
  - split; [|exact Htree]. intros es' Heq. inversion Heq; subst. assumption.
Qed.

Lemma concurrent_tree_lists_page_links_witness :
  lists_page (Examples.crawler 2) Examples.chain "http://h/a"
             (map fst [("http://h/b", Concurrent.LNil)]).
Proof.
  eassert (run_moves (Examples.crawler 2) Examples.chain
                     [Begin; Into 0 Begin; Into 0 (Into 0 Begin); Into 0 (Receive 0);
                      Into 0 Close; Receive 0; Close]
                     (Concurrent.initial,
                      Concurrent.Pending (Examples.url_of "http://h/") 0)
           = Some (_, Concurrent.Done
                        (Concurrent.LMap
                           [("http://h/a",
                             Concurrent.LMap [("http://h/b", Concurrent.LNil)])])))
    as Hmoves by (vm_compute; reflexivity).
  apply conc_run_moves_sound in Hmoves.
  apply (proj2 (concurrent_tree_lists_page_links go_url _ _ _ _ _ _ Hmoves eq_refl) 1%nat).
  constructor. left.
Defined.



(** X16.  The links [findLinksInPage] returns are values of href
    attributes of anchors of the page, as they are written there; and for
    every anchor whose first href parses, the result has a link with the
    identity key of that href. *)
Theorem concurrent_page_links_cover_first_hrefs :
  forall (lib : NetURL) (doc : Node) (links : list string),
    Concurrent.links_of doc = Some links ->
    (forall l, l ∈ links ->
               exists n attr, n ∈ anchors doc /\ attr ∈ Attr_of n
                              /\ Key attr = "href" /\ Val attr = l)
    /\ forall n val u,
        n ∈ anchors doc -> first_href (Attr_of n) = Some val -> Parse val = Some u ->
        exists k l u', Concurrent.urlWithoutScheme u = Some k
                       /\ l ∈ links /\ Parse l = Some u'
                       /\ Concurrent.urlWithoutScheme u' = Some k.
Proof.
  intros lib doc links. rewrite conc_links_of_anchors.
  destruct (visit_each Concurrent.visitLink (anchors doc) ([], ∅)) as [[links' seen]|]
    eqn:Hrun; [|discriminate].
  intros Heq. inversion Heq; subst. clear Heq.
  destruct (conc_visit_each_cover _ _ _ Hrun) as ((added & Hadded & Hfrom) & _ & Hfirst).
  simpl in *. subst links. split; [exact Hfrom|].
  intros n val u Hn Hval Hu.
  destruct (Hfirst _ _ _ Hn Hval Hu) as (k & Hk & Hseen).
  assert (conc_page_inv (([] : list string), (∅ : gset string))) as Hinit.
  { exists []. split; [constructor|]. split; [constructor|]. intros k'. set_solver. }
  destruct (conc_page_inv_each _ _ _ Hinit Hrun) as (keys & Hkeys & _ & Hiff).
  simpl in *. apply Hiff in Hseen.
  apply list_elem_of_lookup in Hseen as [i Hi].
  destruct (Forall2_lookup_r _ _ _ _ _ Hkeys Hi) as (l & Hl & u' & Hu' & Hk').
  exists k, l, u'. conj_split; try assumption.
  apply list_elem_of_lookup. eauto.
Qed.

Lemma concurrent_page_links_cover_first_hrefs_witness :
  exists n attr, n ∈ anchors Examples.two_hrefs /\ attr ∈ Attr_of n
                 /\ Key attr = "href" /\ Val attr = "/b".
Proof.
  apply (proj1 (concurrent_page_links_cover_first_hrefs go_url Examples.two_hrefs
                  ["/a"; "/b"] eq_refl)).
  right. left.
Defined.

(** * The claims of the specification *)




(** C3.  In the concurrent crawler, [collectResults] returns the first
    error the funnel delivers, with the nil tree, whatever arrives later;
    the call that receives the failure of a child returns that very error;
    a call below which a call has failed can only return an error; and a
    run in which a request or a parse failed anywhere can only return an
    error.  In the depth-first crawler, the loop of [crawl] returns the
    error of a nested crawl at once, with the nil tree, and [Run] returns a
    tree only after a run without failure. *)
Theorem first_error_fails_the_run :
  forall (lib : NetURL) (c : Crawler) (w : World),
    (forall tree0 oks bad later e,
        Forall (fun r => Concurrent.err r = None) oks ->
        Concurrent.err bad = Some e ->
        Concurrent.collect tree0 (oks ++ bad :: later) = (Concurrent.LNil, Some e))
    /\ (forall sh tree before l e bg after,
           exists bg',
             Concurrent.step c w
               (sh, Concurrent.Collecting tree (before ++ (l, Concurrent.Failed e bg) :: after))
               (sh, Concurrent.Failed e bg')
             /\ Concurrent.returned (Concurrent.Failed e bg')
                = Some (Concurrent.LNil, Some e))
    /\ (forall a b r,
           Concurrent.steps c w a b -> Concurrent.lost (snd a) ->
           Concurrent.returned (snd b) = Some r ->
           exists e, r = (Concurrent.LNil, Some e))
    /\ (forall url sh t r,
           Concurrent.steps c w (Concurrent.initial, Concurrent.Pending url 0) (sh, t) ->
           Concurrent.returned t = Some r ->
           ~ Concurrent.all_well w sh ->
           exists e, r = (Concurrent.LNil, Some e))
    /\ (forall recur depth href rest tree st v partial e st',
           Sequential.EnsureContains href (Sequential.visited st) = Some (false, v) ->
           Sequential.out_of_bounds c href depth = false ->
           recur href (int_succ depth) (Sequential.marked st v)
           = Sequential.Return (partial, Some e) st' ->
           Sequential.each c recur depth (href :: rest) tree st
           = Sequential.Return (Sequential.UNil, Some e) st')
    /\ (forall fuel st t e st',
           Sequential.Run c w fuel st = Sequential.Return (t, e) st' ->
           (e <> None -> t = Sequential.UNil)
           /\ (e = None -> Sequential.all_well w st -> Sequential.all_well w st')).
Proof.
  intros lib c w. conj_split.
  - intros tree0 oks bad later e Hoks Hbad. revert tree0.
    induction Hoks as [|r oks Hr _ IH]; intros tree0; simpl.
    + rewrite Hbad. reflexivity.
    + rewrite Hr. apply IH.
  - intros sh tree before l e bg after. eexists. split; [|reflexivity].
    apply Concurrent.step_receive_error.
  - intros a b r Hsteps Hlost Hret.
    eapply lost_returns_error; [|eassumption].
    apply (proj1 (conc_steps_lost c w _ _ Hsteps)). assumption.
  - intros url sh t r Hsteps Hret Hbad.
    eapply lost_returns_error; [|eassumption].
    destruct (proj2 (conc_steps_lost c w _ _ Hsteps)) as [Hwell|Hlost];
      [|contradiction|assumption].
    split; simpl; [intros n Hn; lia|intros u d Hin; inversion Hin].
  - intros recur depth href rest tree st v partial e st' Hcall Hbounds Hsub. simpl.
    rewrite Hcall, Hbounds, Hsub. reflexivity.
  - intros fuel st t e st' Hrun.
    destruct (seq_Run_cases c w fuel st) as [[_ Hpanic]|(existed & v & _ & Hcrawl)];
      [congruence|].
    rewrite Hcrawl in Hrun.
    assert (Sequential.crawl c w fuel (root c) 0 (Sequential.marked st v)
            <> Sequential.OutOfFuel) as Hfuel by congruence.
    pose proof (seq_crawl_sound c w fuel _ _ _ Hfuel) as Hgraph.
    destruct (proj1 (seq_crawl_result c w) _ _ _ _ Hgraph _ _ _ Hrun) as [Herr Hok].
    split; [assumption|]. intros He Hwell.
    destruct (Hok He) as (hrefs & es & _ & _ & _ & Hkeep & _). apply Hkeep. exact Hwell.
Qed.

Lemma first_error_fails_the_run_witness :
  exists t e st',
    Sequential.Run (Examples.crawler 5)
                   (Examples.site_failing_at "http://h/b"
                      [("http://h/", ["/a"; "/c"]); ("http://h/a", ["/b"])])
                   6 Sequential.initial
    = Sequential.Return (t, Some e) st'
    /\ t = Sequential.UNil.
Proof.
  set (w := Examples.site_failing_at "http://h/b"
              [("http://h/", ["/a"; "/c"]); ("http://h/a", ["/b"])]).
  eassert (Sequential.Run (Examples.crawler 5) w 6 Sequential.initial
           = Sequential.Return (_, Some _) _) as Hrun by (vm_compute; reflexivity).
  destruct (first_error_fails_the_run go_url (Examples.crawler 5) w)
    as (_ & _ & _ & _ & _ & Hseq).
  destruct (Hseq _ _ _ _ _ Hrun) as [Hnil _].
  eexists _, _, _. split; [exact Hrun|]. apply Hnil. discriminate.
Defined.

(** C4, as the code has it.  A run of the depth-first crawler that ends
    without error returns a map, never nil, with one entry for each link
    of the entry page.  A run of the concurrent crawler returns a map when
    the bound is not 0 (and the entry URL, once [Run] has normalised it,
    has the host of the root, as it has with [net/url]): the returned map
    is empty exactly when the entry page has no link. *)
Theorem root_tree_not_nil :
  forall (lib : NetURL) (c : Crawler) (w : World),
    (forall fuel st t st',
        Sequential.Run c w fuel st = Sequential.Return (t, None) st' ->
        exists hrefs es,
          Sequential.page_links w (root c) hrefs
          /\ t = Sequential.UMap es /\ map fst es = hrefs)
    /\ (forall url tree,
           maxDepth c <> 0%Z ->
           Hostname url = Hostname (root c) ->
           Concurrent.Run_start c = inr url ->
           Concurrent.Runs c w (tree, None) ->
           exists es links,
             tree = Concurrent.LMap es
             /\ Concurrent.page_links w url links
             /\ (links = [] <-> es = [])).
Proof.
  intros lib c w. split.
  - intros fuel st t st' Hrun.
    destruct (seq_Run_cases c w fuel st) as [[_ Hpanic]|(existed & v & _ & Hcrawl)];
      [congruence|].
    rewrite Hcrawl in Hrun.
    assert (Sequential.crawl c w fuel (root c) 0 (Sequential.marked st v)
            <> Sequential.OutOfFuel) as Hfuel by congruence.
    pose proof (seq_crawl_sound c w fuel _ _ _ Hfuel) as Hgraph.
    destruct (proj1 (seq_crawl_result c w) _ _ _ _ Hgraph _ _ _ Hrun) as [_ Hok].
    destruct (Hok eq_refl) as (hrefs & es & Hpage & Ht & Hmap & _).
    exists hrefs, es. auto.
  - intros url tree Hdepth Hhost Hstart Hruns.
    unfold Concurrent.Runs in Hruns. rewrite Hstart in Hruns.
    destruct Hruns as (sh & t & Hsteps & Hret).
    assert (root_state w url (Concurrent.initial, Concurrent.Pending url 0)) as Hroot.
    { left. split; reflexivity. }
    pose proof (conc_steps_root c w url _ _ Hdepth Hhost Hsteps Hroot) as Hfinal.
    destruct Hfinal as [[Ht _]|[(tr & cs & links & Ht & _)
                       |[(es & links & Ht & Hpage & Hiff)|(e & bg & Ht)]]];
      simpl in Ht; subst; simpl in Hret; try discriminate.
    inversion Hret; subst. exists es, links. auto.
Qed.

Lemma root_tree_not_nil_witness :
  (1 <> 0)%Z
  /\ Hostname (Examples.url_of "http://h/") = Hostname (root (Examples.crawler 1))
  /\ exists es links,
      Concurrent.LMap [("http://h/a", Concurrent.LNil)] = Concurrent.LMap es
      /\ Concurrent.page_links Examples.chain (Examples.url_of "http://h/") links
      /\ (links = [] <-> es = []).
Proof.
  split; [discriminate|]. split; [reflexivity|].
  apply (proj2 (root_tree_not_nil go_url (Examples.crawler 1) Examples.chain)
               (Examples.url_of "http://h/"));
    [discriminate|reflexivity|reflexivity|].
  unfold Concurrent.Runs.
  change (Concurrent.Run_start (Examples.crawler 1))
    with (inr (Examples.url_of "http://h/") : error + URL).
  eexists _, _. split.
  - apply (conc_run_moves_sound _ _ [Begin; Into 0 Begin; Receive 0; Close]).
    vm_compute. reflexivity.
  - reflexivity.
Defined.

(** C4 as stated fails in the concurrent crawler when the bound is 0:
    [crawl] returns the nil tree and no error for the entry page itself. *)
Lemma root_tree_nil_at_depth_zero :
  Concurrent.Runs (Examples.crawler 0) Examples.chain (Concurrent.LNil, None).
Proof.
  unfold Concurrent.Runs.
  change (Concurrent.Run_start (Examples.crawler 0))
    with (inr (Examples.url_of "http://h/") : error + URL).
  eexists _, _. split.
  - apply (conc_run_moves_sound _ _ [Begin]). vm_compute. reflexivity.
  - reflexivity.
Qed.

(** C5.  The depth-first crawler reads the first href of an anchor only
    and resolves it against the URL of the page, before the page-local
    deduplication.  The concurrent crawler does neither: on the page
    [http://h/foo/bar], the href [baz] is resolved against the root
    [http://h/] to [http://h/baz], which is the page it then requests, not
    [http://h/foo/baz]; and the second href of an anchor is read when the
    first one was seen before on the page. *)
Theorem relative_href_resolved_against_root :
  (forall (lib : NetURL) pageURL attrs attrs' st,
      first_href attrs = first_href attrs' ->
      Sequential.visit_attrs pageURL attrs st = Sequential.visit_attrs pageURL attrs' st)
  /\ (forall (lib : NetURL) pageURL n val links seen links' seen',
         first_href (Attr_of n) = Some val ->
         Sequential.visitLink pageURL n (links, seen) = Some (links', seen') ->
         links' = links
         \/ exists parsed,
             Parse val = Some parsed
             /\ links' = links ++ [ResolveReference pageURL
                                     (if String.eqb (Path parsed) ""
                                      then setPath "/" parsed else parsed)])
  /\ option_map (map URL_String)
                (Sequential.links_of (Examples.page_of ["baz"])
                                     (Examples.url_of "http://h/foo/bar"))
     = Some ["http://h/foo/baz"]
  /\ Concurrent.links_of (Examples.page_of ["baz"]) = Some ["baz"]
  /\ Concurrent.parseToAbsURL (Examples.crawler 5) "baz"
     = inr (Examples.url_of "http://h/baz")
  /\ (exists sh t,
         Concurrent.steps (Examples.crawler 5) Examples.relative
                          (Concurrent.initial,
                           Concurrent.Pending (Examples.url_of "http://h/") 0) (sh, t)
         /\ map (fun r => URL_String (fst r)) (Concurrent.fetched sh)
            = ["http://h/"; "http://h/foo/bar"; "http://h/baz"])
  /\ option_map (map URL_String)
                (Sequential.links_of Examples.two_hrefs (Examples.url_of "http://h/"))
     = Some ["http://h/a"]
  /\ Concurrent.links_of Examples.two_hrefs = Some ["/a"; "/b"].
Proof.
  conj_split; try (vm_compute; reflexivity).
  - intros lib pageURL attrs attrs' st Hfirst.
    rewrite !seq_visit_attrs_first, Hfirst. reflexivity.
  - intros lib pageURL n val links seen links' seen' Hfirst.
    unfold Sequential.visitLink. rewrite seq_visit_attrs_first, Hfirst. simpl.
    destruct (Sequential.parseToAbsURL val pageURL) as [e|href] eqn:Hparse.
    { intros Heq. inversion Heq. left. reflexivity. }
    destruct (seq_parseToAbsURL_resolves _ _ _ Hparse) as (parsed & Hp & Hhref).
    destruct (Sequential.EnsureContains href seen) as [[[|] seen0]|]; [| |discriminate];
      intros Heq; inversion Heq; subst; [left; reflexivity|].
    right. exists parsed. split; [assumption|reflexivity].
  - eexists _, _. split.
    + apply (conc_run_moves_sound _ _ [Begin; Into 0 Begin; Into 0 (Into 0 Begin)]).
      vm_compute. reflexivity.
    + vm_compute. reflexivity.
Qed.

Lemma relative_href_resolved_against_root_witness :
  Sequential.visit_attrs (Examples.url_of "http://h/")
                         [mkAttr "href" "/a"; mkAttr "href" "/b"] ([], ∅)
  = Sequential.visit_attrs (Examples.url_of "http://h/") [mkAttr "href" "/a"] ([], ∅).
Proof.
  apply (proj1 relative_href_resolved_against_root go_url). reflexivity.
Defined.

(** C7, as the code has it.  [URLTree.string] prints the entries of every
    node in ascending order of their identity keys, each on a line of its
    own behind two spaces for each level, followed by the text of its sub
    tree; when the keys of the entries of every node differ from one
    another, the text does not depend on the order in which the map
    yields its entries, whatever the order of insertion.
    [LinkTree.string] prints the entries in ascending order of the links
    themselves, scheme included, whatever the order of insertion. *)
Theorem render_sorted :
  forall (lib : NetURL),
    (forall es indent out,
        Sequential.string_ (Sequential.UMap es) indent = Some out ->
        exists rows,
          out = concat_strings (map (Sequential.print_row indent) rows)
          /\ StronglySorted Sequential.row_le rows
          /\ exists unsorted,
              unsorted ≡ₚ rows
              /\ Forall2 (fun e r =>
                            Sequential.row_link r = fst e
                            /\ Sequential.sort_key (length es) (fst e)
                               = Some (Sequential.row_key r)
                            /\ Sequential.row_len r = Sequential.len (snd e)
                            /\ Sequential.string_ (snd e) (S indent)
                               = Some (Sequential.row_text r)) es unsorted)
    /\ (forall indent r,
           exists rest,
             Sequential.print_row indent r
             = Repeat "  " indent +:+ URL_String (Sequential.row_link r) +:+ newline +:+ rest)
    /\ (forall t t' indent,
           Sequential.keys_distinct t -> Sequential.reordered t t' ->
           Sequential.string_ t' indent = Sequential.string_ t indent)
    /\ (forall es indent,
           exists rows,
             Concurrent.string_ (Concurrent.LMap es) indent
             = concat_strings (map (Concurrent.print_row indent) rows)
             /\ StronglySorted Concurrent.row_le rows
             /\ rows ≡ₚ map (fun e => Concurrent.mkRow (fst e) (Concurrent.len (snd e))
                                        (Concurrent.string_ (snd e) (S indent))) es)
    /\ (forall t t' indent,
           Concurrent.pages_distinct t -> Concurrent.reordered t t' ->
           Concurrent.string_ t' indent = Concurrent.string_ t indent).
Proof.
  intros lib. conj_split.
  - intros es indent out. apply seq_string_sorted.
  - intros indent r. apply seq_print_row_line.
  - intros t t' indent Hdistinct Hre. apply seq_string_order_free; assumption.
  - intros es indent. apply conc_string_sorted.
  - intros t t' indent Hdistinct Hre. apply conc_string_order_free; assumption.
Qed.

Lemma render_sorted_witness :
  Sequential.string_
    (Sequential.UMap [(Examples.url_of "https://h/a", Sequential.UNil);
                      (Examples.url_of "http://h/b", Sequential.UNil)]) 0
  = Sequential.string_
      (Sequential.UMap [(Examples.url_of "http://h/b", Sequential.UNil);
                        (Examples.url_of "https://h/a", Sequential.UNil)]) 0.
Proof.
  destruct (render_sorted go_url) as (_ & _ & Hfree & _).
  apply Hfree.
  - apply (Sequential.keys_distinct_map _ ["//h/b"; "//h/a"]).
    + repeat constructor.
    + apply NoDup_cons. split; [|apply NoDup_singleton].
      intros Hin. apply list_elem_of_singleton in Hin. discriminate.
    + repeat constructor.
  - eapply Sequential.reordered_map.
    + constructor; [split; [reflexivity|constructor]|].
      constructor; [split; [reflexivity|constructor]|constructor].
    + apply perm_swap.
Defined.

(** C7 as stated fails in two places.  [LinkTree.string] sorts the links
    with their schemes: [http://b/] comes before [https://a/], against the
    order of their identity keys.  And two entries of a [URLTree] with the
    same identity key are printed in the order in which the map yields
    them. *)
Lemma render_not_by_identity_key :
  Concurrent.LinkTree_String
    (Concurrent.LMap [("https://a/", Concurrent.LNil); ("http://b/", Concurrent.LNil)])
  = "- http://b/" +:+ newline +:+ "- https://a/" +:+ newline
  /\ Sequential.identityKey "https://a/" = Some "//a/"
  /\ Sequential.identityKey "http://b/" = Some "//b/"
  /\ String.ltb "//a/" "//b/" = true
  /\ Sequential.URLTree_String
       (Sequential.UMap [(Examples.url_of "http://h/x", Sequential.UNil);
                         (Examples.url_of "https://h/x", Sequential.UNil)])
     = Some ("http://h/x" +:+ newline +:+ "https://h/x" +:+ newline)
  /\ Sequential.URLTree_String
       (Sequential.UMap [(Examples.url_of "https://h/x", Sequential.UNil);
                         (Examples.url_of "http://h/x", Sequential.UNil)])
     = Some ("https://h/x" +:+ newline +:+ "http://h/x" +:+ newline).
Proof. conj_split; vm_compute; reflexivity. Qed.

(** C8, as the code has it.  On one page, the first href with an identity
    key is the one listed: the node of the page in the tree of the
    depth-first crawler has it once, and no other link with the same key
    (so [http://h/x] before [https://h/x] on a page leaves the [http] form
    alone in the node of that page).  The links [findLinksInPage] of the
    concurrent crawler returns have pairwise different keys as well.  Links
    of different pages are listed under their own page. *)
Theorem first_scheme_wins_on_a_page :
  forall (lib : NetURL) (c : Crawler) (w : World),
    (forall fuel pageURL depth st es st' page doc k first other,
        Sequential.crawl c w fuel pageURL depth st
        = Sequential.Return (Sequential.UMap es, None) st' ->
        client_Get w (URL_String pageURL) = inr page ->
        html_Parse w page = inr doc ->
        Sequential.first_with_key k (Sequential.resolved_hrefs pageURL (anchors doc))
        = Some first ->
        Sequential.withoutScheme other = Some k ->
        other <> first ->
        NoDup (map fst es) /\ first ∈ map fst es /\ other ∉ map fst es)
    /\ (forall doc links,
           Concurrent.links_of doc = Some links ->
           exists keys,
             Forall2 (fun l k => exists u, Parse l = Some u
                                           /\ Concurrent.urlWithoutScheme u = Some k)
                     links keys
             /\ NoDup keys).
Proof.
  intros lib c w. split.
  - intros fuel pageURL depth st es st' page doc k first other Hrun Hget Hdoc Hfirst
           Hother Hne.
    assert (Sequential.crawl c w fuel pageURL depth st <> Sequential.OutOfFuel)
      as Hfuel by congruence.
    pose proof (seq_crawl_sound c w fuel _ _ _ Hfuel) as Hgraph.
    destruct (proj1 (seq_crawl_result c w) _ _ _ _ Hgraph _ _ _ Hrun) as [_ Hok].
    destruct (Hok eq_refl) as (hrefs & es' & (page' & Hget' & Hlinks) & Ht & Hmap & _).
    inversion Ht; subst es'. clear Ht.
    rewrite Hget in Hget'. inversion Hget'; subst page'. clear Hget'.
    destruct (seq_uniqueLinksInPage_ok w _ _ _ Hlinks) as (doc' & Hdoc' & Hof).
    rewrite Hdoc in Hdoc'. inversion Hdoc'; subst doc'. clear Hdoc'.
    destruct (seq_links_first_wins _ _ _ Hof) as [(keys & Hkeys & Hnd) Hwins].
    rewrite Hmap. rewrite <- Hwins in Hfirst.
    destruct (first_with_key_Some _ _ _ Hfirst) as [Hin Hkey].
    split; [eapply keys_NoDup_links; eassumption|]. split; [assumption|].
    intros Hin'. apply Hne.
    eapply seq_links_key_unique; eassumption.
  - intros doc links. apply conc_links_distinct.
Qed.

Lemma first_scheme_wins_on_a_page_witness :
  Examples.url_of "http://x/p"
    ∈ [Examples.url_of "http://x/p"; Examples.url_of "http://h/b"]
  /\ Examples.url_of "https://x/p"
       ∉ [Examples.url_of "http://x/p"; Examples.url_of "http://h/b"].
Proof.
  set (w := Examples.site [("http://h/", ["http://x/p"; "/b"; "https://x/p"])]).
  eassert (Sequential.crawl (Examples.crawler 1) w 1 (Examples.url_of "http://h/") 0
                            Sequential.initial
           = Sequential.Return
               (Sequential.UMap [(Examples.url_of "http://x/p", Sequential.UNil);
                                 (Examples.url_of "http://h/b", Sequential.UNil)], None) _)
    as Hrun by (vm_compute; reflexivity).
  refine (proj2 (proj1 (first_scheme_wins_on_a_page go_url (Examples.crawler 1) w)
                   _ _ _ _ _ _ _ _ "//x/p" (Examples.url_of "http://x/p")
                   (Examples.url_of "https://x/p") Hrun eq_refl eq_refl _ _ _)).
  - vm_compute. reflexivity.
  - vm_compute. reflexivity.
  - vm_compute. discriminate.
Defined.

(** C8 as stated fails across pages: [http://x/p] is found on the entry
    page and [https://x/p] on a page crawled afterwards, and the text of
    the tree has both, though their identity keys are the same. *)
Lemma both_schemes_shown_across_pages :
  exists t st',
    Sequential.Run (Examples.crawler 3) Examples.two_schemes 4 Sequential.initial
    = Sequential.Return (t, None) st'
    /\ t = Sequential.UMap
             [(Examples.url_of "http://x/p", Sequential.UNil);
              (Examples.url_of "http://h/b",
               Sequential.UMap [(Examples.url_of "https://x/p", Sequential.UNil)])]
    /\ Sequential.URLTree_String t
       = Some ("http://h/b" +:+ newline +:+ "  https://x/p" +:+ newline
               +:+ "http://x/p" +:+ newline)
    /\ Sequential.identityKey "http://x/p" = Sequential.identityKey "https://x/p".
Proof.
  eexists _, _. split; [vm_compute; reflexivity|]. conj_split; vm_compute; reflexivity.
Qed.



(** C10.  The concurrent [crawl] puts the key of its URL into the visited
    set before it tests the depth and the host: the key is in the set
    whenever [crawl] gets past its first statement; a crawl of a URL whose
    key is in the set returns at once; and no request that follows is for a
    URL with that key.  The loop of the depth-first [crawl] too marks a
    link before it tests the bounds, all links of a page are in the set
    when the crawl of the page returns, the only request a crawl sends
    for a URL whose key was in the set is the one for its own page, and
    the loop sends none. *)
Theorem visited_before_bounds :
  forall (lib : NetURL) (c : Crawler) (w : World),
    (forall u depth sh t sh',
        Concurrent.crawl_begin c w u depth sh = Some (t, sh') ->
        exists k, Concurrent.urlWithoutScheme u = Some k /\ k ∈ Concurrent.visited sh')
    /\ (forall u depth sh k,
           Concurrent.urlWithoutScheme u = Some k -> k ∈ Concurrent.visited sh ->
           Concurrent.crawl_begin c w u depth sh
           = Some (Concurrent.Done Concurrent.LNil,
                   Concurrent.mkShared (Concurrent.visited sh) (Concurrent.waits sh)
                                       (Concurrent.fetched sh) (Concurrent.crashed sh)))
    /\ (forall u depth sh t sh1 running sh2 running',
           Concurrent.crawl_begin c w u depth sh = Some (t, sh1) ->
           Concurrent.steps c w (sh1, running) (sh2, running') ->
           exists new,
             Concurrent.fetched sh2 = Concurrent.fetched sh1 ++ new
             /\ forall u' d', (u', d') ∈ new ->
                              Concurrent.urlWithoutScheme u'
                              <> Concurrent.urlWithoutScheme u)
    /\ (forall recur depth href rest tree st v,
           Sequential.EnsureContains href (Sequential.visited st) = Some (false, v) ->
           Sequential.out_of_bounds c href depth = true ->
           Sequential.each c recur depth (href :: rest) tree st
           = Sequential.each c recur depth rest (tree ++ [(href, Sequential.UNil)])
                             (Sequential.marked st v)
           /\ exists k, Sequential.withoutScheme href = Some k /\ k ∈ v)
    /\ (forall fuel pageURL depth st st',
           Sequential.state_of (Sequential.crawl c w fuel pageURL depth st) = Some st' ->
           exists new,
             Sequential.fetched st' = Sequential.fetched st ++ new
             /\ forall u d, (u, d) ∈ new ->
                            (u, d) = (pageURL, depth)
                            \/ exists k, Sequential.withoutScheme u = Some k
                                         /\ k ∉ Sequential.visited st)
    /\ (forall fuel depth hrefs tree st st',
           Sequential.state_of
             (Sequential.each c (Sequential.crawl c w fuel) depth hrefs tree st)
           = Some st' ->
           exists new,
             Sequential.fetched st' = Sequential.fetched st ++ new
             /\ forall u d, (u, d) ∈ new ->
                            exists k, Sequential.withoutScheme u = Some k
                                      /\ k ∉ Sequential.visited st)
    /\ (forall fuel pageURL depth st es st',
           Sequential.crawl c w fuel pageURL depth st
           = Sequential.Return (Sequential.UMap es, None) st' ->
           forall href, href ∈ map fst es ->
                        exists k, Sequential.withoutScheme href = Some k
                                  /\ k ∈ Sequential.visited st').
Proof.
  intros lib c w. conj_split.
  - intros u depth sh t sh' Hbegin. apply conc_crawl_begin_cases in Hbegin.
    destruct (conc_begun_marks c w _ _ _ _ _ Hbegin) as (k & Hk & Hv & _).
    exists k. split; [assumption|]. rewrite Hv. set_solver.
  - intros u depth sh k. apply conc_begin_visited.
  - intros u depth sh t sh1 running sh2 running' Hbegin Hsteps.
    apply conc_crawl_begin_cases in Hbegin.
    destruct (conc_begun_marks c w _ _ _ _ _ Hbegin) as (k & Hk & Hv & _).
    destruct (conc_steps_fresh c w _ _ Hsteps) as (_ & new & Hnew & Hfresh).
    simpl in *. exists new. split; [assumption|].
    intros u' d' Hin Hsame. destruct (Hfresh _ _ Hin) as (k' & Hk' & Hout).
    apply Hout. rewrite Hv. assert (k' = k) by congruence. set_solver.
  - intros recur depth href rest tree st v Hcall Hbounds. simpl.
    rewrite Hcall, Hbounds. split; [reflexivity|].
    destruct (seq_EnsureContains_inv _ _ _ _ Hcall) as (k & Hk & _ & ->).
    exists k. split; [assumption|set_solver].
  - intros fuel pageURL depth st st' Hst.
    assert (Sequential.crawl c w fuel pageURL depth st <> Sequential.OutOfFuel) as Hfuel.
    { intros Hout. rewrite Hout in Hst. discriminate. }
    pose proof (seq_crawl_sound c w fuel _ _ _ Hfuel) as Hgraph.
    destruct (proj1 (seq_crawl_fresh c w) _ _ _ _ Hgraph _ Hst)
      as (new & (_ & _ & Hlog) & Hfresh).
    exists new. split; assumption.
  - intros fuel depth hrefs tree st st' Hst.
    assert (Sequential.each c (Sequential.crawl c w fuel) depth hrefs tree st
            <> Sequential.OutOfFuel) as Hfuel.
    { intros Hout. rewrite Hout in Hst. discriminate. }
    assert (Sequential.each_to c w depth hrefs tree st
              (Sequential.each c (Sequential.crawl c w fuel) depth hrefs tree st))
      as Hgraph.
    { apply seq_each_sound; [|assumption].
      intros href st0. apply seq_crawl_sound. }
    destruct (proj2 (seq_crawl_fresh c w) _ _ _ _ _ Hgraph _ Hst)
      as (new & (_ & _ & Hlog) & Hfresh).
    exists new. split; assumption.
  - intros fuel pageURL depth st es st' Hrun href Hin.
    assert (Sequential.crawl c w fuel pageURL depth st <> Sequential.OutOfFuel)
      as Hfuel by congruence.
    pose proof (seq_crawl_sound c w fuel _ _ _ Hfuel) as Hgraph.
    destruct (proj1 (seq_crawl_result c w) _ _ _ _ Hgraph _ _ _ Hrun) as [_ Hok].
    destruct (Hok eq_refl) as (hrefs & es' & _ & Ht & Hmap & _ & Hkeys).
    inversion Ht; subst es'. apply Hkeys. rewrite <- Hmap. assumption.
Qed.

Lemma visited_before_bounds_witness :
  exists k, Concurrent.urlWithoutScheme (Examples.url_of "http://h/a") = Some k
            /\ k ∈ ({[ "//h/a"; "//h/" ]} : gset string).
Proof.
  eassert (Concurrent.crawl_begin (Examples.crawler 1) Examples.chain
                                  (Examples.url_of "http://h/a") 1
                                  (Concurrent.mkShared {[ "//h/" ]} 1
                                     [(Examples.url_of "http://h/", 0%Z)] false)
           = Some (Concurrent.Done Concurrent.LNil,
                   Concurrent.mkShared {[ "//h/a"; "//h/" ]} 1
                                       [(Examples.url_of "http://h/", 0%Z)] false))
    as Hbegin by (vm_compute; reflexivity).
  apply (proj1 (visited_before_bounds go_url (Examples.crawler 1) Examples.chain)
               _ _ _ _ _ Hbegin).
Defined.
